(** * shopmy_scraper: URL canonicalisation, brand inference, retry and CSV output

    A shallow embedding of [shopmy_scraper.py] and what it guarantees.

    Python [str] values are Rocq strings, read as the UTF-8 encoding of the
    text: a character is one byte when it is ASCII and a sequence of two to
    four bytes above 127 otherwise.  [strip] knows the whitespace of
    [str.isspace] in that encoding, [unquote] decodes escaped bytes as
    UTF-8 the way CPython does, and [str_lower] folds ASCII text itself and
    leaves text with other characters to the Unicode tables, a parameter.

    The functions of [urllib.parse] that [clean_url] and
    [extract_brand_from_url_and_title] call ([unquote], [urlsplit],
    [urlparse], [parse_qsl], [parse_qs]) are transcribed from CPython 3.11,
    [Lib/urllib/parse.py], with the default arguments the scraper uses.  Two
    checks of [urlsplit] are left as parameters: the validation of a
    bracketed host, which CPython hands to the [ipaddress] module, and the
    NFKC normalisation of a non-ASCII network location, which it hands to
    [unicodedata].

    Effects are explicit: the handler of [clean_url] sees the value that the
    variable [url] holds when the exception is raised; [retry_with_backoff]
    threads the world its operation acts on and records calls, log lines and
    sleeps in a trace, and [time.sleep] may raise; [save_to_csv] maps the
    files, told apart by what their names denote, and a log to new ones;
    the harvest acts on a browser whose every call may raise. *)

From Stdlib Require Import Ascii String ZArith List Lia Bool.
From stdpp Require Import base list strings gmap sorting.

(** ** Python string primitives *)

Definition is_upper (c : ascii) : bool :=
  ((65 <=? N_of_ascii c) && (N_of_ascii c <=? 90))%N.

Definition is_lower (c : ascii) : bool :=
  ((97 <=? N_of_ascii c) && (N_of_ascii c <=? 122))%N.

Definition is_alpha (c : ascii) : bool := is_upper c || is_lower c.

Definition is_digit (c : ascii) : bool :=
  ((48 <=? N_of_ascii c) && (N_of_ascii c <=? 57))%N.

(** [str.isspace] on one ASCII character: TAB..CR, FS..US and the space. *)
Definition is_space (c : ascii) : bool :=
  let n := N_of_ascii c in
  (((9 <=? n) && (n <=? 13)) || ((28 <=? n) && (n <=? 32)))%N.

Definition lower_char (c : ascii) : ascii :=
  if is_upper c then ascii_of_N (N_of_ascii c + 32) else c.

(** [s.lower()] on ASCII text: the letters A..Z are folded, the other
    characters stay. *)
Fixpoint lower (s : string) : string :=
  match s with
  | EmptyString => EmptyString
  | String c s' => String (lower_char c) (lower s')
  end.

Fixpoint all_chars (p : ascii -> bool) (s : string) : bool :=
  match s with
  | EmptyString => true
  | String c s' => p c && all_chars p s'
  end.

(** [s.isascii()] *)
Definition is_ascii_char (c : ascii) : bool := (N_of_ascii c <? 128)%N.

Definition is_ascii (s : string) : bool := all_chars is_ascii_char s.

(** [s.lower()] on a text that holds a character outside ASCII follows the
    Unicode character database (case mappings, final sigma), which is not
    transcribed here. *)
Class UnicodeCase := unicode_lower : string -> string.

(** [s.lower()] *)
Definition str_lower `{UnicodeCase} (s : string) : string :=
  if is_ascii s then lower s else unicode_lower s.

(** A case mapping for running the embedding on concrete ASCII text, on
    which [unicode_lower] is not consulted. *)
Definition ascii_case : UnicodeCase := fun s => lower s.

(** [sub in s] *)
Fixpoint contains (sub s : string) : bool :=
  match s with
  | EmptyString => String.prefix sub EmptyString
  | String _ s' => String.prefix sub s || contains sub s'
  end.

(** [c in s] for a single character *)
Fixpoint has_char (c : ascii) (s : string) : bool :=
  match s with
  | EmptyString => false
  | String d s' => Ascii.eqb c d || has_char c s'
  end.

(** [s.split(c, 1)] when [c] occurs in [s]: the text before the first [c]
    and the text after it; [None] when [c] does not occur ([s.find(c) < 0]). *)
Fixpoint split_once (c : ascii) (s : string) : option (string * string) :=
  match s with
  | EmptyString => None
  | String d s' =>
      if Ascii.eqb c d then Some (EmptyString, s')
      else match split_once c s' with
           | Some (a, b) => Some (String d a, b)
           | None => None
           end
  end.

(** [s.split(c)] for a one-character separator. *)
Fixpoint split_char (c : ascii) (s : string) : list string :=
  match s with
  | EmptyString => [EmptyString]
  | String d s' =>
      if Ascii.eqb c d then EmptyString :: split_char c s'
      else match split_char c s' with
           | x :: xs => String d x :: xs
           | [] => [String d EmptyString]
           end
  end.

(** [s.split(sep)] for a non-empty separator: a left-to-right scan that cuts
    at every occurrence of [sep] not overlapping the previous cut. [skip]
    counts the characters of a matched separator still to be passed over. *)
Fixpoint split_str_from (sep s : string) (skip : nat) : list string :=
  match s with
  | EmptyString => [EmptyString]
  | String d s' =>
      match skip with
      | S k => split_str_from sep s' k
      | O =>
          if String.prefix sep s
          then EmptyString :: split_str_from sep s' (String.length sep - 1)
          else match split_str_from sep s' 0 with
               | x :: xs => String d x :: xs
               | [] => [String d EmptyString]
               end
      end
  end.

Definition split_str (sep s : string) : list string := split_str_from sep s 0.

(** [sep.join(l)] *)
Fixpoint join (sep : string) (l : list string) : string :=
  match l with
  | [] => EmptyString
  | [x] => x
  | x :: l' => x +:+ sep +:+ join sep l'
  end.

(** [s.replace(c, "")] restricted to a set of characters *)
Fixpoint remove_chars (drop : ascii -> bool) (s : string) : string :=
  match s with
  | EmptyString => EmptyString
  | String c s' =>
      if drop c then remove_chars drop s' else String c (remove_chars drop s')
  end.

(** [s.lstrip(chars)] *)
Fixpoint lstrip_chars (drop : ascii -> bool) (s : string) : string :=
  match s with
  | EmptyString => EmptyString
  | String c s' => if drop c then lstrip_chars drop s' else s
  end.

(** [str.isspace] on a character of two bytes: U+0085 and U+00A0. *)
Definition is_space2 (c d : ascii) : bool :=
  ((N_of_ascii c =? 194) && ((N_of_ascii d =? 133) || (N_of_ascii d =? 160)))%N.

(** [str.isspace] on a character of three bytes: U+1680, U+2000..U+200A,
    U+2028, U+2029, U+202F, U+205F and U+3000.  No character of four bytes
    is whitespace. *)
Definition is_space3 (c d e : ascii) : bool :=
  let '(c, d, e) := (N_of_ascii c, N_of_ascii d, N_of_ascii e) in
  (((c =? 225) && (d =? 154) && (e =? 128))
   || ((c =? 226) && (d =? 128)
       && (((128 <=? e) && (e <=? 138)) || (e =? 168) || (e =? 169) || (e =? 175)))
   || ((c =? 226) && (d =? 129) && (e =? 159))
   || ((c =? 227) && (d =? 128) && (e =? 128)))%N.

(** [s.lstrip()]: the leading whitespace characters are dropped. *)
Fixpoint lstrip (s : string) : string :=
  match s with
  | EmptyString => EmptyString
  | String c s1 =>
      if is_space c then lstrip s1
      else match s1 with
           | String d s2 =>
               if is_space2 c d then lstrip s2
               else match s2 with
                    | String e s3 => if is_space3 c d e then lstrip s3 else s
                    | EmptyString => s
                    end
           | EmptyString => s
           end
  end.

(** [s.isspace()], also true of the empty text here. *)
Fixpoint all_space (s : string) : bool :=
  match s with
  | EmptyString => true
  | String c s1 =>
      if is_space c then all_space s1
      else match s1 with
           | String d s2 =>
               if is_space2 c d then all_space s2
               else match s2 with
                    | String e s3 => is_space3 c d e && all_space s3
                    | EmptyString => false
                    end
           | EmptyString => false
           end
  end.

(** [s.rstrip()]: the text is cut where only whitespace follows. *)
Fixpoint rstrip (s : string) : string :=
  match s with
  | EmptyString => EmptyString
  | String c s1 => if all_space s then EmptyString else String c (rstrip s1)
  end.

(** [s.strip()] *)
Definition strip (s : string) : string := rstrip (lstrip s).

(** [s.replace(a, b)] for single characters *)
Fixpoint replace_char (a b : ascii) (s : string) : string :=
  match s with
  | EmptyString => EmptyString
  | String c s' =>
      String (if Ascii.eqb a c then b else c) (replace_char a b s')
  end.

(** The longest prefix free of the characters [stop], and what follows it
    (which is empty or starts with a character of [stop]). *)
Fixpoint span_until (stop : ascii -> bool) (s : string) : string * string :=
  match s with
  | EmptyString => (EmptyString, EmptyString)
  | String c s' =>
      if stop c then (EmptyString, s)
      else let '(a, b) := span_until stop s' in (String c a, b)
  end.

(** [s.rfind(c)]: the text before the last [c], and the text from that [c]
    on; [None] when [c] does not occur. *)
Fixpoint split_last (c : ascii) (s : string) : option (string * string) :=
  match s with
  | EmptyString => None
  | String d s' =>
      match split_last c s' with
      | Some (a, b) => Some (String d a, b)
      | None => if Ascii.eqb c d then Some (EmptyString, s) else None
      end
  end.

(** [s[:-1]] *)
Fixpoint drop_last (s : string) : string :=
  match s with
  | EmptyString => EmptyString
  | String c EmptyString => EmptyString
  | String c s' => String c (drop_last s')
  end.

(** ** Exceptions *)

Inductive exn : Type := ValueError.

Inductive result (A : Type) : Type :=
  | Ok (a : A)
  | Raises (e : exn).
Arguments Ok {A} a.
Arguments Raises {A} e.

(** ** urllib.parse *)

Definition hex_value (c : ascii) : option N :=
  let n := N_of_ascii c in
  if is_digit c then Some (n - 48)%N
  else if ((65 <=? n) && (n <=? 70))%N then Some (n - 55)%N
  else if ((97 <=? n) && (n <=? 102))%N then Some (n - 87)%N
  else None.

(** [unquote_to_bytes]: every [%XY] with two hexadecimal digits becomes
    the byte [0xXY]; a [%] not followed by two hexadecimal digits stays.
    One pass, left to right: decoded bytes are not looked at again. *)
Fixpoint unquote_to_bytes (s : string) : string :=
  match s with
  | EmptyString => EmptyString
  | String c s' =>
      if Ascii.eqb c "%" then
        match s' with
        | String h1 (String h2 rest) =>
            match hex_value h1, hex_value h2 with
            | Some a, Some b => String (ascii_of_N (16 * a + b)) (unquote_to_bytes rest)
            | _, _ => String c (unquote_to_bytes s')
            end
        | _ => String c (unquote_to_bytes s')
        end
      else String c (unquote_to_bytes s')
  end.

(** U+FFFD, the replacement character, in UTF-8. *)
Definition replacement : string :=
  String (ascii_of_N 239) (String (ascii_of_N 191) (String (ascii_of_N 189) EmptyString)).

(** A continuation byte of UTF-8: 0x80 .. 0xBF. *)
Definition is_continuation (c : ascii) : bool :=
  ((128 <=? N_of_ascii c) && (N_of_ascii c <=? 191))%N.

(** The second byte that may follow the first byte [n] of a sequence of
    three bytes (no overlong form, no surrogate) and of four bytes (no
    overlong form, nothing above U+10FFFF). *)
Definition second_of_three (n : N) (c2 : ascii) : bool :=
  (is_continuation c2
   && negb ((n =? 224) && (N_of_ascii c2 <? 160))
   && negb ((n =? 237) && (160 <=? N_of_ascii c2)))%N.

Definition second_of_four (n : N) (c2 : ascii) : bool :=
  (is_continuation c2
   && negb ((n =? 240) && (N_of_ascii c2 <? 144))
   && negb ((n =? 244) && (144 <=? N_of_ascii c2)))%N.

(** [b.decode('utf-8', 'replace')], the result again in UTF-8: a
    well-formed sequence stays; a byte that starts no sequence, and the
    bytes of a sequence up to the byte that cannot continue it or to the
    end of the text, become one U+FFFD, and decoding goes on after them. *)
Fixpoint decode_replace (s : string) : string :=
  match s with
  | EmptyString => EmptyString
  | String c s1 =>
      let n := N_of_ascii c in
      if (n <? 128)%N then String c (decode_replace s1)
      else if ((n <? 194) || (244 <? n))%N then replacement +:+ decode_replace s1
      else if (n <? 224)%N then
        match s1 with
        | String c2 s2 =>
            if is_continuation c2 then String c (String c2 (decode_replace s2))
            else replacement +:+ decode_replace s1
        | EmptyString => replacement
        end
      else if (n <? 240)%N then
        match s1 with
        | String c2 s2 =>
            if second_of_three n c2 then
              match s2 with
              | String c3 s3 =>
                  if is_continuation c3
                  then String c (String c2 (String c3 (decode_replace s3)))
                  else replacement +:+ decode_replace s2
              | EmptyString => replacement
              end
            else replacement +:+ decode_replace s1
        | EmptyString => replacement
        end
      else
        match s1 with
        | String c2 s2 =>
            if second_of_four n c2 then
              match s2 with
              | String c3 s3 =>
                  if is_continuation c3 then
                    match s3 with
                    | String c4 s4 =>
                        if is_continuation c4
                        then String c (String c2 (String c3 (String c4 (decode_replace s4))))
                        else replacement +:+ decode_replace s3
                    | EmptyString => replacement
                    end
                  else replacement +:+ decode_replace s2
              | EmptyString => replacement
              end
            else replacement +:+ decode_replace s1
        | EmptyString => replacement
        end
  end.

(** The loop of [unquote] over [_asciire.split(string)]: every maximal run
    of ASCII characters is unescaped and decoded, the characters between
    the runs stay.  [run] is the ASCII run read so far. *)
Fixpoint unquote_runs (s run : string) : string :=
  match s with
  | EmptyString => decode_replace (unquote_to_bytes run)
  | String c s' =>
      if is_ascii_char c then unquote_runs s' (run +:+ String c EmptyString)
      else decode_replace (unquote_to_bytes run) +:+ String c (unquote_runs s' EmptyString)
  end.

(** [unquote(string)] with the default [encoding='utf-8'] and
    [errors='replace']. *)
Definition unquote (s : string) : string :=
  if has_char "%" s then unquote_runs s EmptyString else s.

(** [scheme_chars]: letters, digits and [+-.] *)
Definition is_scheme_char (c : ascii) : bool :=
  is_alpha c || is_digit c
  || Ascii.eqb c "+" || Ascii.eqb c "-" || Ascii.eqb c ".".

(** [_WHATWG_C0_CONTROL_OR_SPACE]: the characters 0x00 .. 0x20 *)
Definition is_c0_or_space (c : ascii) : bool := (N_of_ascii c <=? 32)%N.

(** [_UNSAFE_URL_BYTES_TO_REMOVE]: TAB, CR, LF *)
Definition is_unsafe_byte (c : ascii) : bool :=
  let n := N_of_ascii c in ((n =? 9) || (n =? 13) || (n =? 10))%N.

(** The delimiters [/?#] that end the network location. *)
Definition is_netloc_end (c : ascii) : bool :=
  Ascii.eqb c "/" || Ascii.eqb c "?" || Ascii.eqb c "#".

(** The two checks of [urlsplit] that other modules decide.
    [_check_bracketed_host]: CPython validates the text between the
    brackets as an IPvFuture literal or, through [ipaddress.ip_address], as
    an IPv6 address, and raises [ValueError] otherwise;
    [check_bracketed_host h = true] means the host is accepted.
    [_checknetloc] on a network location that is not ASCII: CPython removes
    [@:#?] from it, normalises the rest (NFKC, through [unicodedata]) and
    raises [ValueError] when that changes the text and the normal form
    holds one of [/?#@:]; [nfkc_rejects netloc = true] means it raises. *)
Class HostChecks := {
  check_bracketed_host : string -> bool;
  nfkc_rejects : string -> bool }.

(** Checks that accept every host, for running the embedding on concrete
    URLs whose network location is ASCII and carries no brackets. *)
Definition any_host : HostChecks :=
  {| check_bracketed_host := fun _ => true; nfkc_rejects := fun _ => false |}.

(** [uses_params]: the schemes whose last path segment may carry
    [;parameters]. *)
Definition uses_params : list string :=
  [""; "ftp"; "hdl"; "prospero"; "http"; "imap"; "https"; "shttp"; "rtsp";
   "rtspu"; "sip"; "sips"; "mms"; "sftp"; "tel"].

Record SplitResult : Type := mkSplit {
  s_scheme : string; s_netloc : string; s_path : string;
  s_query : string; s_fragment : string }.

Record ParseResult : Type := mkParse {
  scheme : string; netloc : string; path : string;
  params : string; query : string; fragment : string }.

(** [s.rpartition(c)[2]]: the text after the last [c], all of [s] when [c]
    does not occur. *)
Definition after_last (c : ascii) (s : string) : string :=
  match split_last c s with
  | Some (_, String _ b) => b
  | _ => s
  end.

(** [_check_bracketed_netloc] *)
Definition check_bracketed_netloc `{HostChecks} (netloc : string) : result unit :=
  let hostname_and_port := after_last "@" netloc in
  match split_once "[" hostname_and_port with
  | Some (before_bracket, bracketed) =>
      if negb (String.eqb before_bracket "") then Raises ValueError
      else
        let '(hostname, port) :=
          match split_once "]" bracketed with
          | Some (h, p) => (h, p)
          | None => (bracketed, EmptyString)
          end in
        if negb (String.eqb port "") && negb (String.prefix ":" port)
        then Raises ValueError
        else if check_bracketed_host hostname then Ok tt else Raises ValueError
  | None =>
      let hostname :=
        match split_once ":" hostname_and_port with
        | Some (h, _) => h
        | None => hostname_and_port
        end in
      if check_bracketed_host hostname then Ok tt else Raises ValueError
  end.

(** The scheme of [urlsplit]: [url[:i].lower()] and [url[i+1:]] when the
    first [:] is at [i > 0], [url[0]] is an ASCII letter and [url[:i]] has
    scheme characters only, which are ASCII, so that [lower] is all of
    [str.lower] here. *)
Definition split_scheme (url : string) : string * string :=
  match split_once ":" url with
  | Some (String c0 pre, rest) =>
      if is_alpha c0 && all_chars is_scheme_char (String c0 pre)
      then (lower (String c0 pre), rest)
      else (EmptyString, url)
  | _ => (EmptyString, url)
  end.

(** [url[len(p):]] when [url[:len(p)] == p] *)
Fixpoint strip_prefix (p s : string) : option string :=
  match p, s with
  | EmptyString, _ => Some s
  | String a p', String b s' => if Ascii.eqb a b then strip_prefix p' s' else None
  | String _ _, EmptyString => None
  end.

(** The two bracket checks of [urlsplit] on the network location. *)
Definition check_brackets `{HostChecks} (netloc : string) : result unit :=
  let open := has_char "[" netloc in
  let close := has_char "]" netloc in
  if (open && negb close) || (close && negb open) then Raises ValueError
  else if open && close then check_bracketed_netloc netloc
  else Ok tt.

(** The end of [urlsplit]: the fragment is cut off at the first [#], then
    the query at the first [?]. *)
Definition split_fragment_query (scheme netloc url : string) : SplitResult :=
  let '(url, fragment) :=
    match split_once "#" url with
    | Some (u, f) => (u, f)
    | None => (url, EmptyString)
    end in
  let '(url, query) :=
    match split_once "?" url with
    | Some (u, q) => (u, q)
    | None => (url, EmptyString)
    end in
  mkSplit scheme netloc url query fragment.

(** [_checknetloc]: it returns at once on an empty or ASCII network
    location. *)
Definition checknetloc `{HostChecks} (netloc : string) : result unit :=
  if String.eqb netloc EmptyString || is_ascii netloc then Ok tt
  else if nfkc_rejects netloc then Raises ValueError
  else Ok tt.

(** [urlsplit(url)] with the default [scheme=''] and [allow_fragments=True].
    Without [//] the network location is empty and [_checknetloc] returns
    at once. *)
Definition urlsplit `{HostChecks} (url : string) : result SplitResult :=
  let url := lstrip_chars is_c0_or_space url in
  let url := remove_chars is_unsafe_byte url in
  let '(scheme, url) := split_scheme url in
  match strip_prefix "//" url with
  | Some rest =>
      let '(netloc, url) := span_until is_netloc_end rest in
      match check_brackets netloc with
      | Raises e => Raises e
      | Ok _ =>
          match checknetloc netloc with
          | Raises e => Raises e
          | Ok _ => Ok (split_fragment_query scheme netloc url)
          end
      end
  | None => Ok (split_fragment_query scheme EmptyString url)
  end.

(** [_splitparams] *)
Definition splitparams (url : string) : string * string :=
  if has_char "/" url then
    match split_last "/" url with
    | Some (dir, seg) =>
        match split_once ";" seg with
        | Some (a, b) => (dir +:+ a, b)
        | None => (url, EmptyString)
        end
    | None => (url, EmptyString)
    end
  else
    match split_once ";" url with
    | Some (a, b) => (a, b)
    | None => (drop_last url, url)
    end.

(** [urlparse(url)] *)
Definition urlparse `{HostChecks} (url : string) : result ParseResult :=
  match urlsplit url with
  | Raises e => Raises e
  | Ok r =>
      let '(url, params) :=
        if existsb (String.eqb (s_scheme r)) uses_params && has_char ";" (s_path r)
        then splitparams (s_path r)
        else (s_path r, EmptyString) in
      Ok (mkParse (s_scheme r) (s_netloc r) url params (s_query r) (s_fragment r))
  end.

(** One field [name=value] of a query string, as [parse_qsl] reads it with
    [keep_blank_values=False] and [strict_parsing=False]: a field without
    [=] or with an empty value is skipped. *)
Definition parse_field (name_value : string) : option (string * string) :=
  match split_once "=" name_value with
  | Some (n, String c v) =>
      Some (unquote (replace_char "+" " " n),
            unquote (replace_char "+" " " (String c v)))
  | _ => None
  end.

(** [parse_qsl(qs)] with the default separator [&] *)
Definition parse_qsl (qs : string) : list (string * string) :=
  match qs with
  | EmptyString => []
  | _ => omap parse_field (split_char "&" qs)
  end.

(** A [dict] from names to non-empty lists of values, in insertion order:
    [parse_qs] creates every list as [[value]] and only appends to it, so a
    list is kept as its first value and the later ones. *)
Definition qs_dict : Type := list (string * (string * list string)).

Fixpoint dict_add (name value : string) (d : qs_dict) : qs_dict :=
  match d with
  | [] => [(name, (value, []))]
  | (k, (v0, vs)) :: d' =>
      if String.eqb name k then (k, (v0, vs ++ [value])) :: d'
      else (k, (v0, vs)) :: dict_add name value d'
  end.

(** [parse_qs(qs)] *)
Definition parse_qs (qs : string) : qs_dict :=
  fold_left (fun d nv => dict_add (fst nv) (snd nv) d) (parse_qsl qs) [].

(** [params[name][0]] when [name in params] *)
Fixpoint dict_first (name : string) (d : qs_dict) : option string :=
  match d with
  | [] => None
  | (k, (v0, _)) :: d' => if String.eqb name k then Some v0 else dict_first name d'
  end.

(** ** URL canonicaliser *)

(** [{k: v[0] for k, v in params.items() if k.lower() in [...]}].  The
    ASCII folding decides the test: the one character outside ASCII that
    [str.lower] maps into ASCII is U+212A, to [k], and none of the three
    words holds a [k]. *)
Definition is_essential (k : string) : bool :=
  existsb (String.eqb (lower k)) ["variant"; "color"; "size"].

Definition essential_params (d : qs_dict) : list (string * string) :=
  omap (fun kv => if is_essential (fst kv) then Some (fst kv, fst (snd kv)) else None) d.

(** [f"{k}={v}"] *)
Definition field (kv : string * string) : string := fst kv +:+ "=" +:+ snd kv.

(** ['&'.join(f"{k}={v}" for k, v in essential_params.items())] *)
Definition param_str (e : list (string * string)) : string :=
  join "&" (map field e).

Definition base_url (p : ParseResult) : string :=
  scheme p +:+ "://" +:+ netloc p +:+ path p.

(** Lines 20-35: the three affiliate wrappers.  [Raises] is an exception
    of [urlparse], raised before [url] is assigned. *)
Definition unwrap_affiliate `{HostChecks} (url : string) : result string :=
  if contains "api.shopmy.us/api/redirect_click" url then
    match urlparse url with
    | Raises e => Raises e
    | Ok parsed =>
        match dict_first "url" (parse_qs (query parsed)) with
        | Some v => Ok (unquote v)
        | None => Ok url
        end
    end
  else if contains "anrdoezrs.net/click" url then
    Ok (unquote (List.last (split_str "url=" url) EmptyString))
  else if contains "click.linksynergy.com/deeplink" url then
    match urlparse url with
    | Raises e => Raises e
    | Ok parsed =>
        match dict_first "murl" (parse_qs (query parsed)) with
        | Some v => Ok (unquote v)
        | None => Ok url
        end
    end
  else Ok url.

(** Lines 41-53, on the URL that line 38 has decoded. *)
Definition rebuild (parsed : ParseResult) : string :=
  match essential_params (parse_qs (query parsed)) with
  | [] => base_url parsed
  | e => base_url parsed +:+ "?" +:+ param_str e
  end.

(** How the [try] block of [clean_url] ends: with a [return] of the block,
    or in the handler, with the value the variable [url] holds there. *)
Inductive attempt : Type :=
  | Returned (r : string)
  | Caught (url : string).

Definition clean_url_try `{HostChecks} (url : string) : attempt :=
  match unwrap_affiliate url with
  | Raises _ => Caught url
  | Ok url =>
      let url := unquote url in
      match urlparse url with
      | Raises _ => Caught url
      | Ok parsed => Returned (rebuild parsed)
      end
  end.

(** [clean_url(url)]; the handler is [except: return url]. *)
Definition clean_url `{HostChecks} (url : string) : string :=
  match clean_url_try url with
  | Returned r => r
  | Caught url => url
  end.

(** ** Brand inferencer *)

(** [known_brands], in the order of the dictionary literal. *)
Definition known_brands : list (string * string) :=
  [("stella-mccartney", "Stella McCartney");
   ("lcuppini", "L.Cuppini");
   ("nanushka", "Nanushka");
   ("havaianas", "Havaianas");
   ("gap", "Gap");
   ("jennikayne", "Jenni Kayne");
   ("aritzia", "Aritzia");
   ("jimmy-choo", "Jimmy Choo");
   ("hunting-season", "Hunting Season");
   ("cesta", "Cesta Collective");
   ("eliou", "Ã‰liou");
   ("reformation", "Reformation");
   ("nour-hammour", "Nour Hammour");
   ("khaite", "Khaite");
   ("staud", "Staud");
   ("sezane", "Sezane");
   ("veronica-beard", "Veronica Beard");
   ("tory-burch", "Tory Burch");
   ("shonajoy", "Shona Joy");
   ("anine-bing", "Anine Bing");
   ("saint-laurent", "Saint Laurent");
   ("loro-piana", "Loro Piana");
   ("ralph-lauren", "Ralph Lauren");
   ("leset", "Le Set");
   ("co-collections", "CO")].

(** [for brand_key, brand_name in known_brands.items():
       if brand_key in text: return brand_name] *)
Fixpoint slug_loop (text : string) (items : list (string * string)) : option string :=
  match items with
  | [] => None
  | (brand_key, brand_name) :: items' =>
      if contains brand_key text then Some brand_name
      else slug_loop text items'
  end.

(** [for brand_name in known_brands.values():
       if brand_name.lower() in title.lower(): return brand_name] *)
Fixpoint name_loop `{UnicodeCase} (title : string) (values : list string)
    : option string :=
  match values with
  | [] => None
  | brand_name :: values' =>
      if contains (str_lower brand_name) (str_lower title) then Some brand_name
      else name_loop title values'
  end.

(** [extract_brand_from_url_and_title(url, title)].  Nothing catches the
    [ValueError] of [urlparse] here.  The second [urlparse(url)] of the
    source parses the same text and gives the same result. *)
Definition extract_brand_from_url_and_title `{HostChecks} `{UnicodeCase}
    (url title : string) : result string :=
  match urlparse url with
  | Raises e => Raises e
  | Ok parsed =>
      let parsed_url := str_lower (netloc parsed) in
      match slug_loop parsed_url known_brands with
      | Some brand_name => Ok brand_name
      | None =>
          let path := str_lower (path parsed) in
          match slug_loop path known_brands with
          | Some brand_name => Ok brand_name
          | None =>
              if negb (String.eqb title "") && negb (String.eqb title "N/A") then
                if has_char "|" title then
                  Ok (strip (List.hd EmptyString (split_char "|" title)))
                else
                  match name_loop title (map snd known_brands) with
                  | Some brand_name => Ok brand_name
                  | None => Ok "N/A"
                  end
              else Ok "N/A"
          end
      end
  end.

(** ** Retry with backoff *)

(** What one call of [func] does: it returns a value or raises. *)
Inductive call_result (V E : Type) : Type :=
  | Success (v : V)
  | Failure (e : E).
Arguments Success {V E} v.
Arguments Failure {V E} e.

(** What the caller and the clock see of a run. *)
Inductive event : Type :=
  | Call                                   (* func() *)
  | InfoRetry (attempt : Z) (delay : Z)    (* logger.info(f"Attempt {attempt + 1} failed, ...") *)
  | Sleep (delay : Z).                     (* time.sleep(delay) *)

Inductive retry_result (V E : Type) : Type :=
  | Returns (v : V)       (* return func() *)
  | ReturnsNone           (* the loop ran out: the function falls off its end *)
  | Propagates (e : E).   (* raise e, or an exception that the handler lets through or raises *)
Arguments Returns {V E} v.
Arguments ReturnsNone {V E}.
Arguments Propagates {V E} e.

(** What [time.sleep(delay)] raises, if anything: CPython refuses a
    negative delay ([ValueError]) and one that does not fit its clock
    ([OverflowError]), and the operating system may refuse others.
    [None]: the call sleeps and returns. *)
Class Clock (E : Type) := time_sleep : Z -> option E.

(** A clock on which every sleep returns. *)
Global Instance steady_clock {E : Type} : Clock E := fun _ => None.

Section RetryWithBackoff.
Context {W V E : Type} `{Clock E}.
(** [func] acts on the world [W]; [is_Exception e] says whether
    [except Exception] catches [e]. *)
Variable func : W -> call_result V E * W.
Variable is_Exception : E -> bool.
Variables max_retries initial_delay : Z.

(** The [for attempt in range(max_retries)] loop with [n] iterations to
    go, the next one numbered [attempt].  An exception of [time.sleep] is
    raised inside the handler and leaves the function. *)
Fixpoint retry_loop (n : nat) (attempt : Z) (w : W) (trace : list event)
    : retry_result V E * W * list event :=
  match n with
  | O => (ReturnsNone, w, trace)
  | S n' =>
      let '(r, w) := func w in
      let trace := trace ++ [Call] in
      match r with
      | Success v => (Returns v, w, trace)
      | Failure e =>
          if is_Exception e then
            if (attempt =? max_retries - 1)%Z then (Propagates e, w, trace)
            else
              let delay := (initial_delay * 2 ^ attempt)%Z in
              let trace := trace ++ [InfoRetry (attempt + 1) delay] in
              match time_sleep delay with
              | Some e' => (Propagates e', w, trace)
              | None => retry_loop n' (attempt + 1)%Z w (trace ++ [Sleep delay])
              end
          else (Propagates e, w, trace)
      end
  end.
End RetryWithBackoff.

(** [retry_with_backoff(func, max_retries, initial_delay)] *)
Definition retry_with_backoff_with {W V E : Type} `{Clock E}
    (func : W -> call_result V E * W) (is_Exception : E -> bool)
    (max_retries initial_delay : Z) (w : W) : retry_result V E * W * list event :=
  retry_loop func is_Exception max_retries initial_delay
    (Z.to_nat max_retries) 0%Z w [].

(** [retry_with_backoff(func)]: [max_retries=3, initial_delay=1].  The
    delays are 1 and 2 seconds, on which [time.sleep] returns. *)
Definition retry_with_backoff {W V E : Type}
    (func : W -> call_result V E * W) (is_Exception : E -> bool) (w : W) :=
  @retry_with_backoff_with W V E steady_clock func is_Exception 3 1 w.

(** ** Persistence writer *)

Record product : Type := mkProduct {
  title : string; brand : string; image_url : string; product_url : string }.

Global Instance product_eq_dec : EqDecision product.
Proof. solve_decision. Defined.

(** The records the writer logs. *)
Inductive log_record : Type :=
  | WarningNoProducts                        (* "No products to save" *)
  | InfoRemoved (n : Z)                      (* f"Removed {n} duplicate products" *)
  | InfoSaved (n : nat) (filename : string)  (* f"Saved {n} unique products to {filename}" *)
  | InfoFirstRows                            (* "First few rows of data:" *)
  | InfoProduct (p : product).               (* logger.info(product) *)

(** A CSV file as its rows of cells, the header first ([csv] quoting is
    not modelled). *)
Definition csv_file : Type := list (list string).

(** A file: a CSV file, or a file of another kind, such as the screenshot
    of the harvest, whose content is not modelled. *)
Inductive file : Type :=
  | CsvFile (rows : csv_file)
  | OtherFile.

(** The file that a file name denotes: [open] resolves the name against
    the working directory and follows links, so that two names may denote
    one file.  [realpath name] stands for the file. *)
Class FileSystem := realpath : string -> string.

(** A file system in which every name denotes a file of its own. *)
Definition flat_directory : FileSystem := fun name => name.

(** A file system in which [./name] and [name] denote the same file. *)
Definition working_directory : FileSystem :=
  fun name =>
    match strip_prefix "./" name with
    | Some rest => rest
    | None => name
    end.

(** The files, each under what [realpath] gives for its names, and the
    log of the writer. *)
Record world : Type := mkWorld {
  files : gmap string file;
  log : list log_record }.

Definition fieldnames : list string := ["title"; "brand"; "image_url"; "product_url"].

Definition row_of (p : product) : list string :=
  [title p; brand p; image_url p; product_url p].

(** [(product['title'], product['product_url'])] *)
Definition dedup_key (p : product) : string * string := (title p, product_url p).

(** The [for product in products_data] loop over [seen] and [unique_products]. *)
Fixpoint dedup_loop (products_data : list product)
    (seen : gset (string * string)) (unique_products : list product)
    : gset (string * string) * list product :=
  match products_data with
  | [] => (seen, unique_products)
  | p :: rest =>
      let key := dedup_key p in
      if decide (key ∈ seen) then dedup_loop rest seen unique_products
      else dedup_loop rest ({[key]} ∪ seen) (unique_products ++ [p])
  end.

Definition unique_products_of (products_data : list product) : list product :=
  snd (dedup_loop products_data ∅ []).

(** [save_to_csv(products_data, filename)] *)
Definition save_to_csv `{FileSystem} (products_data : list product)
    (filename : string) (w : world) : world :=
  match products_data with
  | [] => mkWorld (files w) (log w ++ [WarningNoProducts])
  | _ =>
      let unique_products := unique_products_of products_data in
      let removed :=
        (Z.of_nat (length products_data) - Z.of_nat (length unique_products))%Z in
      mkWorld
        (<[realpath filename := CsvFile (fieldnames :: map row_of unique_products)]>
           (files w))
        (log w ++ [InfoRemoved removed;
                   InfoSaved (length unique_products) filename;
                   InfoFirstRows]
               ++ map InfoProduct (take 5 unique_products))
  end.

(** ** Notions the statements use *)

(** The delays a run slept, in order. *)
Definition sleeps (trace : list event) : list Z :=
  omap (fun e => match e with Sleep d => Some d | _ => None end) trace.

(** How many times a run called [func]. *)
Definition calls (trace : list event) : nat :=
  length (List.filter (fun e => match e with Call => true | _ => false end) trace).

(** The world after [n] calls of [func], and what call number [n] (from 0)
    results in. *)
Fixpoint state_after {W V E : Type} (func : W -> call_result V E * W)
    (n : nat) (w : W) : W :=
  match n with
  | O => w
  | S n' => state_after func n' (snd (func w))
  end.

Definition outcome_at {W V E : Type} (func : W -> call_result V E * W)
    (n : nat) (w : W) : call_result V E :=
  fst (func (state_after func n w)).

(** Position [i] of a list of records is where its (title, product_url)
    pair occurs for the first time. *)
Definition first_with_key (l : list product) (i : nat) : Prop :=
  exists p, l !! i = Some p
    /\ forall j q, j < i -> l !! j = Some q ->
         (title q, product_url q) <> (title p, product_url p).

(** A list without its repetitions: each element where it first occurs. *)
Fixpoint first_occurrences (l : list string) : list string :=
  match l with
  | [] => []
  | x :: l' => x :: filter (fun y => y <> x) (first_occurrences l')
  end.

(** The value of the first pair named [name]. *)
Fixpoint first_value (name : string) (pairs : list (string * string)) : option string :=
  match pairs with
  | [] => None
  | (k, v) :: pairs' => if String.eqb name k then Some v else first_value name pairs'
  end.

(** The query string of a URL as text: what stands between the first [?]
    and the fragment, the fragment starting at the first [#]. *)
Definition query_string_of (url : string) : string :=
  let without_fragment :=
    match split_once "#" url with
    | Some (u, _) => u
    | None => url
    end in
  match split_once "?" without_fragment with
  | Some (_, q) => q
  | None => EmptyString
  end.

(** The keys a query string shows to [parse_qsl]. *)
Definition query_keys (qs : string) : list string := map fst (parse_qsl qs).

(** ** Notions the lemmas use *)

(** The text before the first [c], all of [s] when there is none. *)
Definition before (c : ascii) (s : string) : string :=
  match split_once c s with
  | Some (a, _) => a
  | None => s
  end.

(** No TAB, CR or LF: [urlsplit] removes nothing from such a text. *)
Definition clean (s : string) : Prop :=
  all_chars (fun c => negb (is_unsafe_byte c)) s = true.

(** A scheme as [urlsplit] yields it: empty, or lowercase scheme characters
    after a letter. *)
Definition scheme_ok (sch : string) : Prop :=
  sch = EmptyString
  \/ ((exists c0 pre, sch = String c0 pre /\ is_alpha c0 = true)
      /\ all_chars is_scheme_char sch = true
      /\ lower sch = sch).

(** A path that is empty or starts with [/]. *)
Definition rooted (pth : string) : Prop :=
  pth = EmptyString \/ exists p, pth = String "/" p.

(** What [urlsplit] guarantees of the scheme, the network location and the
    path it returns. *)
Definition shape (sch net pth : string) : Prop :=
  scheme_ok sch
  /\ all_chars (fun c => negb (is_netloc_end c)) net = true
  /\ has_char "?" pth = false
  /\ has_char "#" pth = false
  /\ (net <> EmptyString -> rooted pth)
  /\ clean net /\ clean pth.

(** The last path segment, from its [/] on; the whole text when it has no [/]. *)
Definition last_segment (pth : string) : string :=
  match split_last "/" pth with
  | Some (_, seg) => seg
  | None => pth
  end.

(** For a scheme of [uses_params], [urlparse] has cut the parameters off
    the last path segment. *)
Definition params_ok (sch pth : string) : Prop :=
  existsb (String.eqb sch) uses_params = true ->
  has_char ";" (last_segment pth) = false.

(** A character that a kept value can hold without the result being read
    differently: no separator, no fragment sign, no [+], no unsafe byte. *)
Definition value_plain (c : ascii) : bool :=
  negb (Ascii.eqb "&" c || Ascii.eqb "#" c || Ascii.eqb "+" c || is_unsafe_byte c).

(** What [rebuild] attaches after the path. *)
Definition attached (kept : list (string * string)) : string :=
  match kept with [] => "" | _ => "?" +:+ param_str kept end.

(** The query that the attached text stands for. *)
Definition attached_query (kept : list (string * string)) : string :=
  match kept with [] => "" | _ => param_str kept end.

(** ** More notions the statements use *)

(** The delays of a backoff that starts at attempt [a]: [d * 2 ^ a],
    [d * 2 ^ (a + 1)], ... ([k] of them). *)
Definition backoff_delays (d a : Z) (k : nat) : list Z :=
  map (fun i => (d * 2 ^ (a + Z.of_nat i))%Z) (seq 0 k).

(** The sum of a list of delays. *)
Definition total (l : list Z) : Z := fold_right Z.add 0%Z l.

(** The trace of [k] failed attempts from attempt [a] on, each followed by
    its log line and its sleep: the delay after attempt [i] is [d * 2 ^ i]. *)
Definition backoff_rounds (d a : Z) (k : nat) : list event :=
  concat (map (fun i =>
                 let attempt := (a + Z.of_nat i)%Z in
                 [Call; InfoRetry (attempt + 1) (d * 2 ^ attempt);
                  Sleep (d * 2 ^ attempt)]%Z)
              (seq 0 k)).




(** An operation for examples: it counts its calls in the world, fails on
    the first [k] of them and succeeds from then on. *)
Definition flaky (k : nat) (w : nat) : call_result nat nat * nat :=
  (if Nat.ltb w k then Failure w else Success w, S w).

(** ** Page harvester *)

(** The double quote, for the selectors that hold one. *)
Definition dquote : string := String "034" EmptyString.

(** ['[class*="word"]'] *)
Definition class_contains (word : string) : string :=
  "[class*=" +:+ dquote +:+ word +:+ dquote +:+ "]".

(** What a sub-element answers: [inner_text()] and [get_attribute(name)],
    either of which may raise. *)
Record node (E : Type) : Type := mkNode {
  inner_text : call_result string E;
  get_attribute : string -> call_result (option string) E }.
Arguments mkNode {E} _ _.
Arguments inner_text {E} _.
Arguments get_attribute {E} _ _.

(** A product element, as what [query_selector(selector)] answers on it:
    a sub-element, [None], or an exception. *)
Record element (E : Type) : Type := mkElement {
  query_selector : string -> call_result (option (node E)) E }.
Arguments mkElement {E} _.
Arguments query_selector {E} _ _.

(** Sequencing of calls that may raise. *)
Definition and_then {A A' E : Type} (c : call_result A E)
    (k : A -> call_result A' E) : call_result A' E :=
  match c with
  | Success a => k a
  | Failure e => Failure e
  end.

(** [x or y] on values that are [None] or a string: the empty string is
    false as well. *)
Definition truthy (o : option string) : option string :=
  match o with
  | Some (String c s) => Some (String c s)
  | _ => None
  end.

(** [product.query_selector(s1) or product.query_selector(s2) or ...]: the
    queries are made in turn on the element [item] until one answers a
    sub-element. *)
Fixpoint query_first {E : Type} (item : element E) (selectors : list string)
    : call_result (option (node E)) E :=
  match selectors with
  | [] => Success None
  | [s] => query_selector item s
  | s :: rest =>
      and_then (query_selector item s) (fun found =>
        match found with
        | Some n => Success (Some n)
        | None => query_first item rest
        end)
  end.

(** Lines 195-197 and 200-202: the stripped text of the sub-element, or the
    sentinel when there is none. *)
Definition text_or_sentinel {E : Type} (found : option (node E)) : call_result string E :=
  match found with
  | Some n => and_then (inner_text n) (fun t => Success (strip t))
  | None => Success "N/A"
  end.

(** Lines 206-209 *)
Definition image_url_of {E : Type} (img_element : option (node E)) : call_result string E :=
  match img_element with
  | None => Success "N/A"
  | Some n =>
      and_then (get_attribute n "src") (fun src =>
        and_then
          (match truthy src with
           | Some s => Success s
           | None =>
               and_then (get_attribute n "data-src") (fun data_src =>
                 match truthy data_src with
                 | Some s => Success s
                 | None => Success "N/A"
                 end)
           end)
          (fun image_url =>
             if String.prefix "//" image_url then Success ("https:" +:+ image_url)
             else Success image_url))
  end.

(** Lines 216-219 *)
Definition absolute_href (product_url : string) : string :=
  if String.prefix "//" product_url then "https:" +:+ product_url
  else if String.prefix "/" product_url then "https://shopmy.us" +:+ product_url
  else product_url.

(** Lines 213-220 *)
Definition product_url_of {E : Type} (link_element : option (node E)) : call_result string E :=
  match link_element with
  | None => Success "N/A"
  | Some n =>
      and_then (get_attribute n "href") (fun href =>
        match truthy href with
        | Some product_url => Success (absolute_href product_url)
        | None => Success "N/A"
        end)
  end.

(** Lines 186-220: the [product_data] of one element, or the exception
    that one of the queries raises. *)
Definition extract_product {E : Type} (item : element E) : call_result product E :=
  and_then (query_first item [class_contains "title"; "h3"; "h2"]) (fun title_element =>
  and_then (text_or_sentinel title_element) (fun title =>
  and_then (query_first item [class_contains "brand"; class_contains "vendor"]) (fun brand_element =>
  and_then (text_or_sentinel brand_element) (fun brand =>
  and_then (query_selector item "img") (fun img_element =>
  and_then (image_url_of img_element) (fun image_url =>
  and_then (query_selector item "a") (fun link_element =>
  and_then (product_url_of link_element) (fun product_url =>
  Success (mkProduct title brand image_url product_url))))))))).

(** [any(value != 'N/A' for value in product_data.values())] *)
Definition has_information (p : product) : bool :=
  existsb (fun value => negb (String.eqb value "N/A")) (row_of p).

(** The exceptions of a harvest: those of the browser library, and the
    [Exception] that line 164 raises. *)
Inductive scrape_exn (E : Type) : Type :=
  | Foreign (e : E)
  | NoProductElements.
Arguments Foreign {E} e.
Arguments NoProductElements {E}.

Inductive info_message : Type :=
  | Starting
  | Navigating (url : string)
  | PageLoaded
  | Trying (selector : string)
  | FoundSelector (selector : string)
  | WaitingForReact
  | Scrolling
  | Extracting
  | Processing (idx : nat)
  | Added (title : string).

Inductive error_message (E : Type) : Type :=
  | ErrorProcessing (idx : nat) (e : E)
  | FailedScraping (e : scrape_exn E)
  | ScriptFailed (e : scrape_exn E).
Arguments ErrorProcessing {E} idx e.
Arguments FailedScraping {E} e.
Arguments ScriptFailed {E} e.

(** What a harvest does, in order: the calls on the browser and the page,
    what [retry_with_backoff] does around [page.goto], and the log. *)
Inductive scrape_event (E : Type) : Type :=
  | Launch
  | NewPage
  | Retrying (ev : event)
  | WaitForSelector (selector : string)
  | WaitForTimeout (ms : Z)
  | ReadHeight
  | ScrollToBottom
  | QuerySelectorAll (selector : string)
  | Screenshot (path : string)
  | Close
  | LogInfo (m : info_message)
  | LogError (m : error_message E).
Arguments Launch {E}.
Arguments NewPage {E}.
Arguments Retrying {E} ev.
Arguments WaitForSelector {E} selector.
Arguments WaitForTimeout {E} ms.
Arguments ReadHeight {E}.
Arguments ScrollToBottom {E}.
Arguments QuerySelectorAll {E} selector.
Arguments Screenshot {E} path.
Arguments Close {E}.
Arguments LogInfo {E} m.
Arguments LogError {E} m.

(** The browser as the harvest sees it: every call acts on the state [B]
    of browser and page and may raise.  [catches_Exception e] says whether
    [except Exception] catches [e], [is_PlaywrightTimeout e] whether
    [except PlaywrightTimeout] does. *)
Record browser (B E : Type) : Type := mkBrowser {
  br_launch : B -> call_result unit E * B;
  br_new_page : B -> call_result unit E * B;
  br_goto : string -> B -> call_result unit E * B;
  br_wait_for_selector : string -> B -> call_result unit E * B;
  br_wait_for_timeout : Z -> B -> call_result unit E * B;
  br_scroll_height : B -> call_result Z E * B;
  br_scroll_to_bottom : B -> call_result unit E * B;
  br_query_selector_all : string -> B -> call_result (list (element E)) E * B;
  br_screenshot : string -> B -> call_result unit E * B;
  br_close : B -> call_result unit E * B;
  catches_Exception : E -> bool;
  is_PlaywrightTimeout : E -> bool }.
Arguments br_launch {B E} _ _.
Arguments br_new_page {B E} _ _.
Arguments br_goto {B E} _ _ _.
Arguments br_wait_for_selector {B E} _ _ _.
Arguments br_wait_for_timeout {B E} _ _ _.
Arguments br_scroll_height {B E} _ _.
Arguments br_scroll_to_bottom {B E} _ _.
Arguments br_query_selector_all {B E} _ _ _.
Arguments br_screenshot {B E} _ _ _.
Arguments br_close {B E} _ _.
Arguments catches_Exception {B E} _ _.
Arguments is_PlaywrightTimeout {B E} _ _.

(** How a piece of the harvest ends: normally, with an exception, or not
    within the iterations the scroll loop is given. *)
Inductive run (E A : Type) : Type :=
  | Finished (a : A)
  | Raised (e : scrape_exn E)
  | OutOfFuel.
Arguments Finished {E A} a.
Arguments Raised {E A} e.
Arguments OutOfFuel {E A}.

(** A piece of the harvest acts on the browser state and extends the trace. *)
Definition harvest (B E A : Type) : Type :=
  B * list (scrape_event E) -> run E A * (B * list (scrape_event E)).

Definition ret {B E A : Type} (a : A) : harvest B E A := fun s => (Finished a, s).

Definition bind {B E A A' : Type} (c : harvest B E A) (k : A -> harvest B E A')
    : harvest B E A' :=
  fun s =>
    match c s with
    | (Finished a, s') => k a s'
    | (Raised e, s') => (Raised e, s')
    | (OutOfFuel, s') => (OutOfFuel, s')
    end.

Notation "'do' x <- c ; k" := (bind c (fun x => k))
  (at level 10, x name, c at level 100, k at level 200).
Notation "c ;; k" := (bind c (fun _ => k))
  (at level 100, k at level 200, right associativity).

(** A call on the browser or the page: it is recorded, and its exception,
    if any, is raised. *)
Definition call {B E A : Type} (ev : scrape_event E)
    (op : B -> call_result A E * B) : harvest B E A :=
  fun s =>
    match op (fst s) with
    | (Success a, b') => (Finished a, (b', snd s ++ [ev]))
    | (Failure e, b') => (Raised (Foreign e), (b', snd s ++ [ev]))
    end.

Definition info {B E : Type} (m : info_message) : harvest B E unit :=
  fun s => (Finished tt, (fst s, snd s ++ [LogInfo m])).

Definition error {B E : Type} (m : error_message E) : harvest B E unit :=
  fun s => (Finished tt, (fst s, snd s ++ [LogError m])).

Definition throw {B E A : Type} (e : scrape_exn E) : harvest B E A :=
  fun s => (Raised e, s).

(** Whether [except Exception] catches an exception of the harvest. *)
Definition caught {B E : Type} (br : browser B E) (e : scrape_exn E) : bool :=
  match e with
  | Foreign e' => catches_Exception br e'
  | NoProductElements => true
  end.

(** Line 146: [retry_with_backoff(load_page)], where [load_page] is
    [page.goto(url, timeout=90000, wait_until='networkidle')]. *)
Definition load_page_with_retry {B E : Type} (br : browser B E) (url : string)
    : harvest B E unit :=
  fun s =>
    let '(r, b', trace) :=
      retry_with_backoff (br_goto br url) (catches_Exception br) (fst s) in
    let s' := (b', snd s ++ map Retrying trace) in
    match r with
    | Returns _ => (Finished tt, s')
    | ReturnsNone => (Finished tt, s')
    | Propagates e => (Raised (Foreign e), s')
    end.

(** Lines 153-161: the first selector on which [wait_for_selector] does
    not time out; an exception that is no timeout is not caught here. *)
Fixpoint find_product_selector {B E : Type} (br : browser B E)
    (selectors : list string) : harvest B E (option string) :=
  match selectors with
  | [] => ret None
  | selector :: rest =>
      info (Trying selector) ;;
      fun s =>
        match br_wait_for_selector br selector (fst s) with
        | (Success _, b') =>
            (info (FoundSelector selector) ;; ret (Some selector))
              (b', snd s ++ [WaitForSelector selector])
        | (Failure e, b') =>
            if is_PlaywrightTimeout br e
            then find_product_selector br rest (b', snd s ++ [WaitForSelector selector])
            else (Raised (Foreign e), (b', snd s ++ [WaitForSelector selector]))
        end
  end.

(** Lines 171-177: [while True], given [fuel] iterations. *)
Fixpoint scroll_to_exhaustion {B E : Type} (br : browser B E)
    (fuel : nat) (last_height : Z) : harvest B E unit :=
  match fuel with
  | O => fun s => (OutOfFuel, s)
  | S fuel' =>
      call ScrollToBottom (br_scroll_to_bottom br) ;;
      call (WaitForTimeout 2000) (br_wait_for_timeout br 2000) ;;
      do new_height <- call ReadHeight (br_scroll_height br) ;
      if (new_height =? last_height)%Z then ret tt
      else scroll_to_exhaustion br fuel' new_height
  end.

(** Lines 182-229: the loop over the matched elements; [idx] counts from 1. *)
Fixpoint extract_all {B E : Type} (br : browser B E) (idx : nat)
    (products : list (element E)) (products_data : list product)
    : harvest B E (list product) :=
  match products with
  | [] => ret products_data
  | item :: rest =>
      info (Processing idx) ;;
      match extract_product item with
      | Success product_data =>
          if has_information product_data then
            info (Added (title product_data)) ;;
            extract_all br (S idx) rest (products_data ++ [product_data])
          else extract_all br (S idx) rest products_data
      | Failure e =>
          if catches_Exception br e then
            error (ErrorProcessing idx e) ;;
            extract_all br (S idx) rest products_data
          else throw (Foreign e)
      end
  end.

Definition product_selectors : list string :=
  [class_contains "product"; ".product-card"; ".product-item"].

(** Lines 140-229: the [try] block. *)
Definition scrape_body {B E : Type} (br : browser B E) (fuel : nat) (url : string)
    : harvest B E (list product) :=
  info Starting ;;
  info (Navigating url) ;;
  load_page_with_retry br url ;;
  info PageLoaded ;;
  do product_selector <- find_product_selector br product_selectors ;
  match product_selector with
  | None => throw NoProductElements
  | Some selector =>
      info WaitingForReact ;;
      call (WaitForTimeout 2000) (br_wait_for_timeout br 2000) ;;
      info Scrolling ;;
      do last_height <- call ReadHeight (br_scroll_height br) ;
      scroll_to_exhaustion br fuel last_height ;;
      info Extracting ;;
      do products <- call (QuerySelectorAll selector) (br_query_selector_all br selector) ;
      extract_all br 1 products []
  end.

(** [finally: browser.close()]: the outcome stands unless [close] raises. *)
Definition finally_close {B E A : Type} (br : browser B E) (outcome : run E A)
    : harvest B E A :=
  fun s =>
    match call Close (br_close br) s with
    | (Finished _, s') => (outcome, s')
    | (Raised e, s') => (Raised e, s')
    | (OutOfFuel, s') => (OutOfFuel, s')
    end.

(** [scrape_shopmy_collection(url)], from the launch of the browser on
    (the context manager of line 135 is left out).  A scroll loop that does
    not end within [fuel] iterations is a harvest that does not return. *)
Definition scrape_shopmy_collection {B E : Type} (br : browser B E)
    (fuel : nat) (url : string) : harvest B E (list product) :=
  call Launch (br_launch br) ;;
  call NewPage (br_new_page br) ;;
  fun s =>
    match scrape_body br fuel url s with
    | (OutOfFuel, s') => (OutOfFuel, s')
    | (Finished products_data, s') => finally_close br (Finished products_data) s'
    | (Raised e, s') =>
        if caught br e then
          match (error (FailedScraping e) ;;
                 call (Screenshot "error_screenshot.png")
                      (br_screenshot br "error_screenshot.png")) s' with
          | (Finished _, s'') => finally_close br (Raised e) s''
          | (Raised e', s'') => finally_close br (Raised e') s''
          | (OutOfFuel, s'') => (OutOfFuel, s'')
          end
        else finally_close br (Raised e) s'
    end.


(** What one element adds to the harvest: its record if the extraction
    raises nothing and some field is not the sentinel. *)
Definition harvested {E : Type} (item : element E) : option product :=
  match extract_product item with
  | Success p => if has_information p then Some p else None
  | Failure _ => None
  end.

(** The trace of trying selectors on which [wait_for_selector] times out. *)
Definition tried {E : Type} (selectors : list string) : list (scrape_event E) :=
  concat (map (fun s => [LogInfo (Trying s); WaitForSelector s]) selectors).

(** One turn of the scroll loop: scroll, wait, read the height. *)
Definition one_scroll {B E : Type} (br : browser B E) : harvest B E Z :=
  call ScrollToBottom (br_scroll_to_bottom br) ;;
  call (WaitForTimeout 2000) (br_wait_for_timeout br 2000) ;;
  call ReadHeight (br_scroll_height br).

(** A page for examples: its state counts the scrolls, its height is 100
    per scroll up to 500; it shows the elements [items], and no call raises. *)
Definition growing_page (items : list (element unit)) : browser nat unit :=
  mkBrowser nat unit
    (fun b => (Success tt, b))
    (fun b => (Success tt, b))
    (fun _ b => (Success tt, b))
    (fun _ b => (Success tt, b))
    (fun _ b => (Success tt, b))
    (fun b => (Success (100 * Z.of_nat (Nat.min b 5))%Z, b))
    (fun b => (Success tt, S b))
    (fun _ b => (Success items, b))
    (fun _ b => (Success tt, b))
    (fun b => (Success tt, b))
    (fun _ => true)
    (fun _ => false).

(** Elements for examples: a card with a title, an image and a link, and
    an element without sub-elements. *)
Definition card (title src href : string) : element unit :=
  mkElement (fun selector =>
    if String.eqb selector "h3"
    then Success (Some (mkNode (Success title) (fun _ => Success None)))
    else if String.eqb selector "img"
    then Success (Some (mkNode (Success "")
           (fun name => if String.eqb name "src" then Success (Some src)
                        else Success None)))
    else if String.eqb selector "a"
    then Success (Some (mkNode (Success "")
           (fun name => if String.eqb name "href" then Success (Some href)
                        else Success None)))
    else Success None).

Definition blank_element : element unit := mkElement (fun _ => Success None).

(** An element on which every query raises. *)
Definition broken_element : element unit := mkElement (fun _ => Failure tt).



(** A record as the harvest returns it: some field is not the sentinel,
    the product URL is not empty and does not start with [/], the image
    URL is not empty and does not start with [//]. *)
Definition well_formed (p : product) : Prop :=
  has_information p = true
  /\ product_url p <> EmptyString
  /\ String.prefix "/" (product_url p) = false
  /\ image_url p <> EmptyString
  /\ String.prefix "//" (image_url p) = false.




(** The waits on the given selectors, made in turn from the state [b], all
    time out: the state they leave, or [None] when one of them returns or
    raises another exception. *)
Fixpoint all_time_out {B E : Type} (br : browser B E) (selectors : list string)
    (b : B) : option B :=
  match selectors with
  | [] => Some b
  | selector :: rest =>
      match br_wait_for_selector br selector b with
      | (Failure e, b') =>
          if is_PlaywrightTimeout br e then all_time_out br rest b' else None
      | (Success _, _) => None
      end
  end.

(** A page for examples on which the first two candidate selectors time
    out and the third is found; its state counts the waits. *)
Definition slow_page : browser nat bool :=
  mkBrowser nat bool
    (fun b => (Success tt, b))
    (fun b => (Success tt, b))
    (fun _ b => (Success tt, b))
    (fun selector b =>
       (if String.eqb selector ".product-item" then Success tt else Failure true, S b))
    (fun _ b => (Success tt, b))
    (fun b => (Success 0%Z, b))
    (fun b => (Success tt, b))
    (fun _ b => (Success [], b))
    (fun _ b => (Success tt, b))
    (fun b => (Success tt, b))
    (fun _ => true)
    (fun e => e).


(** * Theorems *)

(** ** Persistence writer *)

Lemma dedup_loop_spec (rest : list product) :
  forall seen acc,
  exists kept,
    snd (dedup_loop rest seen acc) = acc ++ kept
    /\ kept `sublist_of` rest
    /\ forall k, filter (fun p => dedup_key p = k) kept =
                 if decide (k ∈ seen) then []
                 else take 1 (filter (fun p => dedup_key p = k) rest).
Proof.
  induction rest as [|p rest IH]; intros seen acc; simpl.
  - exists []. rewrite app_nil_r. repeat split; [done|].
    intros k. by destruct (decide (k ∈ seen)).
  - destruct (decide (dedup_key p ∈ seen)) as [Hin|Hnin].
    + destruct (IH seen acc) as (kept & Heq & Hsub & Hf).
      exists kept. split; [done|]. split; [by apply sublist_cons|].
      intros k. rewrite Hf. destruct (decide (k ∈ seen)) as [Hk|Hk]; [done|].
      rewrite filter_cons_False; [done|].
      intros Hkey. apply Hk. by rewrite <- Hkey.
    + destruct (IH ({[dedup_key p]} ∪ seen) (acc ++ [p])) as (kept & Heq & Hsub & Hf).
      exists (p :: kept). split; [by rewrite Heq, <- app_assoc|].
      split; [by apply sublist_skip|].
      intros k. specialize (Hf k).
      destruct (decide (k = dedup_key p)) as [->|Hne].
      * assert (dedup_key p ∈ ({[dedup_key p]} ∪ seen : gset _)) as Hnow
          by (apply elem_of_union_l, elem_of_singleton; reflexivity).
        rewrite decide_True in Hf by exact Hnow.
        rewrite !filter_cons_True by done. rewrite Hf.
        by rewrite decide_False by done.
      * rewrite !filter_cons_False by done.
        rewrite Hf. destruct (decide (k ∈ seen)) as [Hk|Hk].
        -- rewrite decide_True; [done|]. by apply elem_of_union_r.
        -- rewrite decide_False; [done|].
           intros [Hk'%elem_of_singleton|Hk']%elem_of_union; done.
Qed.

Lemma first_with_key_lt (l : list product) (i : nat) :
  first_with_key l i -> i < length l.
Proof. intros (p & Hp & _). by apply lookup_lt_Some in Hp. Qed.

Lemma first_with_key_app (l rest : list product) (i : nat) :
  i < length l -> first_with_key (l ++ rest) i <-> first_with_key l i.
Proof.
  intros Hi. split; intros (p & Hp & Hfirst); exists p.
  - rewrite lookup_app_l in Hp by done. split; [done|].
    intros j q Hj Hq. apply (Hfirst j q Hj). by apply lookup_app_l_Some.
  - split; [by apply lookup_app_l_Some|].
    intros j q Hj Hq. apply (Hfirst j q Hj).
    by rewrite lookup_app_l in Hq by lia.
Qed.

(** The loop of [save_to_csv] after the records [pre], with the pairs seen
    in them, the records [acc] kept of them and the positions [pos] these
    stand at: it keeps the records at the positions of first occurrence. *)
Lemma dedup_loop_positions (rest : list product) :
  forall (pre : list product) (seen : gset (string * string))
         (acc : list product) (pos : list nat),
  (forall k, k ∈ seen <-> k ∈ map dedup_key pre) ->
  StronglySorted lt pos ->
  (forall i, i ∈ pos <-> first_with_key pre i) ->
  Forall2 (fun i p => pre !! i = Some p) pos acc ->
  exists pos',
    StronglySorted lt pos'
    /\ (forall i, i ∈ pos' <-> first_with_key (pre ++ rest) i)
    /\ Forall2 (fun i p => (pre ++ rest) !! i = Some p) pos'
               (snd (dedup_loop rest seen acc)).
Proof.
  induction rest as [|p rest IH]; intros pre seen acc pos Hseen Hsorted Hpos Hacc.
  { exists pos. rewrite app_nil_r. done. }
  assert (forall i, i ∈ pos -> i < length pre) as Hbound
    by (intros i Hi; by apply first_with_key_lt, Hpos).
  replace (pre ++ p :: rest) with ((pre ++ [p]) ++ rest) by (by rewrite <- app_assoc).
  cbn [dedup_loop].
  destruct (decide (dedup_key p ∈ seen)) as [Hin|Hnin].
  - apply (IH (pre ++ [p]) seen acc pos); [|done| |].
    + intros k. rewrite Hseen, map_app, elem_of_app. split; [by left|].
      intros [?|Hk%list_elem_of_singleton]; [done|]. subst k. by apply Hseen.
    + intros i. split.
      * intros Hi. apply first_with_key_app; [by apply Hbound|by apply Hpos].
      * intros Hfirst. apply Hpos.
        destruct (decide (i < length pre)) as [Hlt|Hge];
          [by apply (first_with_key_app pre [p])|].
        exfalso. destruct Hfirst as (q & Hq & Hfirst).
        assert (i = length pre) as ->.
        { apply lookup_lt_Some in Hq. rewrite length_app in Hq. simpl in Hq. lia. }
        rewrite list_lookup_middle in Hq by done. injection Hq as <-.
        apply Hseen, list_elem_of_fmap in Hin as (q & Hkey & Hq).
        apply list_elem_of_lookup in Hq as [j Hj].
        apply (Hfirst j q); [by apply lookup_lt_Some in Hj|
                             by apply lookup_app_l_Some|].
        unfold dedup_key in Hkey. by rewrite Hkey.
    + eapply Forall2_impl; [exact Hacc|]. intros i q Hq. by apply lookup_app_l_Some.
  - apply (IH (pre ++ [p]) ({[dedup_key p]} ∪ seen) (acc ++ [p]) (pos ++ [length pre])).
    + intros k. rewrite map_app, elem_of_app, elem_of_union, elem_of_singleton.
      simpl. rewrite list_elem_of_singleton, Hseen. tauto.
    + apply StronglySorted_app_2; [|done|by repeat constructor].
      intros i j Hi ->%list_elem_of_singleton. by apply Hbound.
    + intros i. rewrite elem_of_app, list_elem_of_singleton. split.
      * intros [Hi| ->].
        -- apply first_with_key_app; [by apply Hbound|by apply Hpos].
        -- exists p. split; [by apply list_lookup_middle|].
           intros j q Hj Hq Hkey. rewrite lookup_app_l in Hq by done.
           apply Hnin, Hseen, list_elem_of_fmap. exists q.
           split; [unfold dedup_key; by rewrite Hkey|].
           by apply list_elem_of_lookup_2 in Hq.
      * intros Hfirst.
        destruct (decide (i < length pre)) as [Hlt|Hge].
        -- left. by apply Hpos, (first_with_key_app pre [p]).
        -- right. apply first_with_key_lt in Hfirst.
           rewrite length_app in Hfirst. simpl in Hfirst. lia.
    + apply Forall2_app.
      * eapply Forall2_impl; [exact Hacc|]. intros i q Hq. by apply lookup_app_l_Some.
      * repeat constructor. by apply list_lookup_middle.
Qed.

(** C6, as the code has it.  For a list that is not empty, the rows that
    [save_to_csv] writes after the header are those of the records at the
    positions where a (title, product_url) pair occurs for the first time,
    in the order of these positions; the log reports the input length
    minus the number of these records as the number removed, then how many
    were saved. *)
Theorem save_to_csv_dedup `{FileSystem} (products_data : list product)
    (filename : string) (w : world) :
  products_data <> [] ->
  let w' := save_to_csv products_data filename w in
  exists (positions : list nat) (unique : list product),
    StronglySorted lt positions
    /\ (forall i, i ∈ positions <->
          exists p, products_data !! i = Some p
            /\ forall j q, j < i -> products_data !! j = Some q ->
                 (title q, product_url q) <> (title p, product_url p))
    /\ Forall2 (fun i p => products_data !! i = Some p) positions unique
    /\ files w' !! realpath filename = Some (CsvFile (fieldnames :: map row_of unique))
    /\ log w' = log w
         ++ [InfoRemoved (Z.of_nat (length products_data) - Z.of_nat (length unique));
             InfoSaved (length unique) filename; InfoFirstRows]
         ++ map InfoProduct (take 5 unique).
Proof.
  intros Hne w'.
  destruct (dedup_loop_positions products_data [] ∅ [] [])
    as (positions & Hsorted & Hpos & Hkept).
  - intros k. split; [intros Hk; by apply not_elem_of_empty in Hk|].
    intros Hk. by apply elem_of_nil in Hk.
  - constructor.
  - intros i. split; [intros Hi; by apply elem_of_nil in Hi|].
    intros Hfirst. apply first_with_key_lt in Hfirst. simpl in Hfirst. lia.
  - constructor.
  - exists positions, (unique_products_of products_data).
    split; [exact Hsorted|]. split; [exact Hpos|]. split; [exact Hkept|].
    subst w'. unfold save_to_csv. destruct products_data as [|p l]; [done|].
    cbn [files log]. split; [by rewrite lookup_insert_eq|done].
Qed.

(** The example of C6: of two records with title A and URL u1 and one with
    title B and URL u2, whatever their other fields, the first and the
    third are written, and one duplicate is reported.  A record with title
    A and another URL after them is written as well. *)
Lemma save_to_csv_dedup_example :
  let a1 := mkProduct "A" "brand 1" "image 1" "u1" in
  let a2 := mkProduct "A" "brand 2" "image 2" "u1" in
  let b := mkProduct "B" "brand 3" "image 3" "u2" in
  let a3 := mkProduct "A" "brand 1" "image 1" "u3" in
  let w' := @save_to_csv flat_directory [a1; a2; b] "shopmy_products.csv" (mkWorld ∅ []) in
  let w'' := @save_to_csv flat_directory [a1; a2; b; a3; b] "shopmy_products.csv"
               (mkWorld ∅ []) in
  [a1; a2; b] <> []
  /\ files w' !! "shopmy_products.csv"
     = Some (CsvFile [fieldnames; row_of a1; row_of b])
  /\ log w' = [InfoRemoved 1; InfoSaved 2 "shopmy_products.csv"; InfoFirstRows;
               InfoProduct a1; InfoProduct b]
  /\ files w'' !! "shopmy_products.csv"
     = Some (CsvFile [fieldnames; row_of a1; row_of b; row_of a3])
  /\ exists positions unique,
       StronglySorted lt positions
       /\ Forall2 (fun i p => [a1; a2; b] !! i = Some p) positions unique
       /\ files w' !! "shopmy_products.csv"
          = Some (CsvFile (fieldnames :: map row_of unique)).
Proof.
  intros a1 a2 b a3 w' w''.
  assert ([a1; a2; b] <> []) as Hne by done.
  split; [done|]. split; [vm_compute; reflexivity|].
  split; [vm_compute; reflexivity|]. split; [vm_compute; reflexivity|].
  destruct (@save_to_csv_dedup flat_directory [a1; a2; b] "shopmy_products.csv"
              (mkWorld ∅ []) Hne)
    as (positions & unique & Hsorted & _ & Hkept & Hfile & _).
  by exists positions, unique.
Defined.

(** C6 as stated fails on the empty list: [save_to_csv] returns before it
    deduplicates, so no number of removed duplicates is reported; the
    warning is all it logs. *)
Lemma save_to_csv_reports_nothing_when_empty :
  let w' := @save_to_csv flat_directory [] "shopmy_products.csv" (mkWorld ∅ []) in
  log w' = [WarningNoProducts]
  /\ ~ In (InfoRemoved 0) (log w')
  /\ files w' = ∅.
Proof.
  intros w'. split; [reflexivity|]. split; [|reflexivity].
  intros [Hin|[]]. discriminate.
Qed.

(** C7. With no records, [save_to_csv] leaves every file as it is and logs
    the warning, nothing else. *)
Theorem save_to_csv_empty `{FileSystem} (filename : string) (w : world) :
  files (save_to_csv [] filename w) = files w
  /\ log (save_to_csv [] filename w) = log w ++ [WarningNoProducts].
Proof. split; reflexivity. Qed.

(** ** Retry with backoff *)

Section RetrySpec.
Context {W V E : Type}.
Variable func : W -> call_result V E * W.
Variable is_Exception : E -> bool.

(** C8, as the code has it. [retry_with_backoff(func)] calls [func] at
    least once and at most three times.  A sleep stands between two
    consecutive calls and nowhere else: 1 second after a first failure, 2
    seconds after a second one, and none after the third (there is no delay
    of 4 seconds).  Every call before the last one raised an [Exception];
    the run ends with the first success, whose value it returns, or with
    an exception that propagates: the third one, or one that
    [except Exception] does not catch. *)
Theorem retry_with_backoff_bounded (w : W) :
  let '(res, w', trace) := retry_with_backoff func is_Exception w in
  let n := calls trace in
  1 <= n <= 3
  /\ (trace = [Call]
      \/ trace = [Call; InfoRetry 1 1; Sleep 1; Call]
      \/ trace = [Call; InfoRetry 1 1; Sleep 1; Call; InfoRetry 2 2; Sleep 2; Call])
  /\ sleeps trace = take (n - 1) [1; 2]%Z
  /\ w' = state_after func n w
  /\ (forall i, i < n - 1 ->
        exists e, outcome_at func i w = Failure e /\ is_Exception e = true)
  /\ match res with
     | Returns v => outcome_at func (n - 1) w = Success v
     | Propagates e =>
         outcome_at func (n - 1) w = Failure e
         /\ (is_Exception e = false \/ n = 3)
     | ReturnsNone => False
     end.
Proof.
  unfold retry_with_backoff, retry_with_backoff_with, outcome_at, calls, sleeps.
  change (Z.to_nat 3) with 3. simpl.
  destruct (func w) as [r1 w1] eqn:H1.
  assert (forall i, i < 1 - 1 -> exists e : E,
             fst (func (state_after func i w)) = Failure e /\ is_Exception e = true)
    as Hnone by (intros i Hi; lia).
  destruct r1 as [v1|e1]; simpl.
  { rewrite H1. split; [lia|]. split; [by left|]. done. }
  destruct (is_Exception e1) eqn:Hx1; simpl.
  2:{ rewrite H1. split; [lia|]. split; [by left|].
      repeat split; try done. by left. }
  destruct (func w1) as [r2 w2] eqn:H2.
  assert (forall i, i < 2 - 1 -> exists e : E,
             fst (func (state_after func i w)) = Failure e /\ is_Exception e = true)
    as Hone.
  { intros i Hi. assert (i = 0) as -> by lia. simpl. rewrite H1. eauto. }
  destruct r2 as [v2|e2]; simpl.
  { rewrite H1. simpl. rewrite H2. split; [lia|]. split; [by right; left|]. done. }
  destruct (is_Exception e2) eqn:Hx2; simpl.
  2:{ rewrite H1. simpl. rewrite H2. split; [lia|]. split; [by right; left|].
      repeat split; try done. by left. }
  destruct (func w2) as [r3 w3] eqn:H3.
  assert (forall i, i < 3 - 1 -> exists e : E,
             fst (func (state_after func i w)) = Failure e /\ is_Exception e = true)
    as Htwo.
  { intros i Hi. destruct i as [|[|i]]; simpl; [| |lia].
    - rewrite H1. eauto.
    - rewrite H1. simpl. rewrite H2. eauto. }
  destruct r3 as [v3|e3]; simpl.
  { rewrite H1. simpl. rewrite H2. simpl. rewrite H3.
    split; [lia|]. split; [by right; right|]. done. }
  destruct (is_Exception e3) eqn:Hx3; simpl;
    rewrite H1; simpl; rewrite H2; simpl; rewrite H3;
    (split; [lia|]); (split; [by right; right|]);
    repeat split; try done; by auto.
Qed.

(** The clock does not matter to [retry_with_backoff(func)] as long as it
    lets 1 and 2 seconds pass. *)
Lemma retry_with_backoff_any_clock (clock : Clock E) (w : W) :
  @time_sleep E clock 1 = None -> @time_sleep E clock 2 = None ->
  @retry_with_backoff_with W V E clock func is_Exception 3 1 w
  = retry_with_backoff func is_Exception w.
Proof.
  intros Hone Htwo.
  unfold retry_with_backoff, retry_with_backoff_with.
  change (Z.to_nat 3) with 3. simpl.
  destruct (func w) as [[v1|e1] w1]; [done|].
  destruct (is_Exception e1); [|done].
  change (1 * 2 ^ 0)%Z with 1%Z. change (1 * 2 ^ (0 + 1))%Z with 2%Z.
  rewrite Hone.
  destruct (func w1) as [[v2|e2] w2]; [done|].
  destruct (is_Exception e2); [|done].
  by rewrite Htwo.
Qed.
End RetrySpec.

(** A run of C8 in which every attempt fails: three calls, and the delays
    slept are 1 and 2 seconds; the claim's third delay, 4 seconds, is not
    among them. *)
Lemma retry_with_backoff_sleeps_twice :
  let run := retry_with_backoff
               (fun w : nat => (Failure (V := unit) w, S w)) (fun _ => true) 0 in
  calls (snd run) = 3
  /\ sleeps (snd run) = [1; 2]%Z
  /\ sleeps (snd run) <> [1; 2; 4]%Z
  /\ fst (fst run) = Propagates 2.
Proof. vm_compute. repeat split; congruence. Qed.

(** ** Brand inferencer *)





Lemma name_loop_some_in `{UnicodeCase} (title : string) (values : list string)
    (name : string) :
  name_loop title values = Some name ->
  In name values /\ contains (str_lower name) (str_lower title) = true.
Proof.
  induction values as [|n values IH]; simpl; [done|].
  destruct (contains (str_lower n) (str_lower title)) eqn:Hc.
  - intros [= <-]. split; [by left|done].
  - intros Hsome. destruct (IH Hsome) as [Hin Hhit]. split; [by right|done].
Qed.

Lemma split_char_head (c : ascii) (s a b : string) :
  split_once c s = Some (a, b) -> List.hd EmptyString (split_char c s) = a.
Proof.
  revert a b. induction s as [|d s IH]; intros a b; simpl; [done|].
  destruct (Ascii.eqb c d).
  - by intros [= <- _].
  - destruct (split_once c s) as [[a' b']|]; [|done].
    intros [= <- _]. specialize (IH a' b' eq_refl).
    destruct (split_char c s) as [|x xs]; simpl in *; by subst.
Qed.

Lemma has_char_split_once (c : ascii) (s : string) :
  has_char c s = true <-> exists a b, split_once c s = Some (a, b).
Proof.
  induction s as [|d s IH]; simpl.
  - split; [done|]. by intros (a & b & ?).
  - destruct (Ascii.eqb c d); simpl.
    + split; [eauto|done].
    + rewrite IH. split.
      * intros (a & b & ->). eauto.
      * intros (a & b & Heq). destruct (split_once c s) as [[a' b']|]; [eauto|done].
Qed.





(** C10. A slug matches anywhere inside the network location: the host
    [singapore.example.com] has no label [gap], yet it contains the text
    [gap], and brand inference answers [Gap] whatever the title. *)
Theorem brand_slug_matches_inside_word `{HostChecks} `{UnicodeCase} (title : string) :
  (exists parsed, urlparse "https://singapore.example.com/shoes" = Ok parsed
                  /\ netloc parsed = "singapore.example.com")
  /\ ~ In "gap" (split_char "." "singapore.example.com")
  /\ contains "gap" "singapore.example.com" = true
  /\ extract_brand_from_url_and_title "https://singapore.example.com/shoes" title
     = Ok "Gap".
Proof.
  split; [|split; [|split]].
  - eexists. split; vm_compute; reflexivity.
  - vm_compute. intros [Heq|[Heq|[Heq|[]]]]; discriminate.
  - vm_compute. reflexivity.
  - vm_compute. reflexivity.
Qed.

(** ** URL canonicaliser: concrete inputs *)

(** C2. The end-to-end example: the wrapper is removed, the target is
    decoded, [utm_source] is dropped and [variant=red] is kept. *)
Theorem clean_url_shopmy_example `{HostChecks} :
  clean_url "https://api.shopmy.us/api/redirect_click?url=https%3A%2F%2Fstore.example.com%2Fitem%3Fvariant%3Dred%26utm_source%3Dig"
  = "https://store.example.com/item?variant=red".
Proof. vm_compute. reflexivity. Qed.

(** C4 on the code. When [urlparse] raises at line 41, the handler returns
    what the variable [url] holds by then: the decoded text, or the decoded
    target of the wrapper, and not the text that was passed in. *)
Theorem clean_url_handler_returns_rebound_url `{HostChecks} :
  clean_url_try "http://[::1/item%20one" = Caught "http://[::1/item one"
  /\ clean_url "http://[::1/item%20one" = "http://[::1/item one"
  /\ clean_url "https://api.shopmy.us/api/redirect_click?url=http%3A%2F%2F%5B%3A%3A1%2Fitem"
     = "http://[::1/item".
Proof. repeat split; vm_compute; reflexivity. Qed.

(** ** Query dictionaries *)

Lemma dict_add_keys (k v : string) (d : qs_dict) :
  map fst (dict_add k v d) =
  if decide (k ∈ map fst d) then map fst d else map fst d ++ [k].
Proof.
  induction d as [|[k' [v0 vs]] d IH].
  - destruct (decide (k ∈ map fst [])) as [Hin|_]; [by apply elem_of_nil in Hin|done].
  - cbn [dict_add map fst].
    destruct (String.eqb_spec k k') as [->|Hne]; cbn [map fst].
    + destruct (decide (k' ∈ k' :: map fst d)) as [_|Hnin]; [done|].
      exfalso. apply Hnin. by left.
    + rewrite IH.
      destruct (decide (k ∈ map fst d)) as [Hin|Hnin];
        destruct (decide (k ∈ k' :: map fst d)) as [Hin'|Hnin']; try done.
      * exfalso. apply Hnin'. by right.
      * apply elem_of_cons in Hin' as [?|?]; done.
Qed.

Lemma parse_qs_fold_keys (pairs : list (string * string)) :
  forall d : qs_dict,
  map fst (fold_left (fun d nv => dict_add (fst nv) (snd nv) d) pairs d) =
  map fst d ++ filter (fun k => k ∉ map fst d) (first_occurrences (map fst pairs)).
Proof.
  induction pairs as [|[k v] pairs IH]; intros d; simpl.
  - by rewrite app_nil_r.
  - rewrite IH, dict_add_keys.
    destruct (decide (k ∈ map fst d)) as [Hin|Hnin].
    + rewrite filter_cons_False by (intros Hk; by apply Hk).
      f_equal. rewrite list_filter_filter. apply list_filter_iff.
      intros x. split; [|tauto]. intros Hx. split; [done|]. by intros ->.
    + rewrite filter_cons_True by done.
      rewrite <- app_assoc. simpl. do 2 f_equal.
      rewrite list_filter_filter. apply list_filter_iff.
      intros x. rewrite elem_of_app, list_elem_of_singleton. tauto.
Qed.

Lemma first_occurrences_NoDup (l : list string) : NoDup (first_occurrences l).
Proof.
  induction l as [|x l IH]; simpl; [constructor|].
  constructor.
  - intros [Hne _]%list_elem_of_filter. done.
  - by apply NoDup_filter.
Qed.

Lemma first_occurrences_elem (l : list string) (x : string) :
  x ∈ first_occurrences l <-> x ∈ l.
Proof.
  induction l as [|y l IH]; simpl; [done|].
  rewrite !elem_of_cons, list_elem_of_filter, IH.
  destruct (decide (x = y)); tauto.
Qed.

Lemma filter_all {A : Type} (P : A -> Prop) `{forall x, Decision (P x)} (l : list A) :
  (forall x, x ∈ l -> P x) -> filter P l = l.
Proof.
  induction l as [|x l IH]; intros Hall; [done|].
  rewrite filter_cons_True by (apply Hall; by left).
  f_equal. apply IH. intros y Hy. apply Hall. by right.
Qed.

Lemma parse_qs_keys (qs : string) :
  map fst (parse_qs qs) = first_occurrences (query_keys qs).
Proof.
  unfold parse_qs, query_keys. rewrite parse_qs_fold_keys. simpl.
  apply filter_all. intros x _. by intros ?%elem_of_nil.
Qed.

Lemma dict_add_first (name k v : string) (d : qs_dict) :
  dict_first name (dict_add k v d) =
  match dict_first name d with
  | Some x => Some x
  | None => if String.eqb name k then Some v else None
  end.
Proof.
  induction d as [|[k' [v0 vs]] d IH]; simpl; [done|].
  destruct (String.eqb_spec k k') as [->|Hk]; simpl.
  - destruct (String.eqb_spec name k') as [->|Hn]; [done|].
    by destruct (dict_first name d).
  - destruct (String.eqb_spec name k') as [->|Hn]; [done|]. exact IH.
Qed.

Lemma parse_qs_fold_first (name : string) (pairs : list (string * string)) :
  forall d : qs_dict,
  dict_first name (fold_left (fun d nv => dict_add (fst nv) (snd nv) d) pairs d) =
  match dict_first name d with
  | Some x => Some x
  | None => first_value name pairs
  end.
Proof.
  induction pairs as [|[k v] pairs IH]; intros d; simpl.
  - by destruct (dict_first name d).
  - rewrite IH, dict_add_first.
    destruct (dict_first name d); [done|].
    by destruct (String.eqb name k).
Qed.

Lemma parse_qs_first (name qs : string) :
  dict_first name (parse_qs qs) = first_value name (parse_qsl qs).
Proof. unfold parse_qs. by rewrite parse_qs_fold_first. Qed.

Lemma first_value_middle (k v : string) (before after : list (string * string)) :
  k ∉ map fst before ->
  first_value k (before ++ (k, v) :: after) = Some v.
Proof.
  induction before as [|[k' v'] before IH]; simpl; intros Hnin.
  - by rewrite String.eqb_refl.
  - destruct (String.eqb_spec k k') as [->|Hne].
    + exfalso. apply Hnin. by left.
    + apply IH. intros Hin. apply Hnin. by right.
Qed.

Lemma dict_first_elem (name v : string) (d : qs_dict) :
  dict_first name d = Some v -> exists vs, (name, (v, vs)) ∈ d.
Proof.
  induction d as [|[k [v0 vs]] d IH]; simpl; [done|].
  destruct (String.eqb_spec name k) as [->|Hne].
  - intros [= ->]. exists vs. by left.
  - intros Hd. destruct (IH Hd) as [vs' Hin]. exists vs'. by right.
Qed.

Lemma elem_dict_first (name v : string) (vs : list string) (d : qs_dict) :
  NoDup (map fst d) -> (name, (v, vs)) ∈ d -> dict_first name d = Some v.
Proof.
  induction d as [|[k [v0 vs0]] d IH]; simpl; intros Hnd Hin.
  - by apply elem_of_nil in Hin.
  - apply NoDup_cons in Hnd as [Hk Hnd].
    apply elem_of_cons in Hin as [[= -> -> ->]|Hin].
    + by rewrite String.eqb_refl.
    + destruct (String.eqb_spec name k) as [->|Hne]; [|by apply IH].
      exfalso. apply Hk. apply list_elem_of_fmap. by exists (k, (v, vs)).
Qed.

Lemma essential_params_keys (d : qs_dict) :
  map fst (essential_params d) = filter (fun k => is_essential k = true) (map fst d).
Proof.
  unfold essential_params.
  induction d as [|[k [v0 vs]] d IH]; simpl; [done|].
  destruct (is_essential k) eqn:Hk; simpl.
  - rewrite filter_cons_True by done. by f_equal.
  - rewrite filter_cons_False by (by rewrite Hk). exact IH.
Qed.

Lemma essential_params_elem (k v : string) (d : qs_dict) :
  (k, v) ∈ essential_params d <->
  is_essential k = true /\ exists vs, (k, (v, vs)) ∈ d.
Proof.
  unfold essential_params. rewrite list_elem_of_omap. split.
  - intros ([k' [v0 vs]] & Hin & Hsome). simpl in Hsome.
    destruct (is_essential k') eqn:Hk; [|done].
    injection Hsome as <- <-. split; [done|]. by exists vs.
  - intros (Hk & vs & Hin). exists (k, (v, vs)). split; [done|].
    simpl. by rewrite Hk.
Qed.

Lemma essential_params_NoDup (qs : string) :
  NoDup (map fst (essential_params (parse_qs qs))).
Proof.
  rewrite essential_params_keys, parse_qs_keys.
  apply NoDup_filter, first_occurrences_NoDup.
Qed.

(** ** Strings *)

Local Arguments Ascii.eqb : simpl never.

Lemma app_cons_s (c : ascii) (a b : string) : String c a +:+ b = String c (a +:+ b).
Proof. reflexivity. Qed.

Lemma app_nil_l_s (s : string) : "" +:+ s = s.
Proof. reflexivity. Qed.

Lemma app_nil_r_s (s : string) : s +:+ "" = s.
Proof. induction s as [|c s IH]; [done|]. by rewrite app_cons_s, IH. Qed.

Lemma app_assoc_s (a b c : string) : (a +:+ b) +:+ c = a +:+ (b +:+ c).
Proof. induction a as [|x a IH]; [done|]. by rewrite !app_cons_s, IH. Qed.

Lemma has_char_app (c : ascii) (a b : string) :
  has_char c (a +:+ b) = has_char c a || has_char c b.
Proof.
  induction a as [|x a IH]; [done|].
  rewrite app_cons_s. simpl. rewrite IH. by rewrite orb_assoc.
Qed.

Lemma all_chars_app (p : ascii -> bool) (a b : string) :
  all_chars p (a +:+ b) = all_chars p a && all_chars p b.
Proof.
  induction a as [|x a IH]; [done|].
  rewrite app_cons_s. simpl. rewrite IH. by rewrite andb_assoc.
Qed.

Lemma all_chars_impl (p q : ascii -> bool) (s : string) :
  (forall c, p c = true -> q c = true) ->
  all_chars p s = true -> all_chars q s = true.
Proof.
  intros Hpq. induction s as [|c s IH]; simpl; [done|].
  intros [Hc Hs]%andb_true_iff. rewrite (Hpq c Hc). by apply IH.
Qed.

Lemma all_chars_has_char (p : ascii -> bool) (c : ascii) (s : string) :
  all_chars p s = true -> p c = false -> has_char c s = false.
Proof.
  intros Hall Hc. induction s as [|d s IH]; simpl; [done|].
  simpl in Hall. apply andb_true_iff in Hall as [Hd Hs].
  rewrite (IH Hs), orb_false_r.
  destruct (Ascii.eqb_spec c d) as [->|]; [congruence|done].
Qed.

Lemma split_once_spec (c : ascii) (s a b : string) :
  split_once c s = Some (a, b) -> s = a +:+ String c b /\ has_char c a = false.
Proof.
  revert a b. induction s as [|d s IH]; intros a b; simpl; [done|].
  destruct (Ascii.eqb_spec c d) as [->|Hne].
  - by intros [= <- <-].
  - destruct (split_once c s) as [[a' b']|]; [|done].
    intros [= <- <-]. destruct (IH a' b' eq_refl) as [-> Ha].
    split; [done|]. simpl. rewrite Ha.
    by destruct (Ascii.eqb_spec c d).
Qed.

Lemma split_once_none (c : ascii) (s : string) :
  has_char c s = false -> split_once c s = None.
Proof.
  induction s as [|d s IH]; simpl; [done|].
  intros [Hd Hs]%orb_false_iff. by rewrite Hd, (IH Hs).
Qed.

Lemma split_once_hit (c : ascii) (a b : string) :
  has_char c a = false -> split_once c (a +:+ String c b) = Some (a, b).
Proof.
  induction a as [|d a IH]; simpl.
  - intros _. by rewrite Ascii.eqb_refl.
  - intros [Hd Ha]%orb_false_iff. by rewrite Hd, (IH Ha).
Qed.

Lemma split_char_hit (c : ascii) (a b : string) :
  has_char c a = false ->
  split_char c (a +:+ String c b) = a :: split_char c b.
Proof.
  induction a as [|d a IH]; simpl.
  - intros _. by rewrite Ascii.eqb_refl.
  - intros [Hd Ha]%orb_false_iff. by rewrite Hd, (IH Ha).
Qed.

Lemma split_char_none (c : ascii) (a : string) :
  has_char c a = false -> split_char c a = [a].
Proof.
  induction a as [|d a IH]; simpl; [done|].
  intros [Hd Ha]%orb_false_iff. by rewrite Hd, (IH Ha).
Qed.

Lemma unquote_plain (s : string) : has_char "%" s = false -> unquote s = s.
Proof. intros Hpct. unfold unquote. by rewrite Hpct. Qed.

Lemma replace_char_plain (a b : ascii) (s : string) :
  has_char a s = false -> replace_char a b s = s.
Proof.
  induction s as [|c s IH]; simpl; [done|].
  intros [Hc Hs]%orb_false_iff. by rewrite Hc, (IH Hs).
Qed.

Lemma unquote_to_bytes_nonempty (s : string) :
  s <> EmptyString -> unquote_to_bytes s <> EmptyString.
Proof.
  destruct s as [|c s]; [done|]. intros _. simpl.
  destruct (Ascii.eqb c "%"); [|done].
  destruct s as [|h1 [|h2 rest]]; try done.
  by destruct (hex_value h1), (hex_value h2).
Qed.

Lemma append_nonempty (a b : string) :
  a +:+ b = EmptyString -> a = EmptyString /\ b = EmptyString.
Proof. destruct a as [|c a]; [done|]. by rewrite app_cons_s. Qed.

Lemma decode_replace_nonempty (s : string) :
  s <> EmptyString -> decode_replace s <> EmptyString.
Proof.
  destruct s as [|c s]; [done|]. intros _ Hempty.
  cbn [decode_replace] in Hempty.
  repeat case_match; try discriminate;
    by apply append_nonempty in Hempty as [? _].
Qed.

Lemma unquote_runs_nonempty (s : string) :
  forall run, unquote_runs s run = EmptyString -> s = EmptyString /\ run = EmptyString.
Proof.
  induction s as [|c s IH]; intros run; cbn [unquote_runs].
  - intros Hempty. split; [done|].
    destruct run as [|d run]; [done|].
    exfalso. apply (decode_replace_nonempty (unquote_to_bytes (String d run)));
      [by apply unquote_to_bytes_nonempty|done].
  - destruct (is_ascii_char c).
    + intros [_ Hrun]%IH. by apply append_nonempty in Hrun as [_ ?].
    + by intros [_ ?]%append_nonempty.
Qed.

Lemma unquote_cons_nonempty (c : ascii) (s : string) :
  unquote (String c s) <> EmptyString.
Proof.
  unfold unquote. destruct (has_char "%" (String c s)); [|done].
  by intros [? _]%unquote_runs_nonempty.
Qed.

Lemma remove_chars_plain (drop : ascii -> bool) (s : string) :
  all_chars (fun c => negb (drop c)) s = true -> remove_chars drop s = s.
Proof.
  induction s as [|c s IH]; simpl; [done|].
  intros [Hc Hs]%andb_true_iff. apply negb_true_iff in Hc.
  by rewrite Hc, (IH Hs).
Qed.

Lemma remove_chars_free (drop : ascii -> bool) (s : string) :
  all_chars (fun c => negb (drop c)) (remove_chars drop s) = true.
Proof.
  induction s as [|c s IH]; simpl; [done|].
  destruct (drop c) eqn:Hc; [done|]. simpl. by rewrite Hc, IH.
Qed.

Lemma lower_char_alpha (c : ascii) :
  is_alpha (lower_char c) = true -> is_alpha c = true.
Proof.
  unfold lower_char, is_alpha. destruct (is_upper c) eqn:Hu; [done|].
  by rewrite Hu.
Qed.

Lemma lower_alpha (s : string) :
  all_chars is_alpha (lower s) = true -> all_chars is_alpha s = true.
Proof.
  induction s as [|c s IH]; simpl; [done|].
  intros [Hc Hs]%andb_true_iff. by rewrite (lower_char_alpha c Hc), (IH Hs).
Qed.

Lemma is_essential_alpha (k : string) :
  is_essential k = true -> all_chars is_alpha k = true.
Proof.
  unfold is_essential. simpl. intros Hk. apply lower_alpha.
  repeat (apply orb_true_iff in Hk as [Hk|Hk];
          [apply String.eqb_eq in Hk; by rewrite Hk|]).
  done.
Qed.

Lemma is_essential_plain (k : string) (c : ascii) :
  is_essential k = true -> is_alpha c = false -> has_char c k = false.
Proof.
  intros Hk Hc. apply (all_chars_has_char is_alpha); [|done].
  by apply is_essential_alpha.
Qed.

Lemma parse_qsl_fields (qs : string) :
  parse_qsl qs = omap parse_field (split_char "&" qs).
Proof. by destruct qs. Qed.

(** A field whose name is on the allow list is read back under that name,
    unless its value is empty. *)
Lemma parse_field_essential (k v : string) :
  is_essential k = true ->
  parse_field (k +:+ "=" +:+ v) =
  match v with
  | EmptyString => None
  | _ => Some (k, unquote (replace_char "+" " " v))
  end.
Proof.
  intros Hk. unfold parse_field.
  change (k +:+ "=" +:+ v) with (k +:+ String "=" v).
  rewrite split_once_hit by (by apply is_essential_plain).
  destruct v as [|c v]; [done|].
  rewrite replace_char_plain by (by apply is_essential_plain).
  by rewrite unquote_plain by (by apply is_essential_plain).
Qed.

(** ** URL canonicaliser: the query parameters that are kept *)

Lemma clean_url_returned `{HostChecks} (u u1 : string) (parsed : ParseResult) :
  unwrap_affiliate u = Ok u1 ->
  urlparse (unquote u1) = Ok parsed ->
  clean_url_try u = Returned (rebuild parsed) /\ clean_url u = rebuild parsed.
Proof.
  intros Hwrap Hparse. unfold clean_url, clean_url_try.
  by rewrite Hwrap, Hparse.
Qed.

(** C9, as the code has it. On a URL that parses, [parse_qsl] reads the
    fields [name=value] of the decoded query, leaving out those whose value
    is empty; of the pairs it yields for a key on the allow list, the value
    of the first one, and no other, is attached to the result. *)
Theorem clean_url_keeps_first_nonblank_value `{HostChecks}
    (u u1 : string) (parsed : ParseResult)
    (before after : list (string * string)) (k v : string) :
  unwrap_affiliate u = Ok u1 ->
  urlparse (unquote u1) = Ok parsed ->
  parse_qsl (query parsed) = before ++ (k, v) :: after ->
  ~ In k (map fst before) ->
  is_essential k = true ->
  let kept := essential_params (parse_qs (query parsed)) in
  parse_qsl (query parsed) = omap parse_field (split_char "&" (query parsed))
  /\ clean_url u = base_url parsed +:+ "?" +:+ param_str kept
  /\ In (k, v) kept
  /\ (forall v', In (k, v') kept -> v' = v)
  /\ NoDup (map fst kept).
Proof.
  intros Hwrap Hparse Hpairs Hfirst Hk kept.
  assert (dict_first k (parse_qs (query parsed)) = Some v) as Hv.
  { rewrite parse_qs_first, Hpairs. apply first_value_middle.
    by rewrite list_elem_of_In. }
  assert (NoDup (map fst (parse_qs (query parsed)))) as Hnd
    by (rewrite parse_qs_keys; apply first_occurrences_NoDup).
  assert ((k, v) ∈ kept) as Hin.
  { apply essential_params_elem. split; [done|]. by apply dict_first_elem. }
  split; [apply parse_qsl_fields|].
  split; [|split; [|split]].
  - destruct (clean_url_returned u u1 parsed Hwrap Hparse) as [_ ->].
    unfold rebuild. fold kept. destruct kept; [|done].
    by apply elem_of_nil in Hin.
  - by apply list_elem_of_In.
  - intros v' Hin'. apply list_elem_of_In, essential_params_elem in Hin'.
    destruct Hin' as (_ & vs & Hd).
    apply (elem_dict_first k v' vs _ Hnd) in Hd. congruence.
  - apply essential_params_NoDup.
Qed.

(** C9 at a URL whose first [variant] is blank: [blue], the value of the
    second field, is kept, and [green] is dropped. *)
Lemma clean_url_keeps_first_nonblank_value_example :
  let u := "https://store.example.com/item?variant=&variant=blue&variant=green" in
  let parsed := mkParse "https" "store.example.com" "/item" ""
                  "variant=&variant=blue&variant=green" "" in
  (@unwrap_affiliate any_host u = Ok u
   /\ @urlparse any_host (unquote u) = Ok parsed
   /\ parse_qsl (query parsed) = [] ++ ("variant", "blue") :: [("variant", "green")]
   /\ ~ In "variant" (map fst (@nil (string * string)))
   /\ is_essential "variant" = true)
  /\ @clean_url any_host u = "https://store.example.com/item?variant=blue".
Proof.
  intros u parsed.
  assert (@unwrap_affiliate any_host u = Ok u) as H1 by (vm_compute; reflexivity).
  assert (@urlparse any_host (unquote u) = Ok parsed) as H2
    by (vm_compute; reflexivity).
  assert (parse_qsl (query parsed) = [] ++ ("variant", "blue") :: [("variant", "green")])
    as H3 by (vm_compute; reflexivity).
  assert (~ In "variant" (map fst (@nil (string * string)))) as H4 by (simpl; tauto).
  assert (is_essential "variant" = true) as H5 by (vm_compute; reflexivity).
  split; [done|].
  destruct (@clean_url_keeps_first_nonblank_value any_host
              u u parsed [] [("variant", "green")] "variant" "blue" H1 H2 H3 H4 H5)
    as (_ & -> & _).
  vm_compute. reflexivity.
Defined.

(** C9 as stated fails where the first occurrence of the key is blank: the
    fields of the query are [variant=] and [variant=blue], and the result
    carries the value of the second. *)
Lemma clean_url_blank_first_occurrence :
  split_char "&" (query_string_of "https://store.example.com/item?variant=&variant=blue")
  = ["variant="; "variant=blue"]
  /\ @clean_url any_host "https://store.example.com/item?variant=&variant=blue"
     = "https://store.example.com/item?variant=blue".
Proof. split; vm_compute; reflexivity. Qed.

(** ** The parts of a parsed URL *)

Lemma before_cons (c d : ascii) (s : string) :
  before c (String d s) = if Ascii.eqb c d then EmptyString else String d (before c s).
Proof.
  unfold before. simpl. destruct (Ascii.eqb c d); [done|].
  by destruct (split_once c s) as [[a b]|].
Qed.

Lemma before_prefix (c : ascii) (s : string) : exists b, s = before c s +:+ b.
Proof.
  unfold before. destruct (split_once c s) as [[a b]|] eqn:Hs.
  - apply split_once_spec in Hs as [-> _]. eauto.
  - exists EmptyString. by rewrite app_nil_r_s.
Qed.

Lemma before_free (c : ascii) (s : string) : has_char c (before c s) = false.
Proof.
  induction s as [|d s IH]; [done|].
  rewrite before_cons. destruct (Ascii.eqb c d) eqn:Hd; [done|].
  simpl. by rewrite Hd, IH.
Qed.

Lemma has_char_prefix (c : ascii) (a b : string) :
  has_char c (a +:+ b) = false -> has_char c a = false.
Proof. rewrite has_char_app. by intros [? _]%orb_false_iff. Qed.

Lemma clean_app (a b : string) : clean (a +:+ b) <-> clean a /\ clean b.
Proof. unfold clean. rewrite all_chars_app. apply andb_true_iff. Qed.

Lemma clean_cons (c : ascii) (s : string) :
  clean (String c s) <-> is_unsafe_byte c = false /\ clean s.
Proof.
  unfold clean. simpl. rewrite andb_true_iff, negb_true_iff. tauto.
Qed.

Lemma clean_before (c : ascii) (s : string) : clean s -> clean (before c s).
Proof.
  intros Hs. destruct (before_prefix c s) as [b Hb]. rewrite Hb in Hs.
  by apply clean_app in Hs as [? _].
Qed.

Lemma rooted_before (c : ascii) (s : string) :
  c <> "/"%char -> rooted s -> rooted (before c s).
Proof.
  intros Hc [->|[p ->]]; [by left|].
  rewrite before_cons. destruct (Ascii.eqb_spec c "/") as [|_]; [done|].
  right. eauto.
Qed.

Lemma span_until_spec (stop : ascii -> bool) (s a b : string) :
  span_until stop s = (a, b) ->
  s = a +:+ b
  /\ all_chars (fun c => negb (stop c)) a = true
  /\ (b = EmptyString \/ exists c b', b = String c b' /\ stop c = true).
Proof.
  revert a b. induction s as [|d s IH]; intros a b; simpl.
  - intros [= <- <-]. repeat split. by left.
  - destruct (stop d) eqn:Hd.
    + intros [= <- <-]. repeat split. right. eauto.
    + destruct (span_until stop s) as [a' b'].
      intros [= <- <-]. destruct (IH a' b' eq_refl) as (-> & Ha & Hb).
      repeat split; [|done]. simpl. by rewrite Hd, Ha.
Qed.

Lemma strip_prefix_spec (p s r : string) :
  strip_prefix p s = Some r -> s = p +:+ r.
Proof.
  revert s. induction p as [|a p IH]; intros s; simpl.
  - by intros [= ->].
  - destruct s as [|b s]; [done|].
    destruct (Ascii.eqb_spec a b) as [->|]; [|done].
    intros Hr. by rewrite (IH s Hr).
Qed.

Lemma strip_prefix_app (p r : string) : strip_prefix p (p +:+ r) = Some r.
Proof.
  induction p as [|a p IH]; simpl; [done|]. by rewrite Ascii.eqb_refl.
Qed.

Lemma lower_char_facts (c : ascii) :
  (is_alpha c = true -> is_alpha (lower_char c) = true)
  /\ (is_scheme_char c = true -> is_scheme_char (lower_char c) = true)
  /\ lower_char (lower_char c) = lower_char c.
Proof.
  destruct c as [[] [] [] [] [] [] [] []]; vm_compute; repeat split; congruence.
Qed.

Lemma lower_scheme_chars (s : string) :
  all_chars is_scheme_char s = true -> all_chars is_scheme_char (lower s) = true.
Proof.
  induction s as [|c s IH]; simpl; [done|].
  intros [Hc Hs]%andb_true_iff.
  destruct (lower_char_facts c) as (_ & Hsc & _). by rewrite (Hsc Hc), (IH Hs).
Qed.

Lemma lower_lower (s : string) : lower (lower s) = lower s.
Proof.
  induction s as [|c s IH]; simpl; [done|].
  destruct (lower_char_facts c) as (_ & _ & ->). by rewrite IH.
Qed.

Lemma scheme_char_facts (c : ascii) :
  is_scheme_char c = true ->
  is_unsafe_byte c = false /\ is_netloc_end c = false
  /\ Ascii.eqb ":" c = false /\ Ascii.eqb "%" c = false /\ is_c0_or_space c = false.
Proof.
  destruct c as [[] [] [] [] [] [] [] []]; vm_compute; repeat split; congruence.
Qed.

Lemma split_scheme_shape (s sch rest : string) :
  split_scheme s = (sch, rest) ->
  scheme_ok sch
  /\ (clean s -> clean rest)
  /\ (sch = EmptyString -> rest = s).
Proof.
  unfold split_scheme.
  destruct (split_once ":" s) as [[[|c0 pre] r]|] eqn:Hsplit;
    try (intros [= <- <-]; split; [by left|done]).
  destruct (is_alpha c0 && all_chars is_scheme_char (String c0 pre)) eqn:Hok;
    [|intros [= <- <-]; split; [by left|done]].
  intros [= <- <-]. apply andb_true_iff in Hok as [Halpha Hchars].
  split; [|split; [|done]].
  - right. split; [|split].
    + simpl. eexists _, _. split; [done|].
      destruct (lower_char_facts c0) as (Ha & _). by apply Ha.
    + by apply (lower_scheme_chars (String c0 pre)).
    + apply (lower_lower (String c0 pre)).
  - intros Hs. apply split_once_spec in Hsplit as [-> _].
    apply clean_app in Hs as [_ Hs]. by apply clean_cons in Hs as [_ ?].
Qed.

Lemma split_fragment_query_path (sch net u : string) :
  let r := split_fragment_query sch net u in
  s_scheme r = sch /\ s_netloc r = net
  /\ s_path r = before "?" (before "#" u).
Proof.
  unfold split_fragment_query, before.
  destruct (split_once "#" u) as [[u1 f]|];
    [destruct (split_once "?" u1) as [[u2 q]|]
    |destruct (split_once "?" u) as [[u2 q]|]]; done.
Qed.

Lemma path_of_rest (u : string) :
  let pth := before "?" (before "#" u) in
  has_char "?" pth = false /\ has_char "#" pth = false
  /\ (clean u -> clean pth)
  /\ ((u = EmptyString \/ exists c u', u = String c u' /\ is_netloc_end c = true) ->
      rooted pth).
Proof.
  intros pth. split; [apply before_free|]. split; [|split].
  - subst pth. destruct (before_prefix "?" (before "#" u)) as [b Hb].
    pose proof (before_free "#" u) as Hfree. rewrite Hb in Hfree.
    by apply has_char_prefix in Hfree.
  - intros Hu. by apply clean_before, clean_before.
  - intros [->|(c & u' & -> & Hc)]; [by left|].
    subst pth. rewrite before_cons.
    destruct (Ascii.eqb_spec "#" c) as [<-|Hhash]; [by left|].
    rewrite before_cons.
    destruct (Ascii.eqb_spec "?" c) as [<-|Hq]; [by left|].
    right. unfold is_netloc_end in Hc.
    destruct (Ascii.eqb_spec c "/") as [->|Hs]; [eauto|].
    destruct (Ascii.eqb_spec c "?") as [->|]; [done|].
    destruct (Ascii.eqb_spec c "#") as [->|]; done.
Qed.

Lemma urlsplit_shape `{HostChecks} (x : string) (r : SplitResult) :
  urlsplit x = Ok r -> shape (s_scheme r) (s_netloc r) (s_path r).
Proof.
  unfold urlsplit.
  pose proof (remove_chars_free is_unsafe_byte (lstrip_chars is_c0_or_space x)) as Hclean.
  fold (clean (remove_chars is_unsafe_byte (lstrip_chars is_c0_or_space x))) in Hclean.
  destruct (split_scheme _) as [sch rest] eqn:Hscheme.
  apply split_scheme_shape in Hscheme as (Hsch & Hrest & _).
  specialize (Hrest Hclean).
  destruct (strip_prefix "//" rest) as [rest2|] eqn:Hpre.
  - apply strip_prefix_spec in Hpre. rewrite Hpre in Hrest.
    apply clean_app in Hrest as [_ Hrest].
    destruct (span_until is_netloc_end rest2) as [net u] eqn:Hspan.
    apply span_until_spec in Hspan as (-> & Hnet & Hu).
    apply clean_app in Hrest as [Hcn Hcu].
    destruct (check_brackets net); [|done].
    destruct (checknetloc net); [|done].
    intros [= <-].
    destruct (split_fragment_query_path sch net u) as (-> & -> & ->).
    destruct (path_of_rest u) as (Hq & Hh & Hc & Hr).
    repeat split; auto.
  - intros [= <-].
    destruct (split_fragment_query_path sch "" rest) as (-> & -> & ->).
    destruct (path_of_rest rest) as (Hq & Hh & Hc & _).
    repeat split; auto. done.
Qed.

Lemma urlsplit_checked `{HostChecks} (x : string) (r : SplitResult) :
  urlsplit x = Ok r -> checknetloc (s_netloc r) = Ok tt.
Proof.
  unfold urlsplit.
  destruct (split_scheme _) as [sch rest].
  destruct (strip_prefix "//" rest) as [rest2|].
  - destruct (span_until is_netloc_end rest2) as [net u].
    destruct (check_brackets net); [|done].
    destruct (checknetloc net) as [[]|] eqn:Hchecked; [|done].
    intros [= <-].
    by destruct (split_fragment_query_path sch net u) as (_ & -> & _).
  - intros [= <-].
    by destruct (split_fragment_query_path sch "" rest) as (_ & -> & _).
Qed.

Lemma rooted_prefix (a b : string) : rooted (a +:+ b) -> rooted a.
Proof.
  intros [Hempty|[p Hp]].
  - destruct a as [|c a]; [by left|done].
  - destruct a as [|c a]; [by left|].
    injection Hp as -> _. right. eauto.
Qed.

Lemma shape_prefix (sch net pth rest : string) :
  shape sch net (pth +:+ rest) -> shape sch net pth.
Proof.
  intros (Hs & Hn & Hq & Hh & Hr & Hcn & Hcp).
  repeat split; try done.
  - by apply has_char_prefix in Hq.
  - by apply has_char_prefix in Hh.
  - intros Hne. by apply (rooted_prefix pth rest), Hr.
  - by apply clean_app in Hcp as [? _].
Qed.

Lemma split_last_spec (c : ascii) (s a b : string) :
  split_last c s = Some (a, b) ->
  s = a +:+ b /\ exists b', b = String c b' /\ has_char c b' = false.
Proof.
  revert a b. induction s as [|d s IH]; intros a b; simpl; [done|].
  destruct (split_last c s) as [[a' b']|] eqn:Hl.
  - intros [= <- <-]. destruct (IH a' b' eq_refl) as (-> & Hb). done.
  - destruct (Ascii.eqb_spec c d) as [<-|]; [|done].
    intros [= <- <-]. split; [done|]. exists s. split; [done|].
    clear IH. induction s as [|e s IH]; [done|]. simpl in *.
    destruct (split_last c s) as [[a' b']|]; [done|].
    destruct (Ascii.eqb c e); [done|]. by rewrite IH.
Qed.

Lemma split_last_none (c : ascii) (s : string) :
  has_char c s = false -> split_last c s = None.
Proof.
  induction s as [|d s IH]; simpl; [done|].
  intros [Hd Hs]%orb_false_iff. by rewrite (IH Hs), Hd.
Qed.

Lemma split_last_hit (c : ascii) (a b : string) :
  has_char c b = false -> split_last c (a +:+ String c b) = Some (a, String c b).
Proof.
  intros Hb. induction a as [|d a IH]; simpl.
  - by rewrite (split_last_none c b Hb), Ascii.eqb_refl.
  - by rewrite IH.
Qed.

Lemma drop_last_prefix (s : string) : exists b, s = drop_last s +:+ b.
Proof.
  induction s as [|c s [b IH]]; [by exists EmptyString|].
  destruct s as [|d s]; [by exists (String c EmptyString)|].
  exists b. change (drop_last (String c (String d s)))
    with (String c (drop_last (String d s))).
  by rewrite app_cons_s, <- IH.
Qed.

Lemma splitparams_prefix (s : string) : exists b, s = fst (splitparams s) +:+ b.
Proof.
  unfold splitparams. destruct (has_char "/" s).
  - destruct (split_last "/" s) as [[dir seg]|] eqn:Hl;
      [|exists EmptyString; by rewrite app_nil_r_s].
    apply split_last_spec in Hl as (-> & _).
    destruct (split_once ";" seg) as [[a b]|] eqn:Hs;
      [|exists EmptyString; by rewrite app_nil_r_s].
    apply split_once_spec in Hs as [-> _]. simpl.
    exists (String ";" b). by rewrite app_assoc_s.
  - destruct (split_once ";" s) as [[a b]|] eqn:Hs.
    + apply split_once_spec in Hs as [-> _]. eauto.
    + apply drop_last_prefix.
Qed.

Lemma urlparse_inv `{HostChecks} (x : string) (p : ParseResult) :
  urlparse x = Ok p ->
  exists r, urlsplit x = Ok r
    /\ scheme p = s_scheme r /\ netloc p = s_netloc r /\ query p = s_query r
    /\ path p = (if existsb (String.eqb (s_scheme r)) uses_params
                    && has_char ";" (s_path r)
                 then fst (splitparams (s_path r)) else s_path r).
Proof.
  unfold urlparse. destruct (urlsplit x) as [r|]; [|done].
  intros Hp. exists r. split; [done|].
  destruct (existsb _ _ && has_char ";" (s_path r));
    [destruct (splitparams (s_path r))|]; by injection Hp as <-.
Qed.

Lemma urlparse_shape `{HostChecks} (x : string) (p : ParseResult) :
  urlparse x = Ok p -> shape (scheme p) (netloc p) (path p).
Proof.
  intros (r & Hr & -> & -> & _ & ->)%urlparse_inv.
  apply urlsplit_shape in Hr.
  destruct (existsb _ _ && has_char ";" (s_path r)); [|done].
  destruct (splitparams_prefix (s_path r)) as [b Hb].
  rewrite Hb in Hr. by apply shape_prefix in Hr.
Qed.

Lemma scheme_ok_chars (sch : string) :
  scheme_ok sch -> all_chars is_scheme_char sch = true.
Proof. by intros [->|(_ & ? & _)]. Qed.

(** No [?] and no [#] in scheme, network location and path: the query
    string of what [rebuild] returns is the text it attaches. *)
Lemma base_url_free (p : ParseResult) :
  shape (scheme p) (netloc p) (path p) ->
  has_char "?" (base_url p) = false /\ has_char "#" (base_url p) = false.
Proof.
  intros (Hs & Hn & Hq & Hh & _). apply scheme_ok_chars in Hs.
  unfold base_url. rewrite !has_char_app, Hq, Hh.
  rewrite !(all_chars_has_char _ _ _ Hs) by done.
  by rewrite !(all_chars_has_char _ _ _ Hn) by done.
Qed.

Lemma split_once_miss (c : ascii) (a b : string) :
  has_char c a = false ->
  split_once c (a +:+ b) =
  match split_once c b with
  | Some (x, y) => Some (a +:+ x, y)
  | None => None
  end.
Proof.
  induction a as [|d a IH]; simpl.
  - intros _. change ("" +:+ b) with b.
    destruct (split_once c b) as [[x y]|]; reflexivity.
  - intros [Hd Ha]%orb_false_iff. rewrite Hd, (IH Ha).
    destruct (split_once c b) as [[x y]|]; reflexivity.
Qed.

Lemma before_miss (c : ascii) (a b : string) :
  has_char c a = false -> before c (a +:+ b) = a +:+ before c b.
Proof.
  intros Ha. unfold before. rewrite (split_once_miss c a b Ha).
  by destruct (split_once c b) as [[x y]|].
Qed.

Lemma before_hit (c : ascii) (a b : string) :
  has_char c a = true -> before c (a +:+ b) = before c a.
Proof.
  induction a as [|d a IH]; simpl; [done|].
  rewrite app_cons_s, !before_cons. destruct (Ascii.eqb c d); [done|].
  simpl. intros Ha. by rewrite (IH Ha).
Qed.

Lemma query_string_of_base (b : string) :
  has_char "?" b = false -> has_char "#" b = false ->
  query_string_of b = EmptyString.
Proof.
  intros Hq Hh. unfold query_string_of.
  by rewrite (split_once_none _ _ Hh), (split_once_none _ _ Hq).
Qed.

Lemma query_string_of_attached (b ps : string) :
  has_char "?" b = false -> has_char "#" b = false ->
  query_string_of (b +:+ "?" +:+ ps) = before "#" ps.
Proof.
  intros Hq Hh. unfold query_string_of.
  change (b +:+ "?" +:+ ps) with (b +:+ String "?" ps).
  fold (before "#" (b +:+ String "?" ps)).
  rewrite (before_miss _ _ _ Hh), before_cons.
  change (Ascii.eqb "#" "?") with false. cbv iota.
  by rewrite (split_once_hit _ _ _ Hq).
Qed.

(** ** The result read again *)

Lemma has_char_before (c d : ascii) (s : string) :
  has_char d s = false -> has_char d (before c s) = false.
Proof.
  intros Hs. destruct (before_prefix c s) as [b Hb]. rewrite Hb in Hs.
  by apply has_char_prefix in Hs.
Qed.

Lemma field_keys (k v : string) :
  is_essential k = true -> has_char "&" v = false ->
  before "#" (field (k, v)) = field (k, before "#" v)
  /\ has_char "&" (field (k, before "#" v)) = false
  /\ forall k', k' ∈ map fst (omap parse_field [field (k, before "#" v)]) -> k' = k.
Proof.
  intros Hk Hv. unfold field. simpl. split; [|split].
  - rewrite before_miss by (by apply is_essential_plain).
    change ("=" +:+ v) with (String "=" v). by rewrite before_cons.
  - rewrite !has_char_app, (is_essential_plain k "&" Hk) by done.
    by rewrite (has_char_before "#" "&" v Hv).
  - intros k'. simpl. rewrite (parse_field_essential k _ Hk).
    destruct (before "#" v); simpl.
    + by intros ?%elem_of_nil.
    + by intros ->%list_elem_of_singleton.
Qed.

(** Reading the attached text again, up to a fragment sign, shows no key
    that was not attached, provided no attached value holds a [&]. *)
Lemma requery_keys (kept : list (string * string)) :
  (forall k v, (k, v) ∈ kept -> is_essential k = true /\ has_char "&" v = false) ->
  forall k, k ∈ query_keys (before "#" (param_str kept)) -> k ∈ map fst kept.
Proof.
  unfold query_keys, param_str.
  induction kept as [|[k v] kept IH]; intros Hall k'.
  - by rewrite parse_qsl_fields.
  - destruct (Hall k v) as [Hk Hv]; [by left|].
    destruct (field_keys k v Hk Hv) as (Hcut & Hamp & Hkeys).
    assert (has_char "&" (field (k, v)) = false) as Hamp'.
    { unfold field. simpl. rewrite !has_char_app, Hv.
      by rewrite (is_essential_plain k "&" Hk). }
    rewrite parse_qsl_fields.
    destruct kept as [|kv kept].
    + simpl. rewrite Hcut, (split_char_none _ _ Hamp).
      intros ->%Hkeys. by left.
    + change (join "&" (map field ((k, v) :: kv :: kept)))
        with (field (k, v) +:+ "&" +:+ join "&" (map field (kv :: kept))).
      destruct (has_char "#" (field (k, v))) eqn:Hhash.
      * rewrite (before_hit _ _ _ Hhash), Hcut, (split_char_none _ _ Hamp).
        intros ->%Hkeys. by left.
      * rewrite (before_miss _ _ _ Hhash).
        change ("&" +:+ join "&" (map field (kv :: kept)))
          with (String "&" (join "&" (map field (kv :: kept)))).
        rewrite before_cons. change (Ascii.eqb "#" "&") with false. cbv iota.
        rewrite (split_char_hit _ _ _ Hamp'). simpl omap.
        unfold field at 1. simpl fst. simpl snd.
        rewrite (parse_field_essential k v Hk).
        assert (k' ∈ map fst (omap parse_field
                  (split_char "&" (before "#" (join "&" (map field (kv :: kept))))))
                -> k' ∈ map fst ((k, v) :: kv :: kept)) as Hrest.
        { intros Hin. right. apply IH.
          - intros k0 v0 Hin0. apply Hall. by right.
          - by rewrite parse_qsl_fields. }
        destruct v; [exact Hrest|].
        intros [->|Hin]%elem_of_cons; [by left|by apply Hrest].
Qed.

(** C1, as the code has it. On a URL that parses, the result is scheme,
    network location and path (which hold no [?] and no [#]) followed, when
    a key is kept, by [?] and the kept pairs [k=v] joined by [&].  The kept
    keys are the keys of the decoded query whose lowercase form is
    [variant], [color] or [size], each once, in the order in which they
    first occur with a non-empty value.  Values are attached decoded: when
    none of them holds a [&], every key in the query string of the result is
    on the allow list. *)
Theorem clean_url_keeps_allowed_params `{HostChecks}
    (u u1 : string) (parsed : ParseResult) :
  unwrap_affiliate u = Ok u1 ->
  urlparse (unquote u1) = Ok parsed ->
  let kept := essential_params (parse_qs (query parsed)) in
  clean_url u = base_url parsed
                +:+ match kept with [] => "" | _ => "?" +:+ param_str kept end
  /\ has_char "?" (base_url parsed) = false
  /\ has_char "#" (base_url parsed) = false
  /\ map fst kept = filter (fun k => is_essential k = true)
                      (first_occurrences (query_keys (query parsed)))
  /\ ((forall k v, In (k, v) kept -> has_char "&" v = false) ->
      Forall (fun k => is_essential k = true)
             (query_keys (query_string_of (clean_url u)))).
Proof.
  intros Hwrap Hparse kept.
  destruct (clean_url_returned u u1 parsed Hwrap Hparse) as [_ Hclean].
  destruct (base_url_free parsed (urlparse_shape _ _ Hparse)) as [Hq Hh].
  assert (clean_url u = base_url parsed
            +:+ match kept with [] => "" | _ => "?" +:+ param_str kept end) as Hres.
  { rewrite Hclean. unfold rebuild. fold kept.
    destruct kept; [by rewrite app_nil_r_s|done]. }
  split; [exact Hres|]. split; [exact Hq|]. split; [exact Hh|]. split.
  - subst kept. by rewrite essential_params_keys, parse_qs_keys.
  - intros Hamp. rewrite Hres. apply Forall_forall. intros k Hin.
    destruct kept as [|kv kept'] eqn:Hkept.
    + rewrite app_nil_r_s, (query_string_of_base _ Hq Hh) in Hin.
      by apply elem_of_nil in Hin.
    + rewrite (query_string_of_attached _ _ Hq Hh) in Hin.
      apply requery_keys in Hin.
      * apply list_elem_of_fmap in Hin as ([k0 v0] & -> & Hin).
        rewrite <- Hkept in Hin. subst kept.
        by apply essential_params_elem in Hin as [? _].
      * intros k0 v0 Hin0. split.
        -- rewrite <- Hkept in Hin0. subst kept.
           by apply essential_params_elem in Hin0 as [? _].
        -- apply (Hamp k0 v0). by apply list_elem_of_In.
Qed.

(** C1 at a URL with a blank [size], a tracking parameter, a repeated
    [Color] and a fragment. *)
Lemma clean_url_keeps_allowed_params_example :
  let u := "https://store.example.com/item?size=&utm_source=ig&Color=b&size=c&Color=d#top" in
  let parsed := mkParse "https" "store.example.com" "/item" ""
                  "size=&utm_source=ig&Color=b&size=c&Color=d" "top" in
  (@unwrap_affiliate any_host u = Ok u
   /\ @urlparse any_host (unquote u) = Ok parsed)
  /\ @clean_url any_host u = "https://store.example.com/item?Color=b&size=c"
  /\ query_keys (query_string_of (@clean_url any_host u)) = ["Color"; "size"].
Proof.
  intros u parsed.
  assert (@unwrap_affiliate any_host u = Ok u) as H1 by (vm_compute; reflexivity).
  assert (@urlparse any_host (unquote u) = Ok parsed) as H2
    by (vm_compute; reflexivity).
  split; [done|].
  destruct (@clean_url_keeps_allowed_params any_host u u parsed H1 H2)
    as (Hres & _).
  rewrite Hres. split; vm_compute; reflexivity.
Defined.

(** C1 as stated fails on the order of the keys: [size] occurs first in
    the query, with a blank value, and [color] comes first in the result. *)
Lemma clean_url_order_after_blank_value :
  let u := "https://store.example.com/item?size=&color=b&size=c" in
  first_occurrences (map (before "=") (split_char "&" (query_string_of u)))
  = ["size"; "color"]
  /\ @clean_url any_host u = "https://store.example.com/item?color=b&size=c"
  /\ query_keys (query_string_of (@clean_url any_host u)) = ["color"; "size"].
Proof. repeat split; vm_compute; reflexivity. Qed.

(** A value is attached decoded, so a doubly encoded [&] in a kept value
    becomes a separator of the result: here the result shows the key
    [utm_source]. *)
Lemma clean_url_decoded_separator `{HostChecks} :
  clean_url "https://store.example.com/item?variant=red%2526utm_source%253Dig"
  = "https://store.example.com/item?variant=red&utm_source=ig"
  /\ query_keys (query_string_of
       (clean_url "https://store.example.com/item?variant=red%2526utm_source%253Dig"))
     = ["variant"; "utm_source"].
Proof. split; vm_compute; reflexivity. Qed.

(** ** Parsing the result again *)

Lemma has_char_suffix (c : ascii) (a b : string) :
  has_char c (a +:+ b) = false -> has_char c b = false.
Proof. rewrite has_char_app. by intros [_ ?]%orb_false_iff. Qed.

Lemma split_once_free (c : ascii) (s : string) :
  split_once c s = None -> has_char c s = false.
Proof.
  intros Hs. destruct (has_char c s) eqn:Hc; [|done].
  apply has_char_split_once in Hc as (a & b & Hab). congruence.
Qed.

Lemma split_last_some (c : ascii) (s : string) :
  has_char c s = true -> exists a b, split_last c s = Some (a, b).
Proof.
  induction s as [|d s IH]; simpl; [done|].
  destruct (split_last c s) as [[a b]|]; [eauto|].
  destruct (Ascii.eqb c d); [eauto|]. simpl. intros Hs.
  by destruct (IH Hs) as (a & b & ?).
Qed.

Lemma last_segment_suffix (s : string) : exists a, s = a +:+ last_segment s.
Proof.
  unfold last_segment. destruct (split_last "/" s) as [[a b]|] eqn:Hl.
  - apply split_last_spec in Hl as [-> _]. eauto.
  - by exists EmptyString.
Qed.

Lemma last_segment_app (a b : string) :
  has_char "/" b = true -> last_segment (a +:+ b) = last_segment b.
Proof.
  intros Hb. unfold last_segment.
  destruct (split_last_some _ _ Hb) as (x & y & Hxy). rewrite Hxy.
  apply split_last_spec in Hxy as (-> & y' & -> & Hy').
  by rewrite <- app_assoc_s, (split_last_hit "/" (a +:+ x) y' Hy').
Qed.

Lemma splitparams_params_ok (s : string) :
  has_char ";" s = true ->
  has_char ";" (last_segment (fst (splitparams s))) = false.
Proof.
  intros Hsemi. unfold splitparams. destruct (has_char "/" s) eqn:Hslash.
  - destruct (split_last_some _ _ Hslash) as (dir & seg & Hl). rewrite Hl.
    pose proof Hl as Hspec. apply split_last_spec in Hspec as (-> & seg' & -> & Hseg').
    simpl. change (Ascii.eqb ";" "/") with false. cbv iota.
    destruct (split_once ";" seg') as [[x y]|] eqn:Hs; simpl.
    + apply split_once_spec in Hs as [-> Hx].
      apply has_char_prefix in Hseg'.
      rewrite (last_segment_app dir (String "/" x)) by done.
      unfold last_segment. change (String "/" x) with ("" +:+ String "/" x).
      rewrite (split_last_hit "/" "" x Hseg'). simpl.
      by rewrite Hx.
    + unfold last_segment. rewrite Hl. simpl.
      by rewrite (split_once_free _ _ Hs).
  - apply has_char_split_once in Hsemi as (x & y & Hs). rewrite Hs.
    apply split_once_spec in Hs as [-> Hx]. simpl.
    apply has_char_prefix in Hslash.
    unfold last_segment. by rewrite (split_last_none _ _ Hslash).
Qed.

Lemma urlparse_params_ok `{HostChecks} (x : string) (p : ParseResult) :
  urlparse x = Ok p -> params_ok (scheme p) (path p).
Proof.
  intros (r & _ & -> & _ & _ & ->)%urlparse_inv Huses. rewrite Huses. simpl.
  destruct (has_char ";" (s_path r)) eqn:Hsemi.
  - by apply splitparams_params_ok.
  - destruct (last_segment_suffix (s_path r)) as [a Ha].
    rewrite Ha in Hsemi. by apply has_char_suffix in Hsemi.
Qed.

(** On a path whose last segment has no parameters, [urlparse] leaves the
    path as [urlsplit] gives it. *)
Lemma params_ok_fixed (sch pth : string) :
  params_ok sch pth ->
  (if existsb (String.eqb sch) uses_params && has_char ";" pth
   then splitparams pth else (pth, EmptyString)) = (pth, EmptyString).
Proof.
  intros Hok. destruct (existsb (String.eqb sch) uses_params) eqn:Huses; [|done].
  specialize (Hok Huses). simpl.
  destruct (has_char ";" pth) eqn:Hsemi; [|done].
  unfold splitparams, last_segment in *.
  destruct (has_char "/" pth) eqn:Hslash.
  - destruct (split_last_some _ _ Hslash) as (dir & seg & Hl).
    rewrite Hl in *. by rewrite (split_once_none _ _ Hok).
  - rewrite (split_last_none _ _ Hslash) in Hok. congruence.
Qed.

Lemma span_until_free (stop : ascii -> bool) (n s : string) :
  all_chars (fun c => negb (stop c)) n = true ->
  span_until stop (n +:+ s) =
  let '(x, y) := span_until stop s in (n +:+ x, y).
Proof.
  induction n as [|c n IH]; simpl.
  - intros _. change ("" +:+ s) with s. by destruct (span_until stop s).
  - intros [Hc Hn]%andb_true_iff. apply negb_true_iff in Hc.
    rewrite Hc, (IH Hn). by destruct (span_until stop s).
Qed.

Lemma span_until_stop (stop : ascii -> bool) (s t : string) :
  (t = EmptyString \/ exists c t', t = String c t' /\ stop c = true) ->
  span_until stop (s +:+ t) =
  let '(x, y) := span_until stop s in (x, y +:+ t).
Proof.
  intros Ht. induction s as [|c s IH]; simpl.
  - change ("" +:+ t) with t.
    destruct Ht as [->|(c & t' & -> & Hc)]; [done|]. simpl. by rewrite Hc.
  - destruct (stop c); [done|]. rewrite IH. by destruct (span_until stop s).
Qed.

Lemma all_chars_no_char (c : ascii) (s : string) :
  all_chars (fun d => negb (Ascii.eqb c d)) s = true <-> has_char c s = false.
Proof.
  induction s as [|d s IH]; simpl; [done|].
  rewrite andb_true_iff, orb_false_iff, negb_true_iff, IH. tauto.
Qed.

Lemma alpha_facts (c : ascii) :
  is_alpha c = true ->
  is_unsafe_byte c = false /\ value_plain c = true
  /\ Ascii.eqb "%" c = false /\ Ascii.eqb "=" c = false.
Proof.
  destruct c as [[] [] [] [] [] [] [] []]; vm_compute; repeat split; congruence.
Qed.

Lemma join_cons2 (sep x y : string) (l : list string) :
  join sep (x :: y :: l) = x +:+ sep +:+ join sep (y :: l).
Proof. reflexivity. Qed.

(** The characters of the attached text are those of the keys, of the
    values, [=] and [&]. *)
Lemma param_str_chars (P : ascii -> bool) (kept : list (string * string)) :
  P "="%char = true -> P "&"%char = true ->
  (forall k v, (k, v) ∈ kept -> all_chars P k = true /\ all_chars P v = true) ->
  all_chars P (param_str kept) = true.
Proof.
  intros Heq Hamp. unfold param_str.
  induction kept as [|[k v] kept IH]; intros Hall; [done|].
  destruct (Hall k v) as [Hk Hv]; [by left|].
  assert (all_chars P (field (k, v)) = true) as Hf.
  { unfold field. simpl fst. simpl snd.
    rewrite !all_chars_app, Hk, Hv. simpl. by rewrite Heq. }
  destruct kept as [|kv kept]; [done|].
  change (map field ((k, v) :: kv :: kept))
    with (field (k, v) :: field kv :: map field kept).
  rewrite join_cons2, !all_chars_app, Hf. simpl. rewrite Hamp. simpl.
  apply IH. intros k0 v0 Hin. apply Hall. by right.
Qed.

Lemma param_str_value_free (c : ascii) (kept : list (string * string)) :
  has_char c (param_str kept) = false ->
  forall k v, (k, v) ∈ kept -> has_char c v = false.
Proof.
  unfold param_str.
  induction kept as [|[k v] kept IH]; intros Hfree k0 v0 Hin.
  - by apply elem_of_nil in Hin.
  - assert (has_char c (field (k, v)) = false
            /\ has_char c (join "&" (map field kept)) = false) as [Hf Hrest].
    { destruct kept as [|kv kept]; [done|].
      change (map field ((k, v) :: kv :: kept))
        with (field (k, v) :: field kv :: map field kept) in Hfree.
      rewrite join_cons2, !has_char_app in Hfree.
      apply orb_false_iff in Hfree as [? [_ ?]%orb_false_iff]. done. }
    apply elem_of_cons in Hin as [[= -> ->]|Hin]; [|by apply (IH Hrest k0)].
    unfold field in Hf. simpl in Hf. rewrite !has_char_app in Hf.
    by apply orb_false_iff in Hf as [_ [_ ?]%orb_false_iff].
Qed.

Lemma value_plain_facts (v : string) :
  all_chars value_plain v = true ->
  has_char "&" v = false /\ has_char "#" v = false /\ has_char "+" v = false
  /\ clean v.
Proof.
  intros Hv. repeat split;
    try (apply (all_chars_has_char value_plain); [done|reflexivity]).
  unfold clean. apply (all_chars_impl value_plain); [|done].
  intros c. unfold value_plain. rewrite negb_true_iff, !orb_false_iff.
  intros (_ & ->). done.
Qed.

(** The attached text is read back as the pairs it was made of. *)
Lemma parse_qsl_param_str (kept : list (string * string)) :
  (forall k v, (k, v) ∈ kept ->
     is_essential k = true /\ v <> EmptyString
     /\ has_char "&" v = false /\ has_char "+" v = false /\ has_char "%" v = false) ->
  parse_qsl (param_str kept) = kept.
Proof.
  unfold param_str.
  induction kept as [|[k v] kept IH]; intros Hall; [done|].
  destruct (Hall k v) as (Hk & Hne & Hamp & Hplus & Hpct); [by left|].
  assert (parse_field (field (k, v)) = Some (k, v)) as Hfield.
  { unfold field. simpl fst. simpl snd. rewrite (parse_field_essential k v Hk).
    destruct v as [|c v]; [done|].
    by rewrite (replace_char_plain _ _ _ Hplus), (unquote_plain _ Hpct). }
  assert (has_char "&" (field (k, v)) = false) as Hamp'.
  { unfold field. simpl. rewrite !has_char_app, Hamp.
    by rewrite (is_essential_plain k "&" Hk). }
  rewrite parse_qsl_fields.
  destruct kept as [|kv kept].
  - simpl. rewrite (split_char_none _ _ Hamp'). simpl omap. by rewrite Hfield.
  - change (map field ((k, v) :: kv :: kept))
      with (field (k, v) :: field kv :: map field kept).
    rewrite join_cons2.
    change ("&" +:+ join "&" (field kv :: map field kept))
      with (String "&" (join "&" (map field (kv :: kept)))).
    rewrite (split_char_hit _ _ _ Hamp'). simpl omap. rewrite Hfield.
    f_equal. rewrite <- parse_qsl_fields. apply IH.
    intros k0 v0 Hin. apply Hall. by right.
Qed.

Lemma dict_add_fresh (k v : string) (d : qs_dict) :
  k ∉ map fst d -> dict_add k v d = d ++ [(k, (v, []))].
Proof.
  induction d as [|[k' [v0 vs]] d IH]; simpl; intros Hk; [done|].
  destruct (String.eqb_spec k k') as [->|Hne].
  - exfalso. apply Hk. by left.
  - rewrite IH; [done|]. intros Hin. apply Hk. by right.
Qed.

Lemma parse_qs_fold_fresh (l : list (string * string)) :
  forall d : qs_dict,
  NoDup (map fst d ++ map fst l) ->
  fold_left (fun d nv => dict_add (fst nv) (snd nv) d) l d
  = d ++ map (fun kv => (fst kv, (snd kv, []))) l.
Proof.
  induction l as [|[k v] l IH]; intros d Hnd; simpl.
  - by rewrite app_nil_r.
  - apply NoDup_app in Hnd as (Hd & Hdl & Hl).
    apply NoDup_cons in Hl as [Hk Hl].
    rewrite dict_add_fresh by (intros Hin; apply (Hdl k Hin); by left).
    rewrite IH, <- app_assoc; [done|].
    rewrite map_app. simpl. apply NoDup_app. split; [|split; [|done]].
    + apply NoDup_app. split; [done|]. split; [|apply NoDup_singleton].
      intros x Hx ->%list_elem_of_singleton. apply (Hdl k Hx). by left.
    + intros x [Hx| ->%list_elem_of_singleton]%elem_of_app Hin; [|done].
      apply (Hdl x Hx). by right.
Qed.

Lemma essential_params_wrap (kept : list (string * string)) :
  (forall k v, (k, v) ∈ kept -> is_essential k = true) ->
  essential_params (map (fun kv => (fst kv, (snd kv, []))) kept) = kept.
Proof.
  unfold essential_params.
  induction kept as [|[k v] kept IH]; intros Hall; simpl; [done|].
  rewrite (Hall k v) by (by left). f_equal.
  apply IH. intros k0 v0 Hin. apply (Hall k0 v0). by right.
Qed.

Lemma parse_qs_param_str (kept : list (string * string)) :
  NoDup (map fst kept) ->
  (forall k v, (k, v) ∈ kept ->
     is_essential k = true /\ v <> EmptyString
     /\ has_char "&" v = false /\ has_char "+" v = false /\ has_char "%" v = false) ->
  parse_qs (param_str kept) = map (fun kv => (fst kv, (snd kv, []))) kept.
Proof.
  intros Hnd Hall. unfold parse_qs.
  by rewrite (parse_qsl_param_str kept Hall), parse_qs_fold_fresh.
Qed.

(** What was attached is what the result gives when it is parsed and
    filtered again. *)
Lemma essential_params_param_str (kept : list (string * string)) :
  NoDup (map fst kept) ->
  (forall k v, (k, v) ∈ kept ->
     is_essential k = true /\ v <> EmptyString
     /\ has_char "&" v = false /\ has_char "+" v = false /\ has_char "%" v = false) ->
  essential_params (parse_qs (param_str kept)) = kept.
Proof.
  intros Hnd Hall. rewrite parse_qs_param_str by done.
  apply essential_params_wrap. intros k v Hin. by destruct (Hall k v Hin).
Qed.

Lemma dict_first_none (name : string) (d : qs_dict) :
  name ∉ map fst d -> dict_first name d = None.
Proof.
  induction d as [|[k [v0 vs]] d IH]; simpl; intros Hn; [done|].
  destruct (String.eqb_spec name k) as [->|Hne].
  - exfalso. apply Hn. by left.
  - apply IH. intros Hin. apply Hn. by right.
Qed.

(** A name off the allow list is not a key of the attached text. *)
Lemma dict_first_attached (name : string) (kept : list (string * string)) :
  is_essential name = false ->
  NoDup (map fst kept) ->
  (forall k v, (k, v) ∈ kept ->
     is_essential k = true /\ v <> EmptyString
     /\ has_char "&" v = false /\ has_char "+" v = false /\ has_char "%" v = false) ->
  dict_first name (parse_qs (match kept with [] => "" | _ => param_str kept end)) = None.
Proof.
  intros Hname Hnd Hall. destruct kept as [|kv kept]; [done|].
  rewrite parse_qs_param_str by done. apply dict_first_none.
  rewrite map_map.
  change (map (fun x : string * string => fst (fst x, (snd x, @nil string))) (kv :: kept))
    with (fst <$> (kv :: kept)).
  intros ([k v] & -> & Hin)%list_elem_of_fmap.
  destruct (Hall k v Hin) as (Hk & _). simpl in Hname. congruence.
Qed.

Lemma first_value_elem (k v : string) (l : list (string * string)) :
  first_value k l = Some v -> (k, v) ∈ l.
Proof.
  induction l as [|[k' v'] l IH]; simpl; [done|].
  destruct (String.eqb_spec k k') as [->|Hne].
  - intros [= ->]. by left.
  - intros Hf. right. by apply IH.
Qed.

Lemma parse_qsl_value_nonempty (qs k v : string) :
  (k, v) ∈ parse_qsl qs -> v <> EmptyString.
Proof.
  rewrite parse_qsl_fields, list_elem_of_omap.
  intros (f & _ & Hf). unfold parse_field in Hf.
  destruct (split_once "=" f) as [[n [|c w]]|]; [done| |done].
  injection Hf as _ <-. apply unquote_cons_nonempty.
Qed.

Lemma kept_value_nonempty (qs k v : string) :
  (k, v) ∈ essential_params (parse_qs qs) -> v <> EmptyString.
Proof.
  intros (_ & vs & Hin)%essential_params_elem.
  apply elem_dict_first in Hin;
    [|rewrite parse_qs_keys; apply first_occurrences_NoDup].
  rewrite parse_qs_first in Hin. apply first_value_elem in Hin.
  by apply parse_qsl_value_nonempty in Hin.
Qed.

Lemma rebuild_attached (p : ParseResult) :
  rebuild p = scheme p +:+ "://" +:+ netloc p +:+ path p
              +:+ attached (essential_params (parse_qs (query p))).
Proof.
  unfold rebuild, base_url, attached.
  destruct (essential_params (parse_qs (query p))).
  - by rewrite app_nil_r_s.
  - by rewrite !app_assoc_s.
Qed.

Lemma attached_facts (kept : list (string * string)) :
  (forall k v, (k, v) ∈ kept ->
     is_essential k = true /\ all_chars value_plain v = true) ->
  clean (attached kept) /\ has_char "#" (attached kept) = false
  /\ (attached kept = EmptyString
      \/ exists c t, attached kept = String c t /\ is_netloc_end c = true).
Proof.
  intros Hall. unfold attached. destruct kept as [|kv kept];
    [split; [reflexivity|split; [reflexivity|by left]]|].
  set (l := kv :: kept) in *.
  assert (clean (param_str l)) as Hclean.
  { apply param_str_chars; [done..|]. intros k v [Hk Hv]%Hall. split.
    - apply (all_chars_impl is_alpha); [|by apply is_essential_alpha].
      intros c Hc. by destruct (alpha_facts c Hc) as (-> & _).
    - by apply value_plain_facts in Hv as (_ & _ & _ & ?). }
  assert (all_chars (fun d => negb (Ascii.eqb "#" d)) (param_str l) = true) as Hhash.
  { apply param_str_chars; [done..|]. intros k v [Hk Hv]%Hall. split.
    - apply all_chars_no_char. by apply is_essential_plain.
    - apply all_chars_no_char. by apply value_plain_facts in Hv as (_ & ? & _). }
  apply all_chars_no_char in Hhash.
  split; [|split].
  - change ("?" +:+ param_str l) with (String "?" (param_str l)).
    by apply clean_cons.
  - change ("?" +:+ param_str l) with (String "?" (param_str l)).
    simpl. by rewrite Hhash.
  - right. by exists "?"%char, (param_str l).
Qed.

(** [urlsplit] on a rebuilt URL with a scheme: the scheme is found again,
    the network location runs up to the first [/] of what follows [://],
    and the query is the attached text. *)
Lemma urlsplit_rebuilt `{HostChecks} (sch net pth : string)
    (kept : list (string * string)) :
  shape sch net pth -> sch <> EmptyString ->
  (forall k v, (k, v) ∈ kept ->
     is_essential k = true /\ all_chars value_plain v = true) ->
  urlsplit (sch +:+ "://" +:+ net +:+ pth +:+ attached kept) =
  match check_brackets (net +:+ fst (span_until is_netloc_end pth)) with
  | Raises e => Raises e
  | Ok _ =>
      match checknetloc (net +:+ fst (span_until is_netloc_end pth)) with
      | Raises e => Raises e
      | Ok _ => Ok (mkSplit sch (net +:+ fst (span_until is_netloc_end pth))
                            (snd (span_until is_netloc_end pth))
                            (attached_query kept) "")
      end
  end.
Proof.
  intros (Hs & Hn & Hq & Hh & Hr & Hcn & Hcp) Hne Hkept.
  destruct Hs as [->|((c0 & pre & -> & Halpha) & Hchars & Hlow)]; [done|].
  destruct (attached_facts kept Hkept) as (Hcx & Hhx & Hstop).
  pose proof Hchars as Hc0. simpl in Hc0. apply andb_true_iff in Hc0 as [Hc0 _].
  destruct (scheme_char_facts c0 Hc0) as (_ & _ & _ & _ & Hspace).
  assert (clean (String c0 pre)) as Hcs.
  { unfold clean. apply (all_chars_impl is_scheme_char); [|done].
    intros c Hc. by destruct (scheme_char_facts c Hc) as (-> & _). }
  assert (has_char ":" (String c0 pre) = false) as Hcolon.
  { apply (all_chars_has_char is_scheme_char); done. }
  set (rest := net +:+ pth +:+ attached kept).
  assert (clean rest) as Hcrest by (by apply clean_app; split; [|apply clean_app]).
  unfold urlsplit.
  change (String c0 pre +:+ "://" +:+ rest)
    with (String c0 (pre +:+ String ":" (String "/" (String "/" rest)))).
  cbn [lstrip_chars]. rewrite Hspace.
  rewrite remove_chars_plain.
  2:{ change (String c0 (pre +:+ String ":" (String "/" (String "/" rest))))
        with (String c0 pre +:+ String ":" (String "/" (String "/" rest))).
      apply clean_app. split; [done|]. by repeat (apply clean_cons; split; [done|]). }
  unfold split_scheme.
  change (String c0 (pre +:+ String ":" (String "/" (String "/" rest))))
    with (String c0 pre +:+ String ":" (String "/" (String "/" rest))).
  rewrite (split_once_hit _ _ _ Hcolon), Halpha, Hchars, Hlow.
  cbn [andb strip_prefix]. rewrite !Ascii.eqb_refl.
  subst rest.
  rewrite (span_until_free _ _ _ Hn), (span_until_stop _ _ _ Hstop).
  destruct (span_until is_netloc_end pth) as [x y] eqn:Hspan. cbn [fst snd].
  destruct (check_brackets (net +:+ x)); [|done].
  destruct (checknetloc (net +:+ x)); [|done].
  f_equal. unfold split_fragment_query.
  apply span_until_spec in Hspan as (-> & _ & _).
  apply has_char_suffix in Hq, Hh.
  rewrite split_once_none by (by rewrite has_char_app, Hh, Hhx).
  unfold attached, attached_query in *. destruct kept as [|kv kept].
  - rewrite app_nil_r_s. by rewrite (split_once_none _ _ Hq).
  - change ("?" +:+ param_str (kv :: kept)) with (String "?" (param_str (kv :: kept))).
    by rewrite (split_once_hit _ _ _ Hq).
Qed.

Lemma params_ok_after_netloc (sch pth : string) :
  has_char "?" pth = false -> has_char "#" pth = false ->
  params_ok sch pth ->
  params_ok sch (snd (span_until is_netloc_end pth)).
Proof.
  intros Hq Hh Hok Huses. specialize (Hok Huses).
  destruct (span_until is_netloc_end pth) as [x y] eqn:Hspan. simpl.
  apply span_until_spec in Hspan as (-> & _ & [->|(c & y' & -> & Hc)]); [done|].
  apply has_char_suffix in Hq, Hh. simpl in Hq, Hh.
  apply orb_false_iff in Hq as [Hq _]. apply orb_false_iff in Hh as [Hh _].
  unfold is_netloc_end in Hc. rewrite (Ascii.eqb_sym c "?"), Hq in Hc.
  rewrite (Ascii.eqb_sym c "#"), Hh, !orb_false_r in Hc.
  apply Ascii.eqb_eq in Hc as ->.
  by rewrite last_segment_app in Hok.
Qed.

(** [urlparse] on a rebuilt URL raises, or gives parts from which [rebuild]
    makes the same URL. *)
Lemma reparse_rebuilt `{HostChecks} (sch net pth : string)
    (kept : list (string * string)) :
  shape sch net pth -> params_ok sch pth -> sch <> EmptyString ->
  NoDup (map fst kept) ->
  (forall k v, (k, v) ∈ kept ->
     is_essential k = true /\ v <> EmptyString
     /\ all_chars value_plain v = true /\ has_char "%" v = false) ->
  match urlparse (sch +:+ "://" +:+ net +:+ pth +:+ attached kept) with
  | Raises _ => True
  | Ok p' => rebuild p' = sch +:+ "://" +:+ net +:+ pth +:+ attached kept
             /\ query p' = attached_query kept
  end.
Proof.
  intros Hshape Hok Hne Hnd Hkept.
  unfold urlparse. rewrite urlsplit_rebuilt; try done.
  2:{ intros k v Hin. by destruct (Hkept k v Hin) as (? & _ & ? & _). }
  destruct (check_brackets _); [|done].
  destruct (checknetloc _); [|done]. cbn [s_scheme s_netloc s_path s_query s_fragment].
  destruct Hshape as (_ & _ & Hq & Hh & _).
  rewrite (params_ok_fixed sch _ (params_ok_after_netloc sch pth Hq Hh Hok)).
  split; [|done].
  rewrite rebuild_attached. cbn [scheme netloc path query].
  assert (essential_params (parse_qs (attached_query kept)) = kept) as ->.
  { unfold attached_query. destruct kept as [|kv kept]; [done|].
    apply essential_params_param_str; [done|].
    intros k v Hin. destruct (Hkept k v Hin) as (Hk & Hv & Hplain & Hpct).
    by apply value_plain_facts in Hplain as (? & _ & ? & _). }
  destruct (span_until is_netloc_end pth) as [x y] eqn:Hspan. cbn [fst snd].
  apply span_until_spec in Hspan as (-> & _).
  by rewrite !app_assoc_s.
Qed.

Lemma split_str_absent (sep s : string) :
  contains sep s = false -> split_str sep s = [s].
Proof.
  unfold split_str. induction s as [|d s IH]; [done|].
  cbn [contains split_str_from].
  intros [Hp Hc]%orb_false_iff. by rewrite Hp, (IH Hc).
Qed.

(** ** Idempotence *)

(** C3, as the code has it. [clean_url] gives its own result back when it
    is applied to a result that came from a successful parse with a scheme,
    that holds no [%] (nothing is left to decode), whose kept values hold
    none of [&], [#], [+], TAB, CR and LF, and that does not hold both the
    marker [anrdoezrs.net/click] and the text [url=]. *)
Theorem clean_url_idempotent_when_decoded `{HostChecks}
    (u u1 : string) (parsed : ParseResult) :
  unwrap_affiliate u = Ok u1 ->
  urlparse (unquote u1) = Ok parsed ->
  scheme parsed <> EmptyString ->
  has_char "%" (clean_url u) = false ->
  (contains "anrdoezrs.net/click" (clean_url u) = true ->
   contains "url=" (clean_url u) = false) ->
  (forall k v, In (k, v) (essential_params (parse_qs (query parsed))) ->
               all_chars value_plain v = true) ->
  clean_url (clean_url u) = clean_url u.
Proof.
  intros Hwrap Hparse Hsch Hpct Hanr Hplain.
  destruct (clean_url_returned u u1 parsed Hwrap Hparse) as [_ Hr].
  rewrite Hr, rebuild_attached in *.
  set (kept := essential_params (parse_qs (query parsed))) in *.
  assert (forall k v, (k, v) ∈ kept ->
            is_essential k = true /\ v <> EmptyString
            /\ all_chars value_plain v = true /\ has_char "%" v = false) as Hkept.
  { intros k v Hin. split; [|split; [|split]].
    - by apply essential_params_elem in Hin as [? _].
    - by apply kept_value_nonempty in Hin.
    - apply (Hplain k v). by apply list_elem_of_In.
    - do 3 apply has_char_suffix in Hpct. unfold attached in Hpct.
      destruct kept as [|kv kept'] eqn:Hk; [by apply elem_of_nil in Hin|].
      apply has_char_suffix in Hpct.
      by apply (param_str_value_free "%" _ Hpct k v). }
  assert (forall k v, (k, v) ∈ kept ->
            is_essential k = true /\ v <> EmptyString
            /\ has_char "&" v = false /\ has_char "+" v = false
            /\ has_char "%" v = false) as Hkept'.
  { intros k v Hin. destruct (Hkept k v Hin) as (Hk & Hv & Hp & Hpc).
    by apply value_plain_facts in Hp as (? & _ & ? & _). }
  pose proof (essential_params_NoDup (query parsed)) as Hnd. fold kept in Hnd.
  pose proof (reparse_rebuilt (scheme parsed) (netloc parsed) (path parsed) kept
                (urlparse_shape _ _ Hparse) (urlparse_params_ok _ _ Hparse)
                Hsch Hnd Hkept) as Hre.
  set (r := scheme parsed +:+ "://" +:+ netloc parsed +:+ path parsed
            +:+ attached kept) in *.
  assert (match unwrap_affiliate r with Raises _ => True | Ok r' => r' = r end)
    as Hun.
  { unfold unwrap_affiliate.
    destruct (contains "api.shopmy.us/api/redirect_click" r).
    { destruct (urlparse r) as [p'|]; [|done]. destruct Hre as [_ ->].
      unfold attached_query. by rewrite dict_first_attached. }
    destruct (contains "anrdoezrs.net/click" r).
    { rewrite (split_str_absent _ _ (Hanr eq_refl)). simpl.
      by apply unquote_plain. }
    destruct (contains "click.linksynergy.com/deeplink" r); [|done].
    destruct (urlparse r) as [p'|]; [|done]. destruct Hre as [_ ->].
    unfold attached_query. by rewrite dict_first_attached. }
  unfold clean_url at 1, clean_url_try.
  destruct (unwrap_affiliate r) as [r'|]; [|done]. subst r'.
  rewrite (unquote_plain r Hpct).
  destruct (urlparse r) as [p'|]; [|done]. by destruct Hre as [-> _].
Qed.

(** C3 at a URL with an uppercase scheme, path parameters, a tracking
    parameter, an encoded value and a fragment: one pass decodes and drops,
    a second changes nothing. *)
Lemma clean_url_idempotent_when_decoded_example :
  let u := "HTTPS://Store.Example.com/item;v=1?utm_source=ig&size=M&Color=navy+blue%21#frag" in
  let parsed := mkParse "https" "Store.Example.com" "/item" "v=1"
                  "utm_source=ig&size=M&Color=navy+blue!" "frag" in
  (@unwrap_affiliate any_host u = Ok u
   /\ @urlparse any_host (unquote u) = Ok parsed
   /\ scheme parsed <> EmptyString
   /\ has_char "%" (@clean_url any_host u) = false)
  /\ @clean_url any_host u
     = "https://Store.Example.com/item?size=M&Color=navy blue!"
  /\ @clean_url any_host (@clean_url any_host u)
     = @clean_url any_host u.
Proof.
  intros u parsed.
  assert (@unwrap_affiliate any_host u = Ok u) as H1 by (vm_compute; reflexivity).
  assert (@urlparse any_host (unquote u) = Ok parsed) as H2
    by (vm_compute; reflexivity).
  assert (scheme parsed <> EmptyString) as H3 by done.
  assert (has_char "%" (@clean_url any_host u) = false) as H4
    by (vm_compute; reflexivity).
  split; [done|]. split; [vm_compute; reflexivity|].
  apply (@clean_url_idempotent_when_decoded any_host u u parsed H1 H2 H3 H4).
  - intros Hmarker. vm_compute in Hmarker. discriminate.
  - intros k v Hin. vm_compute in Hin.
    destruct Hin as [[= <- <-]|[[= <- <-]|[]]]; vm_compute; reflexivity.
Defined.

(** C3 as stated fails on a doubly encoded character: the first pass
    leaves an escape that the second pass decodes. *)
Lemma clean_url_decodes_again :
  @clean_url any_host "https://store.example.com/item%2541"
  = "https://store.example.com/item%41"
  /\ @clean_url any_host
       (@clean_url any_host "https://store.example.com/item%2541")
     = "https://store.example.com/itemA"
  /\ @clean_url any_host
       (@clean_url any_host "https://store.example.com/item%2541")
     <> @clean_url any_host "https://store.example.com/item%2541".
Proof. repeat split; vm_compute; congruence. Qed.

(** Each condition of the idempotence theorem is needed: a result without
    scheme, and kept values that decode to text with [+], [&], [#] or a
    TAB, change under a second pass, as does a result that holds the
    marker [anrdoezrs.net/click] and the text [url=]. *)
Lemma clean_url_idempotence_limits `{HostChecks} :
  let twice (u : string) := (clean_url u, clean_url (clean_url u)) in
  twice "store.example.com/item"
  = ("://store.example.com/item", "://://store.example.com/item")
  /\ twice "https://store.example.com/item?size=a%252Bb"
     = ("https://store.example.com/item?size=a+b",
        "https://store.example.com/item?size=a b")
  /\ twice "https://store.example.com/item?size=a%2526b"
     = ("https://store.example.com/item?size=a&b",
        "https://store.example.com/item?size=a")
  /\ twice "https://store.example.com/item?size=a%2523b"
     = ("https://store.example.com/item?size=a#b",
        "https://store.example.com/item?size=a")
  /\ snd (twice "https://store.example.com/item?size=a%2509b")
     = "https://store.example.com/item?size=ab"
  /\ twice "https://anrdoezrs%2Enet/click?size=url=x"
     = ("https://anrdoezrs.net/click?size=url=x", "://x").
Proof. repeat split; vm_compute; reflexivity. Qed.

(** The counterexamples do not depend on how bracketed hosts are
    validated: none of the URLs has a bracket. *)
Lemma clean_url_counterexamples_any_host `{HostChecks} :
  clean_url (clean_url "https://store.example.com/item%2541")
  <> clean_url "https://store.example.com/item%2541"
  /\ clean_url "https://store.example.com/item?size=&color=b&size=c"
     = "https://store.example.com/item?color=b&size=c"
  /\ clean_url "https://store.example.com/item?variant=&variant=blue"
     = "https://store.example.com/item?variant=blue".
Proof. repeat split; vm_compute; congruence. Qed.

(** Brand inference has no handler: on a URL that [urlparse] rejects it
    raises, whatever the title. *)
Lemma extract_brand_raises `{HostChecks} `{UnicodeCase} (title : string) :
  extract_brand_from_url_and_title "http://[::1/gap" title = Raises ValueError.
Proof. vm_compute. reflexivity. Qed.

(** * Further properties *)

(** ** Retry with backoff, for any bound and base delay *)

Lemma calls_app (t1 t2 : list event) : calls (t1 ++ t2) = calls t1 + calls t2.
Proof. unfold calls. by rewrite List.filter_app, length_app. Qed.

Lemma sleeps_app (t1 t2 : list event) : sleeps (t1 ++ t2) = sleeps t1 ++ sleeps t2.
Proof. unfold sleeps. apply omap_app. Qed.

Lemma backoff_delays_cons (d a : Z) (k : nat) :
  backoff_delays d a (S k) = (d * 2 ^ a)%Z :: backoff_delays d (a + 1) k.
Proof.
  unfold backoff_delays. simpl. rewrite Z.add_0_r. f_equal.
  rewrite <- seq_shift, map_map. apply map_ext. intros i.
  do 2 f_equal. lia.
Qed.

Lemma backoff_rounds_cons (d a : Z) (k : nat) :
  backoff_rounds d a (S k)
  = [Call; InfoRetry (a + 1) (d * 2 ^ a); Sleep (d * 2 ^ a)]%Z
    ++ backoff_rounds d (a + 1) k.
Proof.
  unfold backoff_rounds. cbn [seq map concat]. rewrite Z.add_0_r. f_equal.
  rewrite <- seq_shift, map_map. f_equal. apply map_ext. intros i.
  replace (a + Z.of_nat (S i))%Z with (a + 1 + Z.of_nat i)%Z by lia. done.
Qed.

Lemma calls_backoff_rounds (d a : Z) (k : nat) : calls (backoff_rounds d a k) = k.
Proof.
  revert a. induction k as [|k IH]; intros a; [done|].
  rewrite backoff_rounds_cons, calls_app, IH. reflexivity.
Qed.

Lemma sleeps_backoff_rounds (d a : Z) (k : nat) :
  sleeps (backoff_rounds d a k) = backoff_delays d a k.
Proof.
  revert a. induction k as [|k IH]; intros a; [done|].
  rewrite backoff_rounds_cons, backoff_delays_cons, sleeps_app, IH. reflexivity.
Qed.

Section RetryGeneral.
Context {W V E : Type} `{Clock E}.
Variable func : W -> call_result V E * W.
Variable is_Exception : E -> bool.
Variables max_retries initial_delay : Z.

Lemma retry_loop_spec (n : nat) :
  forall (attempt : Z) (w : W) (trace : list event),
  (Z.of_nat n + attempt = max_retries)%Z -> 1 <= n ->
  exists k res w' ending,
    retry_loop func is_Exception max_retries initial_delay n attempt w trace
    = (res, w', trace ++ backoff_rounds initial_delay attempt (k - 1) ++ ending)
    /\ 1 <= k <= n
    /\ w' = state_after func k w
    /\ (forall i, i < k - 1 ->
          exists e, outcome_at func i w = Failure e /\ is_Exception e = true
                    /\ time_sleep (initial_delay * 2 ^ (attempt + Z.of_nat i))%Z = None)
    /\ match res with
       | Returns v => ending = [Call] /\ outcome_at func (k - 1) w = Success v
       | Propagates e =>
           (ending = [Call]
            /\ outcome_at func (k - 1) w = Failure e
            /\ (is_Exception e = false \/ k = n))
           \/ (ending = [Call; InfoRetry (attempt + Z.of_nat k)
                                 (initial_delay * 2 ^ (attempt + Z.of_nat k - 1))]%Z
               /\ k < n
               /\ time_sleep (initial_delay * 2 ^ (attempt + Z.of_nat k - 1))%Z = Some e
               /\ exists e0, outcome_at func (k - 1) w = Failure e0
                             /\ is_Exception e0 = true)
       | ReturnsNone => False
       end.
Proof.
  induction n as [|n IH]; intros attempt w trace Hsum Hn; [lia|].
  cbn [retry_loop]. unfold outcome_at.
  destruct (func w) as [r w1] eqn:Hcall.
  assert (forall i, i < 1 - 1 -> exists e : E,
             fst (func (state_after func i w)) = Failure e /\ is_Exception e = true
             /\ time_sleep (initial_delay * 2 ^ (attempt + Z.of_nat i))%Z = None)
    as Hnone by (intros i Hi; lia).
  destruct r as [v|e].
  { exists 1, (Returns v), w1, [Call].
    simpl. rewrite Hcall.
    split; [done|]. split; [lia|]. split; [done|]. split; [exact Hnone|]. done. }
  destruct (is_Exception e) eqn:Hexc.
  2:{ exists 1, (Propagates e), w1, [Call].
      simpl. rewrite Hcall.
      split; [done|]. split; [lia|]. split; [done|]. split; [exact Hnone|].
      left. split; [done|]. split; [done|]. by left. }
  destruct (Z.eqb_spec attempt (max_retries - 1)) as [Hlast|Hmore].
  { exists 1, (Propagates e), w1, [Call].
    simpl. rewrite Hcall.
    split; [done|]. split; [lia|]. split; [done|]. split; [exact Hnone|].
    left. split; [done|]. split; [done|]. right. lia. }
  destruct (time_sleep (initial_delay * 2 ^ attempt)%Z) as [e'|] eqn:Hsleep.
  { exists 1, (Propagates e'), w1,
      [Call; InfoRetry (attempt + 1) (initial_delay * 2 ^ attempt)]%Z.
    simpl. rewrite Hcall, <- !app_assoc.
    change (Z.of_nat 1) with 1%Z.
    replace (attempt + 1 - 1)%Z with attempt by lia.
    split; [done|]. split; [lia|]. split; [done|]. split; [exact Hnone|].
    right. split; [done|]. split; [lia|]. split; [done|]. eauto. }
  destruct (IH (attempt + 1)%Z w1
              (((trace ++ [Call])
                ++ [InfoRetry (attempt + 1) (initial_delay * 2 ^ attempt)])
               ++ [Sleep (initial_delay * 2 ^ attempt)]))
    as (k & res & w' & ending & Hrun & Hk & Hw & Hfail & Hres); [lia..|].
  exists (S k), res, w', ending. split.
  { rewrite Hrun. f_equal.
    replace (S k - 1) with (S (k - 1)) by lia.
    rewrite backoff_rounds_cons. by rewrite <- !app_assoc. }
  split; [lia|].
  split; [simpl; by rewrite Hcall|].
  split.
  { intros i Hi. destruct i as [|i]; cbn [state_after]; rewrite Hcall; cbn [fst snd].
    - exists e. change (Z.of_nat 0) with 0%Z. rewrite Z.add_0_r. done.
    - destruct (Hfail i) as (e0 & Hout & Hexc0 & Hs0); [lia|].
      exists e0. split; [done|]. split; [done|].
      by replace (attempt + Z.of_nat (S i))%Z
        with (attempt + 1 + Z.of_nat i)%Z by lia. }
  replace (S k - 1) with (S (k - 1)) by lia.
  cbn [state_after]. rewrite Hcall. cbn [snd].
  replace (attempt + Z.of_nat (S k))%Z with (attempt + 1 + Z.of_nat k)%Z by lia.
  destruct res as [v| |e']; [done..|].
  destruct Hres as [(-> & Hout & Hwhy)|(-> & Hlt & Hs & e0 & Hout & Hexc0)].
  - left. split; [done|]. split; [done|].
    destruct Hwhy as [?|?]; [by left|right; lia].
  - right. split; [done|]. split; [lia|]. split; [done|]. eauto.
Qed.


(** With a bound of zero or less the operation is never called: nothing is
    logged or slept, and the function returns [None]. *)
Theorem retry_with_backoff_with_no_attempt (w : W) :
  (max_retries <= 0)%Z ->
  retry_with_backoff_with func is_Exception max_retries initial_delay w
  = (ReturnsNone, w, []).
Proof.
  intros Hmax. unfold retry_with_backoff_with.
  replace (Z.to_nat max_retries) with 0 by lia. reflexivity.
Qed.

Lemma total_app (l1 l2 : list Z) : total (l1 ++ l2) = (total l1 + total l2)%Z.
Proof. induction l1 as [|x l1 IH]; simpl; [done|]. rewrite IH. lia. Qed.

Lemma total_backoff_delays (d a : Z) (k : nat) :
  (0 <= a)%Z ->
  total (backoff_delays d a k) = (d * 2 ^ a * (2 ^ Z.of_nat k - 1))%Z.
Proof.
  revert a. induction k as [|k IH]; intros a Ha.
  - simpl. lia.
  - rewrite backoff_delays_cons. cbn [total fold_right].
    fold (total (backoff_delays d (a + 1) k)). rewrite IH by lia.
    rewrite Nat2Z.inj_succ, !Z.pow_succ_r, Z.pow_add_r by lia. ring.
Qed.

(** The time a run sleeps in all is [initial_delay * (2 ^ (n - 1) - 1)] for
    [n] calls, so at most [initial_delay * (2 ^ (max_retries - 1) - 1)]. *)
Theorem retry_with_backoff_with_total_delay (w : W) :
  (1 <= max_retries)%Z -> (0 <= initial_delay)%Z ->
  let trace :=
    snd (retry_with_backoff_with func is_Exception max_retries initial_delay w) in
  total (sleeps trace)
  = (initial_delay * (2 ^ Z.of_nat (calls trace - 1) - 1))%Z
  /\ (total (sleeps trace) <= initial_delay * (2 ^ (max_retries - 1) - 1))%Z.
Proof.
  intros Hmax Hdelay. unfold retry_with_backoff_with.
  destruct (retry_loop_spec (Z.to_nat max_retries) 0 w [])
    as (k & res & w' & ending & -> & Hk & _ & _ & Hres); [lia..|].
  cbn [snd app].
  assert (calls ending = 1 /\ sleeps ending = []) as [Hc Hs].
  { destruct res as [v| |e]; [by destruct Hres as [-> _]|done|].
    by destruct Hres as [(-> & _)|(-> & _)]. }
  rewrite calls_app, sleeps_app, calls_backoff_rounds, sleeps_backoff_rounds, Hc, Hs.
  rewrite app_nil_r, total_backoff_delays by lia.
  replace (k - 1 + 1 - 1) with (k - 1) by lia.
  split; [simpl; lia|].
  assert (2 ^ Z.of_nat (k - 1) <= 2 ^ (max_retries - 1))%Z
    by (apply Z.pow_le_mono_r; lia).
  simpl. nia.
Qed.
End RetryGeneral.


Lemma retry_with_backoff_with_no_attempt_example :
  (0 <= 0)%Z
  /\ retry_with_backoff_with (flaky 0) (fun _ => true) 0 1 7 = (ReturnsNone, 7, []).
Proof.
  assert (0 <= 0)%Z as Hmax by lia.
  split; [exact Hmax|].
  exact (retry_with_backoff_with_no_attempt (flaky 0) (fun _ => true) 0 1 7 Hmax).
Defined.

Lemma retry_with_backoff_with_total_delay_example :
  ((1 <= 5)%Z /\ (0 <= 3)%Z)
  /\ (total (sleeps (snd (retry_with_backoff_with (flaky 9) (fun _ => true) 5 3 0%nat)))
      <= 3 * (2 ^ (5 - 1) - 1))%Z.
Proof.
  assert (1 <= 5)%Z as Hmax by lia. assert (0 <= 3)%Z as Hdelay by lia.
  split; [done|].
  exact (proj2 (retry_with_backoff_with_total_delay
                  (flaky 9) (fun _ => true) 5 3 0 Hmax Hdelay)).
Defined.

(** ** Persistence writer: what deduplication keeps *)

Lemma dedup_loop_inv (rest : list product) :
  forall seen acc,
  (forall k, k ∈ seen <-> k ∈ map dedup_key acc) ->
  NoDup (map dedup_key acc) ->
  (forall k, k ∈ fst (dedup_loop rest seen acc)
             <-> k ∈ map dedup_key (snd (dedup_loop rest seen acc)))
  /\ NoDup (map dedup_key (snd (dedup_loop rest seen acc)))
  /\ (forall k, k ∈ fst (dedup_loop rest seen acc)
                <-> k ∈ seen \/ k ∈ map dedup_key rest).
Proof.
  induction rest as [|p rest IH]; intros seen acc Hseen Hnd; simpl.
  - split; [done|]. split; [done|]. intros k. split; [by left|].
    intros [?|[]%elem_of_nil]. done.
  - destruct (decide (dedup_key p ∈ seen)) as [Hin|Hnin].
    + destruct (IH seen acc Hseen Hnd) as (H1 & H2 & H3).
      split; [done|]. split; [done|]. intros k. rewrite H3, elem_of_cons.
      split; [tauto|]. intros [?|[->|?]]; auto.
    + destruct (IH ({[dedup_key p]} ∪ seen) (acc ++ [p])) as (H1 & H2 & H3).
      * intros k. rewrite map_app, elem_of_app, elem_of_union, elem_of_singleton.
        simpl. rewrite list_elem_of_singleton, Hseen. tauto.
      * rewrite map_app. apply NoDup_app. split; [done|].
        split; [|apply NoDup_singleton].
        intros k Hk ->%list_elem_of_singleton. by apply Hnin, Hseen.
      * split; [done|]. split; [done|]. intros k.
        rewrite H3, elem_of_union, elem_of_singleton, elem_of_cons. tauto.
Qed.

Lemma dedup_start (k : string * string) :
  k ∈ (∅ : gset (string * string)) <-> k ∈ map dedup_key [].
Proof.
  split; [intros Hk; by apply not_elem_of_empty in Hk|].
  intros Hk. by apply elem_of_nil in Hk.
Qed.

(** The records kept have pairwise different (title, product_url) pairs,
    every pair of the input is the pair of a kept record, and every kept
    record is a record of the input. *)
Theorem unique_products_cover (products_data : list product) :
  let unique := unique_products_of products_data in
  NoDup (map dedup_key unique)
  /\ (forall p, In p products_data ->
        exists q, In q unique /\ dedup_key q = dedup_key p)
  /\ (forall q, In q unique -> In q products_data).
Proof.
  intros unique. subst unique. unfold unique_products_of.
  destruct (dedup_loop_inv products_data ∅ []) as (Hsame & Hnd & Hkeys);
    [apply dedup_start|constructor|].
  split; [exact Hnd|]. split.
  - intros p Hp%list_elem_of_In.
    assert (dedup_key p ∈ map dedup_key (snd (dedup_loop products_data ∅ [])))
      as Hk.
    { apply Hsame, Hkeys. right. apply list_elem_of_fmap. eauto. }
    apply list_elem_of_fmap in Hk as (q & Hq & Hin).
    exists q. split; [by apply list_elem_of_In|done].
  - intros q Hq%list_elem_of_In.
    destruct (dedup_loop_spec products_data ∅ []) as (kept & Heq & Hsub & _).
    simpl in Heq. rewrite Heq in Hq.
    by apply list_elem_of_In, (elem_of_sublist kept).
Qed.

Lemma dedup_loop_fresh (rest : list product) :
  forall seen acc,
  NoDup (map dedup_key rest) ->
  (forall k, k ∈ map dedup_key rest -> k ∉ seen) ->
  snd (dedup_loop rest seen acc) = acc ++ rest.
Proof.
  induction rest as [|p rest IH]; intros seen acc Hnd Hfresh; simpl.
  - by rewrite app_nil_r.
  - apply NoDup_cons in Hnd as [Hp Hnd].
    rewrite decide_False by (apply Hfresh; by left).
    rewrite IH, <- app_assoc; [done|done|].
    intros k Hk [->%elem_of_singleton|Hs]%elem_of_union; [done|].
    apply (Hfresh k); [by right|done].
Qed.

(** A list whose (title, product_url) pairs are pairwise different is kept
    as it is. *)
Theorem unique_products_of_distinct (products_data : list product) :
  NoDup (map dedup_key products_data) ->
  unique_products_of products_data = products_data.
Proof.
  intros Hnd. unfold unique_products_of.
  rewrite dedup_loop_fresh; [done|done|]. intros k _. apply not_elem_of_empty.
Qed.

Lemma unique_products_of_distinct_example :
  let l := [mkProduct "A" "b" "i" "u1"; mkProduct "A" "b" "i" "u2";
            mkProduct "B" "b" "i" "u1"] in
  NoDup (map dedup_key l) /\ unique_products_of l = l.
Proof.
  intros l.
  assert (NoDup (map dedup_key l)) as Hnd.
  { subst l. unfold dedup_key. simpl.
    repeat (apply NoDup_cons_2;
            [rewrite list_elem_of_In; simpl; intuition congruence|]).
    apply NoDup_nil_2. }
  split; [exact Hnd|]. exact (unique_products_of_distinct l Hnd).
Defined.

(** Deduplicating twice is deduplicating once. *)
Theorem unique_products_of_idempotent (products_data : list product) :
  unique_products_of (unique_products_of products_data)
  = unique_products_of products_data.
Proof.
  unfold unique_products_of at 1.
  rewrite dedup_loop_fresh; [done| |intros k _; apply not_elem_of_empty].
  unfold unique_products_of.
  by destruct (dedup_loop_inv products_data ∅ []) as (_ & Hnd & _);
    [apply dedup_start|constructor|].
Qed.

(** [save_to_csv] changes the one file that the name denotes.  A name
    that denotes another file reads what it read before; a name that
    denotes the same file reads the new rows, whatever the file held;
    saving the same records again changes no file. *)
Theorem save_to_csv_only_named_file `{FileSystem} (products_data : list product)
    (filename other : string) (w : world) :
  products_data <> [] ->
  let w' := save_to_csv products_data filename w in
  (realpath other <> realpath filename ->
   files w' !! realpath other = files w !! realpath other)
  /\ (realpath other = realpath filename ->
      files w' !! realpath other
      = Some (CsvFile (fieldnames :: map row_of (unique_products_of products_data))))
  /\ files (save_to_csv products_data filename w') = files w'.
Proof.
  intros Hne w'. subst w'. unfold save_to_csv.
  destruct products_data as [|p l]; [done|]. cbn [files].
  split; [|split].
  - intros Hother. by apply lookup_insert_ne.
  - intros ->. apply lookup_insert_eq.
  - apply insert_insert_eq.
Qed.

(** In a directory where [./name] and [name] are one file: the notes are
    kept, and what was under [shopmy_products.csv] is replaced when the
    records are saved to [./shopmy_products.csv]. *)
Lemma save_to_csv_only_named_file_example :
  let w := mkWorld {["notes.txt" := CsvFile [["kept"]];
                     "shopmy_products.csv" := OtherFile]} [] in
  let ps := [mkProduct "A" "b" "i" "u1"] in
  let w' := @save_to_csv working_directory ps "./shopmy_products.csv" w in
  ps <> []
  /\ files w' !! "notes.txt" = Some (CsvFile [["kept"]])
  /\ files w' !! "shopmy_products.csv"
     = Some (CsvFile [fieldnames; ["A"; "b"; "i"; "u1"]]).
Proof.
  intros w ps w'. assert (ps <> []) as Hne by done.
  split; [exact Hne|].
  destruct (@save_to_csv_only_named_file working_directory
              ps "./shopmy_products.csv" "notes.txt" w Hne) as (Hnotes & _).
  destruct (@save_to_csv_only_named_file working_directory
              ps "./shopmy_products.csv" "shopmy_products.csv" w Hne) as (_ & Hsame & _).
  split.
  - etrans; [apply Hnotes; by vm_compute|]. vm_compute. reflexivity.
  - etrans; [apply Hsame; by vm_compute|]. vm_compute. reflexivity.
Defined.

(** ** Brand inferencer: what it can answer *)

Lemma slug_loop_some_in (text : string) (items : list (string * string)) (name : string) :
  slug_loop text items = Some name ->
  exists slug, In (slug, name) items /\ contains slug text = true.
Proof.
  induction items as [|[s n] items IH]; simpl; [done|].
  destruct (contains s text) eqn:Hc.
  - intros [= <-]. exists s. split; [by left|done].
  - intros Hsome. destruct (IH Hsome) as (slug & Hin & Hhit).
    exists slug. split; [by right|done].
Qed.

(** Whatever the URL and the title, an answer of brand inference is a
    canonical name of the table, the sentinel, or, for a title with a [|],
    the text before the first [|] without the whitespace around it. *)
Theorem extract_brand_range `{HostChecks} `{UnicodeCase} (url title brand_name : string) :
  extract_brand_from_url_and_title url title = Ok brand_name ->
  In brand_name (map snd known_brands)
  \/ brand_name = "N/A"
  \/ (has_char "|" title = true /\ brand_name = strip (before "|" title)).
Proof.
  unfold extract_brand_from_url_and_title.
  destruct (urlparse url) as [parsed|]; [|done].
  destruct (slug_loop (str_lower (netloc parsed)) known_brands) as [n|] eqn:Hhost.
  { intros [= <-]. left. apply slug_loop_some_in in Hhost as (slug & Hin & _).
    apply in_map_iff. by exists (slug, n). }
  destruct (slug_loop (str_lower (path parsed)) known_brands) as [n|] eqn:Hpath.
  { intros [= <-]. left. apply slug_loop_some_in in Hpath as (slug & Hin & _).
    apply in_map_iff. by exists (slug, n). }
  destruct (negb (String.eqb title "") && negb (String.eqb title "N/A"));
    [|intros [= <-]; by auto].
  destruct (has_char "|" title) eqn:Hbar.
  - intros [= <-]. right. right. split; [done|].
    apply has_char_split_once in Hbar as (a & b & Hsplit).
    rewrite (split_char_head _ _ _ _ Hsplit). unfold before. by rewrite Hsplit.
  - destruct (name_loop title (map snd known_brands)) as [n|] eqn:Hname;
      [|intros [= <-]; by auto].
    intros [= <-]. left. by apply name_loop_some_in in Hname as [? _].
Qed.

Lemma extract_brand_range_example :
  @extract_brand_from_url_and_title any_host ascii_case
    "https://www.example.com/p/1" "  Le Specs  | Sunglasses" = Ok "Le Specs"
  /\ (In "Le Specs" (map snd known_brands)
      \/ "Le Specs" = "N/A"
      \/ (has_char "|" "  Le Specs  | Sunglasses" = true
          /\ "Le Specs" = strip (before "|" "  Le Specs  | Sunglasses"))).
Proof.
  assert (@extract_brand_from_url_and_title any_host ascii_case
            "https://www.example.com/p/1" "  Le Specs  | Sunglasses" = Ok "Le Specs")
    as Hrun by (vm_compute; reflexivity).
  split; [exact Hrun|].
  exact (@extract_brand_range any_host ascii_case _ _ _ Hrun).
Defined.

(** ** URL canonicaliser: when the handler is reached *)

Lemma has_char_lstrip (c : ascii) (drop : ascii -> bool) (s : string) :
  has_char c s = false -> has_char c (lstrip_chars drop s) = false.
Proof.
  induction s as [|d s IH]; simpl; [done|].
  intros [Hd Hs]%orb_false_iff. destruct (drop d); [by apply IH|].
  simpl. by rewrite Hd, Hs.
Qed.

Lemma has_char_remove (c : ascii) (drop : ascii -> bool) (s : string) :
  has_char c s = false -> has_char c (remove_chars drop s) = false.
Proof.
  induction s as [|d s IH]; simpl; [done|].
  intros [Hd Hs]%orb_false_iff. destruct (drop d); [by apply IH|].
  simpl. by rewrite Hd, IH.
Qed.

Lemma all_chars_lstrip (p drop : ascii -> bool) (s : string) :
  all_chars p s = true -> all_chars p (lstrip_chars drop s) = true.
Proof.
  induction s as [|d s IH]; simpl; [done|].
  intros [Hd Hs]%andb_true_iff. destruct (drop d); [by apply IH|].
  simpl. by rewrite Hd, Hs.
Qed.

Lemma all_chars_remove (p drop : ascii -> bool) (s : string) :
  all_chars p s = true -> all_chars p (remove_chars drop s) = true.
Proof.
  induction s as [|d s IH]; simpl; [done|].
  intros [Hd Hs]%andb_true_iff. destruct (drop d); [by apply IH|].
  simpl. by rewrite Hd, IH.
Qed.

(** An ASCII URL without square brackets is always parsed. *)
Lemma urlparse_no_brackets `{HostChecks} (x : string) :
  has_char "[" x = false -> has_char "]" x = false -> is_ascii x = true ->
  exists p, urlparse x = Ok p.
Proof.
  intros Hopen Hclose Hascii.
  assert (exists r, urlsplit x = Ok r) as [r Hr].
  { unfold urlsplit.
    set (x2 := remove_chars is_unsafe_byte (lstrip_chars is_c0_or_space x)).
    assert (forall c, has_char c x = false -> has_char c x2 = false) as Hx2
      by (intros c Hc; by apply has_char_remove, has_char_lstrip).
    assert (is_ascii x2 = true) as Hascii2
      by (by apply all_chars_remove, all_chars_lstrip).
    destruct (split_scheme x2) as [sch rest] eqn:Hscheme.
    assert (is_ascii rest = true) as Hascii_rest.
    { unfold split_scheme in Hscheme.
      destruct (split_once ":" x2) as [[[|c0 pre] r]|] eqn:Hsplit;
        try (by injection Hscheme as _ <-).
      destruct (is_alpha c0 && all_chars is_scheme_char (String c0 pre));
        injection Hscheme as _ <-; [|done].
      apply split_once_spec in Hsplit as [Hx2eq _]. rewrite Hx2eq in Hascii2.
      unfold is_ascii in *. rewrite all_chars_app in Hascii2.
      apply andb_true_iff in Hascii2 as [_ Hrest]. simpl in Hrest.
      exact Hrest. }
    assert (forall c, has_char c x = false -> has_char c rest = false) as Hrest.
    { intros c Hc. apply Hx2 in Hc. unfold split_scheme in Hscheme.
      destruct (split_once ":" x2) as [[[|c0 pre] r]|] eqn:Hsplit;
        try (by injection Hscheme as _ <-).
      destruct (is_alpha c0 && all_chars is_scheme_char (String c0 pre));
        injection Hscheme as _ <-; [|done].
      apply split_once_spec in Hsplit as [-> _].
      apply has_char_suffix in Hc. simpl in Hc.
      by apply orb_false_iff in Hc as [_ ?]. }
    destruct (strip_prefix "//" rest) as [rest2|] eqn:Hpre; [|eauto].
    apply strip_prefix_spec in Hpre.
    destruct (span_until is_netloc_end rest2) as [net u] eqn:Hspan.
    apply span_until_spec in Hspan as (-> & _).
    assert (forall c, has_char c x = false -> has_char c net = false) as Hnet.
    { intros c Hc. apply Hrest in Hc. rewrite Hpre in Hc.
      by apply has_char_suffix, has_char_prefix in Hc. }
    assert (is_ascii net = true) as Hascii_net.
    { rewrite Hpre in Hascii_rest. unfold is_ascii in *.
      rewrite !all_chars_app in Hascii_rest.
      apply andb_true_iff in Hascii_rest as [_ Hascii_rest].
      by apply andb_true_iff in Hascii_rest as [? _]. }
    unfold check_brackets, checknetloc.
    rewrite (Hnet _ Hopen), (Hnet _ Hclose), Hascii_net, orb_true_r. simpl. eauto. }
  unfold urlparse. rewrite Hr.
  destruct (existsb _ _ && _); [destruct (splitparams _)|]; eauto.
Qed.

Lemma clean_url_plain `{HostChecks} (u : string) :
  contains "api.shopmy.us/api/redirect_click" u = false ->
  contains "anrdoezrs.net/click" u = false ->
  contains "click.linksynergy.com/deeplink" u = false ->
  unwrap_affiliate u = Ok u.
Proof. intros H1 H2 H3. unfold unwrap_affiliate. by rewrite H1, H2, H3. Qed.

(** On a URL that holds no affiliate marker and, once decoded, is ASCII
    text without a square bracket, the handler of [clean_url] is not
    reached: the URL is parsed and the result is rebuilt from its parts. *)
Theorem clean_url_parses_without_brackets `{HostChecks} (u : string) :
  contains "api.shopmy.us/api/redirect_click" u = false ->
  contains "anrdoezrs.net/click" u = false ->
  contains "click.linksynergy.com/deeplink" u = false ->
  has_char "[" (unquote u) = false ->
  has_char "]" (unquote u) = false ->
  is_ascii (unquote u) = true ->
  exists parsed,
    urlparse (unquote u) = Ok parsed
    /\ clean_url_try u = Returned (rebuild parsed).
Proof.
  intros H1 H2 H3 Hopen Hclose Hascii.
  destruct (urlparse_no_brackets (unquote u) Hopen Hclose Hascii) as [parsed Hp].
  exists parsed. split; [done|].
  by apply (clean_url_returned u u parsed (clean_url_plain u H1 H2 H3)).
Qed.

Lemma clean_url_parses_without_brackets_example :
  let u := "shop.example.com/a%20b?size=9" in
  (contains "api.shopmy.us/api/redirect_click" u = false
   /\ contains "anrdoezrs.net/click" u = false
   /\ contains "click.linksynergy.com/deeplink" u = false
   /\ has_char "[" (unquote u) = false
   /\ has_char "]" (unquote u) = false
   /\ is_ascii (unquote u) = true)
  /\ exists parsed,
       @urlparse any_host (unquote u) = Ok parsed
       /\ @clean_url_try any_host u = Returned (rebuild parsed).
Proof.
  intros u.
  assert (contains "api.shopmy.us/api/redirect_click" u = false) as H1 by reflexivity.
  assert (contains "anrdoezrs.net/click" u = false) as H2 by reflexivity.
  assert (contains "click.linksynergy.com/deeplink" u = false) as H3 by reflexivity.
  assert (has_char "[" (unquote u) = false) as H4 by reflexivity.
  assert (has_char "]" (unquote u) = false) as H5 by reflexivity.
  assert (is_ascii (unquote u) = true) as H6 by reflexivity.
  split; [done|].
  exact (@clean_url_parses_without_brackets any_host u H1 H2 H3 H4 H5 H6).
Defined.

(** When parsing fails on a URL without affiliate marker, [clean_url]
    returns the decoded text: the input itself if it has no [%].  Parsing
    fails only on a decoded text that holds a square bracket or a
    character outside ASCII. *)
Theorem clean_url_fail_open `{HostChecks} (u : string) (e : exn) :
  contains "api.shopmy.us/api/redirect_click" u = false ->
  contains "anrdoezrs.net/click" u = false ->
  contains "click.linksynergy.com/deeplink" u = false ->
  urlparse (unquote u) = Raises e ->
  clean_url u = unquote u
  /\ (has_char "%" u = false -> clean_url u = u)
  /\ (has_char "[" (unquote u) = true \/ has_char "]" (unquote u) = true
      \/ is_ascii (unquote u) = false).
Proof.
  intros H1 H2 H3 Hraise.
  assert (clean_url u = unquote u) as Hres.
  { unfold clean_url, clean_url_try.
    by rewrite (clean_url_plain u H1 H2 H3), Hraise. }
  split; [exact Hres|]. split.
  - intros Hpct. by rewrite Hres, unquote_plain.
  - destruct (has_char "[" (unquote u)) eqn:Hopen; [by left|].
    destruct (has_char "]" (unquote u)) eqn:Hclose; [by right; left|].
    destruct (is_ascii (unquote u)) eqn:Hascii; [|by right; right].
    destruct (urlparse_no_brackets (unquote u) Hopen Hclose Hascii) as [p Hp].
    congruence.
Qed.

Lemma clean_url_fail_open_example :
  let u := "http://[::1/item" in
  (contains "api.shopmy.us/api/redirect_click" u = false
   /\ contains "anrdoezrs.net/click" u = false
   /\ contains "click.linksynergy.com/deeplink" u = false
   /\ @urlparse any_host (unquote u) = Raises ValueError)
  /\ @clean_url any_host u = u.
Proof.
  intros u.
  assert (contains "api.shopmy.us/api/redirect_click" u = false) as H1 by reflexivity.
  assert (contains "anrdoezrs.net/click" u = false) as H2 by reflexivity.
  assert (contains "click.linksynergy.com/deeplink" u = false) as H3 by reflexivity.
  assert (@urlparse any_host (unquote u) = Raises ValueError) as H4
    by reflexivity.
  split; [done|].
  destruct (@clean_url_fail_open any_host u ValueError H1 H2 H3 H4)
    as (_ & Hsame & _).
  by apply Hsame.
Defined.

(** ** URL canonicaliser: the affiliate wrappers *)

(** [urlsplit] on scheme, [://], network location, path and a query. *)
Lemma urlsplit_assembled `{HostChecks} (sch net pth q : string) :
  shape sch net pth -> sch <> EmptyString ->
  clean q -> has_char "#" q = false ->
  urlsplit (sch +:+ "://" +:+ net +:+ pth +:+ String "?" q) =
  match check_brackets (net +:+ fst (span_until is_netloc_end pth)) with
  | Raises e => Raises e
  | Ok _ =>
      match checknetloc (net +:+ fst (span_until is_netloc_end pth)) with
      | Raises e => Raises e
      | Ok _ => Ok (mkSplit sch (net +:+ fst (span_until is_netloc_end pth))
                            (snd (span_until is_netloc_end pth)) q "")
      end
  end.
Proof.
  intros (Hs & Hn & Hq & Hh & Hr & Hcn & Hcp) Hne Hcq Hhq.
  destruct Hs as [->|((c0 & pre & -> & Halpha) & Hchars & Hlow)]; [done|].
  pose proof Hchars as Hc0. simpl in Hc0. apply andb_true_iff in Hc0 as [Hc0 _].
  destruct (scheme_char_facts c0 Hc0) as (_ & _ & _ & _ & Hspace).
  assert (clean (String c0 pre)) as Hcs.
  { unfold clean. apply (all_chars_impl is_scheme_char); [|done].
    intros c Hc. by destruct (scheme_char_facts c Hc) as (-> & _). }
  assert (has_char ":" (String c0 pre) = false) as Hcolon.
  { apply (all_chars_has_char is_scheme_char); done. }
  set (rest := net +:+ pth +:+ String "?" q).
  assert (clean rest) as Hcrest.
  { apply clean_app; split; [done|]. apply clean_app; split; [done|].
    by apply clean_cons. }
  unfold urlsplit.
  change (String c0 pre +:+ "://" +:+ rest)
    with (String c0 (pre +:+ String ":" (String "/" (String "/" rest)))).
  cbn [lstrip_chars]. rewrite Hspace.
  rewrite remove_chars_plain.
  2:{ change (String c0 (pre +:+ String ":" (String "/" (String "/" rest))))
        with (String c0 pre +:+ String ":" (String "/" (String "/" rest))).
      apply clean_app. split; [done|]. by repeat (apply clean_cons; split; [done|]). }
  unfold split_scheme.
  change (String c0 (pre +:+ String ":" (String "/" (String "/" rest))))
    with (String c0 pre +:+ String ":" (String "/" (String "/" rest))).
  rewrite (split_once_hit _ _ _ Hcolon), Halpha, Hchars, Hlow.
  cbn [andb strip_prefix]. rewrite !Ascii.eqb_refl.
  subst rest.
  rewrite (span_until_free _ _ _ Hn), span_until_stop
    by (right; by exists "?"%char, q).
  destruct (span_until is_netloc_end pth) as [x y] eqn:Hspan. cbn [fst snd].
  destruct (check_brackets (net +:+ x)); [|done].
  destruct (checknetloc (net +:+ x)); [|done].
  f_equal. unfold split_fragment_query.
  apply span_until_spec in Hspan as (-> & _ & _).
  apply has_char_suffix in Hq, Hh.
  rewrite split_once_none by (rewrite has_char_app, Hh; simpl; by rewrite Hhq).
  by rewrite (split_once_hit _ _ _ Hq).
Qed.

Lemma clean_url_unwrapped `{HostChecks} (u u1 : string) :
  unwrap_affiliate u = Ok u1 ->
  clean_url u = match urlparse (unquote u1) with
                | Ok parsed => rebuild parsed
                | Raises _ => unquote u1
                end.
Proof.
  intros Hwrap. unfold clean_url, clean_url_try. rewrite Hwrap.
  by destruct (urlparse (unquote u1)).
Qed.

(** The value [parse_qs] gives a parameter whose field comes last and
    holds no separator and no [+]: the text of the field, decoded once. *)
Lemma parse_field_plain (name value : string) :
  has_char "=" name = false -> has_char "+" name = false ->
  has_char "%" name = false ->
  value <> EmptyString -> has_char "+" value = false ->
  parse_field (name +:+ String "=" value) = Some (name, unquote value).
Proof.
  intros Heq Hplus Hpct Hne Hv. unfold parse_field.
  rewrite (split_once_hit _ _ _ Heq). destruct value as [|c v]; [done|].
  by rewrite !replace_char_plain, (unquote_plain name).
Qed.

(** A shopmy redirect: the [url] parameter is decoded by [parse_qs], by
    line 26 and by line 38, and the result is that of the target decoded
    twice.  The parameter is taken to hold none of [&], [#], [+], TAB, CR
    and LF, which would end it or be changed before it is read. *)
Theorem clean_url_unwraps_shopmy `{HostChecks} (encoded : string) :
  encoded <> EmptyString ->
  all_chars value_plain encoded = true ->
  contains "api.shopmy.us/api/redirect_click" (unquote (unquote encoded)) = false ->
  contains "anrdoezrs.net/click" (unquote (unquote encoded)) = false ->
  contains "click.linksynergy.com/deeplink" (unquote (unquote encoded)) = false ->
  clean_url ("https://api.shopmy.us/api/redirect_click?url=" +:+ encoded)
  = clean_url (unquote (unquote encoded)).
Proof.
  intros Hne Hplain H1 H2 H3.
  destruct (value_plain_facts encoded Hplain) as (Hamp & Hhash & Hplus & Hclean).
  assert (urlparse ("https://api.shopmy.us/api/redirect_click?url=" +:+ encoded)
          = Ok (mkParse "https" "api.shopmy.us" "/api/redirect_click" ""
                        ("url=" +:+ encoded) "")) as Hparse.
  { unfold urlparse.
    change ("https://api.shopmy.us/api/redirect_click?url=" +:+ encoded)
      with ("https" +:+ "://" +:+ "api.shopmy.us" +:+ "/api/redirect_click"
            +:+ String "?" ("url=" +:+ encoded)).
    rewrite urlsplit_assembled; [reflexivity| |done| |].
    - repeat split; try reflexivity. right. repeat split. by exists "h"%char, "ttps".
      intros _. right. by eexists.
    - apply clean_app. by split.
    - by rewrite has_char_app, Hhash. }
  assert (dict_first "url" (parse_qs ("url=" +:+ encoded)) = Some (unquote encoded))
    as Hdict.
  { unfold parse_qs. rewrite parse_qsl_fields, split_char_none
      by (by rewrite has_char_app, Hamp).
    simpl omap. change ("url=" +:+ encoded) with ("url" +:+ String "=" encoded).
    by rewrite parse_field_plain. }
  rewrite (clean_url_unwrapped _ (unquote (unquote encoded))).
  - by rewrite (clean_url_unwrapped _ _ (clean_url_plain _ H1 H2 H3)).
  - unfold unwrap_affiliate.
    assert (contains "api.shopmy.us/api/redirect_click"
              ("https://api.shopmy.us/api/redirect_click?url=" +:+ encoded) = true)
      as -> by reflexivity.
    rewrite Hparse. cbn [query]. by rewrite Hdict.
Qed.

Lemma clean_url_unwraps_shopmy_example :
  let encoded := "https%253A%252F%252Fstore.example.com%252Fitem%253Fsize%253DM%2526ref%253D1" in
  (encoded <> EmptyString
   /\ all_chars value_plain encoded = true
   /\ unquote (unquote encoded) = "https://store.example.com/item?size=M&ref=1")
  /\ @clean_url any_host
       ("https://api.shopmy.us/api/redirect_click?url=" +:+ encoded)
     = "https://store.example.com/item?size=M".
Proof.
  intros encoded.
  assert (encoded <> EmptyString) as H0 by done.
  assert (all_chars value_plain encoded = true) as H1 by reflexivity.
  split; [by repeat split|].
  rewrite (@clean_url_unwraps_shopmy any_host encoded H0 H1);
    reflexivity.
Defined.

(** A linksynergy deep link: as for shopmy, with the [murl] parameter. *)
Theorem clean_url_unwraps_linksynergy `{HostChecks} (encoded : string) :
  let link := "https://click.linksynergy.com/deeplink?id=abc&mid=123&murl="
              +:+ encoded in
  encoded <> EmptyString ->
  all_chars value_plain encoded = true ->
  contains "api.shopmy.us/api/redirect_click" link = false ->
  contains "anrdoezrs.net/click" link = false ->
  contains "api.shopmy.us/api/redirect_click" (unquote (unquote encoded)) = false ->
  contains "anrdoezrs.net/click" (unquote (unquote encoded)) = false ->
  contains "click.linksynergy.com/deeplink" (unquote (unquote encoded)) = false ->
  clean_url link = clean_url (unquote (unquote encoded)).
Proof.
  intros link Hne Hplain Hl1 Hl2 H1 H2 H3.
  destruct (value_plain_facts encoded Hplain) as (Hamp & Hhash & Hplus & Hclean).
  assert (urlparse link
          = Ok (mkParse "https" "click.linksynergy.com" "/deeplink" ""
                        ("id=abc&mid=123&murl=" +:+ encoded) "")) as Hparse.
  { unfold urlparse, link.
    change ("https://click.linksynergy.com/deeplink?id=abc&mid=123&murl=" +:+ encoded)
      with ("https" +:+ "://" +:+ "click.linksynergy.com" +:+ "/deeplink"
            +:+ String "?" ("id=abc&mid=123&murl=" +:+ encoded)).
    rewrite urlsplit_assembled; [reflexivity| |done| |].
    - repeat split; try reflexivity. right. repeat split. by exists "h"%char, "ttps".
      intros _. right. by eexists.
    - apply clean_app. by split.
    - by rewrite has_char_app, Hhash. }
  assert (dict_first "murl" (parse_qs ("id=abc&mid=123&murl=" +:+ encoded))
          = Some (unquote encoded)) as Hdict.
  { unfold parse_qs. rewrite parse_qsl_fields.
    change ("id=abc&mid=123&murl=" +:+ encoded)
      with ("id=abc" +:+ String "&" ("mid=123" +:+ String "&" ("murl=" +:+ encoded))).
    rewrite !split_char_hit by reflexivity.
    rewrite split_char_none by (by rewrite has_char_app, Hamp).
    cbn [omap list_omap]. change ("murl=" +:+ encoded) with ("murl" +:+ String "=" encoded).
    rewrite parse_field_plain by done. reflexivity. }
  rewrite (clean_url_unwrapped _ (unquote (unquote encoded))).
  - by rewrite (clean_url_unwrapped _ _ (clean_url_plain _ H1 H2 H3)).
  - unfold unwrap_affiliate. rewrite Hl1, Hl2.
    assert (contains "click.linksynergy.com/deeplink" link = true) as ->
      by reflexivity.
    rewrite Hparse. cbn [query]. by rewrite Hdict.
Qed.

Lemma clean_url_unwraps_linksynergy_example :
  let encoded := "https%3A%2F%2Fstore.example.com%2Fitem%3Fcolor%3Dred" in
  let link := "https://click.linksynergy.com/deeplink?id=abc&mid=123&murl="
              +:+ encoded in
  (encoded <> EmptyString /\ all_chars value_plain encoded = true
   /\ contains "api.shopmy.us/api/redirect_click" link = false
   /\ contains "anrdoezrs.net/click" link = false)
  /\ @clean_url any_host link = "https://store.example.com/item?color=red".
Proof.
  intros encoded link.
  assert (encoded <> EmptyString) as H0 by done.
  assert (all_chars value_plain encoded = true) as H1 by reflexivity.
  assert (contains "api.shopmy.us/api/redirect_click" link = false) as H2 by reflexivity.
  assert (contains "anrdoezrs.net/click" link = false) as H3 by reflexivity.
  split; [done|]. subst link.
  rewrite (@clean_url_unwraps_linksynergy any_host encoded H0 H1 H2 H3);
    reflexivity.
Defined.

(** An anrdoezrs click link: what follows the last [url=] is taken as it
    stands, whatever it holds, decoded by line 30 and by line 38; no query
    is parsed. *)
Theorem clean_url_unwraps_anrdoezrs `{HostChecks} (encoded : string) :
  let link := "https://www.anrdoezrs.net/click-100-200?url=" +:+ encoded in
  contains "api.shopmy.us/api/redirect_click" link = false ->
  contains "url=" encoded = false ->
  contains "api.shopmy.us/api/redirect_click" (unquote encoded) = false ->
  contains "anrdoezrs.net/click" (unquote encoded) = false ->
  contains "click.linksynergy.com/deeplink" (unquote encoded) = false ->
  clean_url link = clean_url (unquote encoded).
Proof.
  intros link Hl1 Hlast H1 H2 H3.
  rewrite (clean_url_unwrapped link (unquote encoded)).
  - by rewrite (clean_url_unwrapped _ _ (clean_url_plain _ H1 H2 H3)).
  - unfold unwrap_affiliate. rewrite Hl1.
    assert (contains "anrdoezrs.net/click" link = true) as -> by reflexivity.
    assert (split_str "url=" link
            = "https://www.anrdoezrs.net/click-100-200?" :: split_str "url=" encoded)
      as -> by (subst link; destruct encoded; reflexivity).
    by rewrite (split_str_absent _ _ Hlast).
Qed.

Lemma clean_url_unwraps_anrdoezrs_example :
  let encoded := "https%3A%2F%2Fstore.example.com%2Fitem%3Fcolor%3Dred%26size%3D9%26cjevent%3Dx" in
  let link := "https://www.anrdoezrs.net/click-100-200?url=" +:+ encoded in
  (contains "api.shopmy.us/api/redirect_click" link = false
   /\ contains "url=" encoded = false)
  /\ @clean_url any_host link
     = "https://store.example.com/item?color=red&size=9".
Proof.
  intros encoded link.
  assert (contains "api.shopmy.us/api/redirect_click" link = false) as H1 by reflexivity.
  assert (contains "url=" encoded = false) as H2 by reflexivity.
  split; [done|]. subst link.
  rewrite (@clean_url_unwraps_anrdoezrs any_host encoded H1 H2);
    reflexivity.
Defined.

(** ** Page harvester: the fields of a record *)

Lemma absolute_href_absolute (href : string) :
  href <> EmptyString ->
  absolute_href href <> EmptyString
  /\ String.prefix "/" (absolute_href href) = false.
Proof.
  intros Hne. unfold absolute_href.
  destruct (String.prefix "//" href) eqn:H2; [by split|].
  destruct (String.prefix "/" href) eqn:H1; [by split|]. by split.
Qed.

Lemma truthy_some (o : option string) (s : string) :
  truthy o = Some s -> o = Some s /\ s <> EmptyString.
Proof. destruct o as [[|c t]|]; simpl; [done| |done]. by intros [= <-]. Qed.

Lemma product_url_of_absolute {E : Type} (link_element : option (node E)) (u : string) :
  product_url_of link_element = Success u ->
  u <> EmptyString /\ String.prefix "/" u = false.
Proof.
  destruct link_element as [n|]; simpl; [|by intros [= <-]].
  destruct (get_attribute n "href") as [href|]; simpl; [|done].
  destruct (truthy href) as [s|] eqn:Ht; [|by intros [= <-]].
  intros [= <-]. apply absolute_href_absolute.
  by apply truthy_some in Ht as [_ ?].
Qed.

Lemma image_url_of_absolute {E : Type} (img_element : option (node E)) (u : string) :
  image_url_of img_element = Success u ->
  u <> EmptyString /\ String.prefix "//" u = false.
Proof.
  destruct img_element as [n|]; simpl; [|by intros [= <-]].
  destruct (get_attribute n "src") as [src|]; simpl; [|done].
  assert (forall s, s <> EmptyString ->
            (if String.prefix "//" s then Success (E := E) ("https:" +:+ s)
             else Success s) = Success u ->
            u <> EmptyString /\ String.prefix "//" u = false) as Hfix.
  { intros s Hs. destruct (String.prefix "//" s) eqn:Hp; intros [= <-]; by split. }
  destruct (truthy src) as [s|] eqn:Ht; simpl.
  { apply Hfix. by apply truthy_some in Ht as [_ ?]. }
  destruct (get_attribute n "data-src") as [data_src|]; simpl; [|done].
  destruct (truthy data_src) as [s|] eqn:Hd; simpl.
  - apply Hfix. by apply truthy_some in Hd as [_ ?].
  - by intros [= <-].
Qed.

Lemma and_then_success {A A' E : Type} (c : call_result A E)
    (k : A -> call_result A' E) (r : A') :
  and_then c k = Success r -> exists a, c = Success a /\ k a = Success r.
Proof. destruct c as [a|e]; simpl; [eauto|done]. Qed.

(** In a record that the extraction yields, the product URL is never
    empty and never starts with [/] (a relative link is made absolute), and
    the image URL is never empty and never starts with [//]. *)
Theorem extract_product_urls {E : Type} (item : element E) (p : product) :
  extract_product item = Success p ->
  product_url p <> EmptyString
  /\ String.prefix "/" (product_url p) = false
  /\ image_url p <> EmptyString
  /\ String.prefix "//" (image_url p) = false.
Proof.
  unfold extract_product. intros Hp.
  repeat (apply and_then_success in Hp as (? & ? & Hp)).
  injection Hp as <-. simpl.
  match goal with
  | Hi : image_url_of _ = Success _, Hu : product_url_of _ = Success _ |- _ =>
      apply image_url_of_absolute in Hi as [? ?];
      apply product_url_of_absolute in Hu as [? ?]
  end.
  done.
Qed.

Lemma extract_product_urls_example :
  let item := card "  Classic Tote " "//cdn.example.com/tote.jpg" "/products/tote" in
  extract_product item
  = Success (mkProduct "Classic Tote" "N/A" "https://cdn.example.com/tote.jpg"
                       "https://shopmy.us/products/tote")
  /\ String.prefix "/" "https://shopmy.us/products/tote" = false.
Proof.
  intros item.
  assert (extract_product item
          = Success (mkProduct "Classic Tote" "N/A" "https://cdn.example.com/tote.jpg"
                               "https://shopmy.us/products/tote")) as Hrun
    by (vm_compute; reflexivity).
  split; [exact Hrun|].
  exact (proj1 (proj2 (extract_product_urls item _ Hrun))).
Defined.

(** ** Page harvester: the loop over the elements *)

Lemma extract_all_spec {B E : Type} (br : browser B E) (items : list (element E)) :
  forall (idx : nat) (acc : list product) (s : B * list (scrape_event E)),
  match extract_all br idx items acc s with
  | (Finished ps, s') => ps = acc ++ omap harvested items /\ fst s' = fst s
  | (Raised e, s') =>
      fst s' = fst s
      /\ exists item e0, e = Foreign e0 /\ In item items
           /\ extract_product item = Failure e0 /\ catches_Exception br e0 = false
  | (OutOfFuel, _) => False
  end.
Proof.
  induction items as [|item rest IH]; intros idx acc s.
  { simpl. split; [by rewrite app_nil_r|done]. }
  cbn [extract_all omap list_omap]. unfold bind at 1, info at 1. unfold harvested at 1.
  destruct (extract_product item) as [p|e0] eqn:Hp.
  - destruct (has_information p).
    + unfold bind at 1, info at 1.
      specialize (IH (S idx) (acc ++ [p])
                    (fst (fst s, snd s ++ [LogInfo (Processing idx)]),
                     snd (fst s, snd s ++ [LogInfo (Processing idx)])
                       ++ [LogInfo (Added (title p))])).
      destruct (extract_all br (S idx) rest (acc ++ [p]) _) as [[ps|e|] s'];
        [|destruct IH as (Hs & item' & e1 & -> & Hin & Hf & Hc)|done].
      * destruct IH as [-> Hs]. by rewrite <- app_assoc.
      * split; [done|]. exists item', e1. by repeat split; [right|..].
    + specialize (IH (S idx) acc (fst s, snd s ++ [LogInfo (Processing idx)])).
      destruct (extract_all br (S idx) rest acc _) as [[ps|e|] s'];
        [done|destruct IH as (Hs & item' & e1 & -> & Hin & Hf & Hc)|done].
      split; [done|]. exists item', e1. by repeat split; [right|..].
  - destruct (catches_Exception br e0) eqn:Hc0.
    + unfold bind at 1, error at 1.
      specialize (IH (S idx) acc
                    (fst (fst s, snd s ++ [LogInfo (Processing idx)]),
                     snd (fst s, snd s ++ [LogInfo (Processing idx)])
                       ++ [LogError (ErrorProcessing idx e0)])).
      destruct (extract_all br (S idx) rest acc _) as [[ps|e|] s'];
        [done|destruct IH as (Hs & item' & e1 & -> & Hin & Hf & Hc)|done].
      split; [done|]. exists item', e1. by repeat split; [right|..].
    + unfold throw. split; [done|]. exists item, e0. by repeat split; [left|..].
Qed.

Lemma harvested_has_information {E : Type} (item : element E) (p : product) :
  harvested item = Some p ->
  extract_product item = Success p /\ has_information p = true.
Proof.
  unfold harvested. destruct (extract_product item) as [q|]; [|done].
  destruct (has_information q) eqn:Hq; [|done]. by intros [= <-].
Qed.

(** The loop over the elements returns the records of the elements in page
    order, after those it starts with: an element contributes its record
    when the extraction raises nothing and some field is not the sentinel,
    and nothing otherwise.  The loop ends with an exception only when an
    extraction raises one that [except Exception] does not catch. *)
Theorem extract_all_collects {B E : Type} (br : browser B E)
    (items : list (element E)) (idx : nat) (acc : list product)
    (s : B * list (scrape_event E)) :
  match fst (extract_all br idx items acc s) with
  | Finished ps =>
      ps = acc ++ omap harvested items
      /\ Forall (fun p => has_information p = true) (omap harvested items)
  | Raised e =>
      exists item e0, e = Foreign e0 /\ In item items
        /\ extract_product item = Failure e0 /\ catches_Exception br e0 = false
  | OutOfFuel => False
  end.
Proof.
  pose proof (extract_all_spec br items idx acc s) as H.
  destruct (extract_all br idx items acc s) as [[ps|e|] s']; simpl.
  - destruct H as [-> _]. split; [done|].
    apply Forall_forall. intros p Hin.
    apply list_elem_of_omap in Hin as (item & _ & Hitem).
    by apply harvested_has_information in Hitem as [_ ?].
  - by destruct H as [_ ?].
  - done.
Qed.

(** When [except Exception] catches every exception of the browser
    library, the loop over the elements always returns: an element whose
    extraction raises is skipped and the elements after it are still
    processed. *)
Theorem extract_all_skips_failures {B E : Type} (br : browser B E)
    (items : list (element E)) (idx : nat) (acc : list product)
    (s : B * list (scrape_event E)) :
  (forall e, catches_Exception br e = true) ->
  fst (extract_all br idx items acc s) = Finished (acc ++ omap harvested items).
Proof.
  intros Hall.
  pose proof (extract_all_spec br items idx acc s) as H.
  destruct (extract_all br idx items acc s) as [[ps|e|] s']; simpl.
  - by destruct H as [-> _].
  - destruct H as (_ & item & e0 & _ & _ & _ & Hc). by rewrite Hall in Hc.
  - done.
Qed.

Lemma extract_all_skips_failures_example :
  let tote := card "Tote" "https://cdn.example.com/t.jpg" "https://shop.example.com/t" in
  fst (extract_all (growing_page []) 1 [broken_element; tote; blank_element] []
         (O, []))
  = Finished [mkProduct "Tote" "N/A" "https://cdn.example.com/t.jpg"
                        "https://shop.example.com/t"].
Proof.
  intros tote.
  etrans; [apply (extract_all_skips_failures (growing_page [])); by intros []|].
  vm_compute. reflexivity.
Defined.

(** ** Page harvester: the choice of the selector *)

(** The candidate selectors are tried in order, each at most once.  The
    one adopted is the first on which [wait_for_selector] does not raise:
    the waits on the candidates before it all timed out, and none after it
    is tried.  [None] comes only after the wait on every candidate has
    timed out.  An exception that is not a timeout ends the search at
    once: the waits before it timed out, and it propagates. *)
Theorem find_product_selector_first {B E : Type} (br : browser B E)
    (selectors : list string) (s : B * list (scrape_event E)) :
  match find_product_selector br selectors s with
  | (Finished (Some sel), s') =>
      exists before after b,
        selectors = before ++ sel :: after
        /\ all_time_out br before (fst s) = Some b
        /\ br_wait_for_selector br sel b = (Success tt, fst s')
        /\ snd s' = snd s ++ tried before
                      ++ [LogInfo (Trying sel); WaitForSelector sel;
                          LogInfo (FoundSelector sel)]
  | (Finished None, s') =>
      all_time_out br selectors (fst s) = Some (fst s')
      /\ snd s' = snd s ++ tried selectors
  | (Raised e, s') =>
      exists e0 before sel after b,
        e = Foreign e0 /\ is_PlaywrightTimeout br e0 = false
        /\ selectors = before ++ sel :: after
        /\ all_time_out br before (fst s) = Some b
        /\ br_wait_for_selector br sel b = (Failure e0, fst s')
        /\ snd s' = snd s ++ tried before
                      ++ [LogInfo (Trying sel); WaitForSelector sel]
  | (OutOfFuel, _) => False
  end.
Proof.
  revert s. induction selectors as [|sel rest IH]; intros s.
  { simpl. unfold tried. simpl. by rewrite app_nil_r. }
  cbn [find_product_selector]. unfold bind at 1, info at 1. cbn [fst snd].
  destruct (br_wait_for_selector br sel (fst s)) as [[[]|e0] b'] eqn:Hwait.
  - unfold bind, info, ret. cbn [fst snd].
    exists [], rest, (fst s). split; [done|]. split; [done|]. split; [done|].
    unfold tried. simpl. by rewrite <- !app_assoc.
  - destruct (is_PlaywrightTimeout br e0) eqn:Ht.
    + specialize (IH (b', (snd s ++ [LogInfo (Trying sel)]) ++ [WaitForSelector sel])).
      assert (forall rest' : list (scrape_event E),
                ((snd s ++ [LogInfo (Trying sel)]) ++ [WaitForSelector sel]) ++ rest'
                = snd s ++ [LogInfo (Trying sel); WaitForSelector sel] ++ rest') as Hre
        by (intros; by rewrite <- !app_assoc).
      assert (forall l, all_time_out br (sel :: l) (fst s) = all_time_out br l b')
        as Hstep by (intros l; cbn [all_time_out]; by rewrite Hwait, Ht).
      destruct (find_product_selector br rest _) as [[[found|]|e|] s']; cbn [fst snd] in IH.
      * destruct IH as (before & after & b & -> & Hout & Hfound & ->).
        exists (sel :: before), after, b.
        split; [done|]. split; [by rewrite Hstep|]. split; [done|]. by rewrite Hre.
      * destruct IH as [Hout ->]. split; [by rewrite Hstep|]. by rewrite Hre.
      * destruct IH as (e1 & before & sel' & after & b & -> & Hnt & -> & Hout & Hraise & ->).
        exists e1, (sel :: before), sel', after, b.
        split; [done|]. split; [done|]. split; [done|].
        split; [by rewrite Hstep|]. split; [done|]. by rewrite Hre.
      * done.
    + exists e0, [], sel, rest, (fst s).
      split; [done|]. split; [done|]. split; [done|]. split; [done|]. split; [done|].
      cbn [snd]. unfold tried. simpl. by rewrite <- !app_assoc.
Qed.

(** On a page where the first two candidates time out, the third is
    adopted after three waits. *)
Lemma find_product_selector_on_slow_page :
  find_product_selector slow_page product_selectors (O, [])
  = (Finished (Some ".product-item"),
     (3, tried [class_contains "product"; ".product-card"]
         ++ [LogInfo (Trying ".product-item"); WaitForSelector ".product-item";
             LogInfo (FoundSelector ".product-item")])).
Proof. vm_compute. reflexivity. Qed.

(** ** Page harvester: the scroll loop *)

Lemma scroll_to_exhaustion_turn {B E : Type} (br : browser B E)
    (fuel : nat) (last_height : Z) (s : B * list (scrape_event E)) :
  scroll_to_exhaustion br (S fuel) last_height s
  = match one_scroll br s with
    | (Finished new_height, s') =>
        if (new_height =? last_height)%Z then (Finished tt, s')
        else scroll_to_exhaustion br fuel new_height s'
    | (Raised e, s') => (Raised e, s')
    | (OutOfFuel, s') => (OutOfFuel, s')
    end.
Proof.
  cbn [scroll_to_exhaustion]. unfold one_scroll, bind.
  destruct (call ScrollToBottom (br_scroll_to_bottom br) s) as [[[]|e|] s1]; [|done..].
  destruct (call (WaitForTimeout 2000) (br_wait_for_timeout br 2000) s1)
    as [[[]|e|] s2]; [|done..].
  destruct (call ReadHeight (br_scroll_height br) s2) as [[h|e|] s3]; [|done..].
  by destruct (h =? last_height)%Z.
Qed.

Lemma call_not_out_of_fuel {B E A : Type} (ev : scrape_event E)
    (op : B -> call_result A E * B) (s : B * list (scrape_event E)) :
  fst (call ev op s) <> OutOfFuel.
Proof. unfold call. by destruct (op (fst s)) as [[a|e] b']. Qed.

Lemma one_scroll_not_out_of_fuel {B E : Type} (br : browser B E)
    (s : B * list (scrape_event E)) :
  fst (one_scroll br s) <> OutOfFuel.
Proof.
  unfold one_scroll, bind.
  pose proof (call_not_out_of_fuel ScrollToBottom (br_scroll_to_bottom br) s) as H1.
  destruct (call ScrollToBottom (br_scroll_to_bottom br) s) as [[[]|e|] s1]; [|done..].
  pose proof (call_not_out_of_fuel (WaitForTimeout 2000) (br_wait_for_timeout br 2000) s1)
    as H2.
  destruct (call (WaitForTimeout 2000) (br_wait_for_timeout br 2000) s1)
    as [[[]|e|] s2]; [|done..].
  apply call_not_out_of_fuel.
Qed.

(** The scroll loop returns or raises within [fuel] turns whenever some
    measure of the page and of the height last read is below [fuel] and
    goes down with every turn that reads a new height: the loop goes on
    only as long as the height changes. *)
Theorem scroll_to_exhaustion_ends {B E : Type} (br : browser B E)
    (measure : B -> Z -> nat) :
  (forall s last_height new_height s',
     one_scroll br s = (Finished new_height, s') ->
     new_height <> last_height ->
     measure (fst s') new_height < measure (fst s) last_height) ->
  forall (fuel : nat) (last_height : Z) (s : B * list (scrape_event E)),
  measure (fst s) last_height < fuel ->
  fst (scroll_to_exhaustion br fuel last_height s) <> OutOfFuel.
Proof.
  intros Hdown. induction fuel as [|fuel IH]; intros last_height s Hfuel; [lia|].
  rewrite scroll_to_exhaustion_turn.
  pose proof (one_scroll_not_out_of_fuel br s) as Hturn.
  destruct (one_scroll br s) as [[h|e|] s'] eqn:Hone; [|done..].
  destruct (h =? last_height)%Z eqn:Hh; [done|].
  apply IH. apply Z.eqb_neq in Hh.
  specialize (Hdown s last_height h s' Hone Hh). lia.
Qed.

Lemma scroll_to_exhaustion_ends_example :
  fst (scroll_to_exhaustion (growing_page []) 12 0 (O, [])) <> OutOfFuel.
Proof.
  apply (scroll_to_exhaustion_ends (growing_page [])
           (fun b last =>
              2 * (5 - b)
              + (if (last =? 100 * Z.of_nat (Nat.min b 5))%Z then 0 else 1))).
  - intros [b tr] last_height new_height s' Hone Hnew.
    cbv [one_scroll bind call growing_page br_scroll_to_bottom br_wait_for_timeout
           br_scroll_height fst snd] in Hone.
    injection Hone as Hheight Hs'. subst new_height s'. cbn [fst].
    rewrite Z.eqb_refl.
    destruct (Z.eqb_spec last_height (100 * Z.of_nat (Nat.min b 5))) as [->|Hl]; lia.
  - simpl. lia.
Defined.

(** ** Page harvester: the whole harvest *)

Lemma bind_finished {B E A A' : Type} (c : harvest B E A) (k : A -> harvest B E A')
    (s s' : B * list (scrape_event E)) (a : A') :
  bind c k s = (Finished a, s') ->
  exists x s1, c s = (Finished x, s1) /\ k x s1 = (Finished a, s').
Proof. unfold bind. destruct (c s) as [[x|e|] s1]; [eauto|done..]. Qed.

Lemma finally_close_finished {B E A : Type} (br : browser B E) (outcome : run E A)
    (s s' : B * list (scrape_event E)) (a : A) :
  finally_close br outcome s = (Finished a, s') -> outcome = Finished a.
Proof.
  unfold finally_close. destruct (call Close (br_close br) s) as [[[]|e|] s1]; [|done..].
  by intros [= -> _].
Qed.

Lemma scrape_shopmy_collection_finished {B E : Type} (br : browser B E)
    (fuel : nat) (url : string) (s s' : B * list (scrape_event E))
    (ps : list product) :
  scrape_shopmy_collection br fuel url s = (Finished ps, s') ->
  exists s0 s1, scrape_body br fuel url s0 = (Finished ps, s1).
Proof.
  unfold scrape_shopmy_collection. intros H.
  apply bind_finished in H as ([] & s1 & _ & H).
  apply bind_finished in H as ([] & s2 & _ & H).
  destruct (scrape_body br fuel url s2) as [[ps0|e|] s3] eqn:Hbody; [| |done].
  - apply finally_close_finished in H as [= ->]. eauto.
  - destruct (caught br e).
    + destruct ((error (FailedScraping e) ;;
                 call (Screenshot "error_screenshot.png")
                      (br_screenshot br "error_screenshot.png")) s3)
        as [[[]|e'|] s4]; [| |done]; by apply finally_close_finished in H.
    + by apply finally_close_finished in H.
Qed.

Lemma scrape_body_finished {B E : Type} (br : browser B E)
    (fuel : nat) (url : string) (s s' : B * list (scrape_event E))
    (ps : list product) :
  scrape_body br fuel url s = (Finished ps, s') ->
  exists items : list (element E), ps = omap harvested items.
Proof.
  unfold scrape_body. intros H.
  do 4 (apply bind_finished in H as (? & ? & _ & H)).
  apply bind_finished in H as ([selector|] & ? & _ & H); [|done].
  do 6 (apply bind_finished in H as (? & ? & _ & H)).
  apply bind_finished in H as (items & s6 & _ & H).
  exists items.
  pose proof (extract_all_spec br items 1 [] s6) as Hall.
  rewrite H in Hall. by destruct Hall as [-> _].
Qed.

Lemma harvested_well_formed {E : Type} (item : element E) (p : product) :
  harvested item = Some p -> well_formed p.
Proof.
  intros [Hp Hinfo]%harvested_has_information. split; [done|].
  unfold extract_product in Hp.
  repeat (apply and_then_success in Hp as (? & ? & Hp)).
  injection Hp as <-. simpl.
  match goal with
  | Hi : image_url_of _ = Success _, Hu : product_url_of _ = Success _ |- _ =>
      apply image_url_of_absolute in Hi as [? ?];
      apply product_url_of_absolute in Hu as [? ?]
  end.
  done.
Qed.

(** Every record that [scrape_shopmy_collection] returns has a field that
    is not the sentinel, a product URL that is not empty and does not start
    with [/], and an image URL that is not empty and does not start with
    [//]. *)
Theorem scrape_shopmy_collection_well_formed {B E : Type} (br : browser B E)
    (fuel : nat) (url : string) (s s' : B * list (scrape_event E))
    (ps : list product) :
  scrape_shopmy_collection br fuel url s = (Finished ps, s') ->
  Forall well_formed ps.
Proof.
  intros (s0 & s1 & Hbody)%scrape_shopmy_collection_finished.
  apply scrape_body_finished in Hbody as (items & ->).
  apply Forall_forall. intros p (item & _ & Hitem)%list_elem_of_omap.
  by apply (harvested_well_formed item).
Qed.

Lemma scrape_shopmy_collection_well_formed_example :
  let tote := card "Tote" "//cdn.example.com/t.jpg" "/products/tote" in
  let page := growing_page [broken_element; tote; blank_element] in
  let out := scrape_shopmy_collection page 12 "https://shopmy.us/collections/1" (O, []) in
  fst out = Finished [mkProduct "Tote" "N/A" "https://cdn.example.com/t.jpg"
                                "https://shopmy.us/products/tote"]
  /\ Forall well_formed [mkProduct "Tote" "N/A" "https://cdn.example.com/t.jpg"
                                   "https://shopmy.us/products/tote"].
Proof.
  intros tote page out.
  assert (fst out = Finished [mkProduct "Tote" "N/A" "https://cdn.example.com/t.jpg"
                                        "https://shopmy.us/products/tote"]) as Hrun
    by (vm_compute; reflexivity).
  split; [exact Hrun|].
  apply (scrape_shopmy_collection_well_formed page 12
           "https://shopmy.us/collections/1" (O, []) (snd out)).
  fold out. rewrite <- Hrun. by destruct out.
Defined.

(** ** Page harvester: closing the browser *)
















(** ** The script *)


